(** * IDEhome agent core: a shallow embedding and its verified properties

    The development follows the TypeScript sources of the agent core:
    - [services/geminiService.ts]: [extractJsonCandidates], [pruneMessages],
      [AIService.sendMessage], [AIService.executeTool];
    - [services/fileSystem.ts]: [FileSystemService] (memory and native backends);
    - [services/knowledgeService.ts]: [KnowledgeService] (the code index);
    - [services/syntaxService.ts]: [SyntaxService.validate].

    Part I holds the definitions, Part II the lemmas and theorems of the
    stated properties, Part III further properties of the same code.

    Conventions of the embedding:
    - an [async] function is modelled by its sequential run: one agent, no
      interleaving at the [await]s;
    - a function that can throw returns a [Completion]; a function that also
      changes the state of the services is an [Action] on a [World];
    - an object mutated in place (the memory tree, the index map) is a value
      rebuilt along the path of the mutation: the tree has no sharing;
    - strings are sequences of 8-bit code units, and the character classes
      and case mapping of the runtime are those of ASCII;
    - the runtime and the host ([JSON.parse], [JSON.stringify], Babel, the
      directory handles, the providers) are parameters or models, named as
      such where they are introduced. *)

From Stdlib Require Import List String Ascii ZArith Lia Bool Arith DecimalString Sorted Permutation.
Import ListNotations.

Set Implicit Arguments.

(* ===================================================================== *)
(** * Part I. Definitions                                                  *)
(* ===================================================================== *)

(** ** JavaScript completions: a value, or a thrown error *)

Inductive JsError : Type :=
| Error (message : string)
| TypeError (message : string)
| SyntaxError (message : string)
| DOMException (name : string) (message : string).

Definition errorMessage (e : JsError) : string :=
  match e with
  | Error m => m
  | TypeError m => m
  | SyntaxError m => m
  | DOMException _ m => m
  end.

Inductive Completion (A : Type) : Type :=
| Normal (a : A)
| Throw (e : JsError).

Arguments Normal {A} a.
Arguments Throw {A} e.

Definition bindC {A B : Type} (c : Completion A) (k : A -> Completion B) : Completion B :=
  match c with
  | Normal a => k a
  | Throw e => Throw e
  end.

(** [try { body } catch (e) { handler e }] *)
Definition tryCatch {A : Type} (body : Completion A) (handler : JsError -> Completion A)
  : Completion A :=
  match body with
  | Normal a => Normal a
  | Throw e => handler e
  end.

Declare Scope js_scope.
Delimit Scope js_scope with js.
Notation "x <- c ;; k" := (bindC c (fun x => k))
  (at level 61, c at next level, right associativity) : js_scope.

(** ** Text

    Strings are sequences of 8-bit code units.  Literals that contain the
    double-quote character are written with an apostrophe in its place and
    passed through [withQuotes]. *)

Definition dquote : ascii := ascii_of_nat 34.

Definition withQuotes (s : string) : string :=
  string_of_list_ascii
    (map (fun c => if Ascii.eqb c "'"%char then dquote else c) (list_ascii_of_string s)).

Definition chars (s : string) : list ascii := list_ascii_of_string (withQuotes s).

(* --------------------------------------------------------------------- *)
(** ** ContextPruner: [pruneMessages] (geminiService.ts) *)

Module ContextPruner.
Section WithMessages.

(** Messages are [any] in the source; the only thing the pruner observes of a
    message is the length of its [JSON.stringify] rendering. *)
Variable Msg : Type.
Variable JSON_stringify : Msg -> string.

Definition jsonLength (msg : Msg) : Z :=
  Z.of_nat (String.length (JSON_stringify msg)).

(** The [for (let i = middleMessages.length - 1; i >= 0; i--)] loop.  The
    first argument is the part of [middleMessages] still to visit, most recent
    first; [keptMiddle.unshift(msg)] is the cons. *)
Fixpoint pruneLoop (maxChars : Z) (toVisit : list Msg) (currentChars : Z)
  (keptMiddle : list Msg) : list Msg :=
  match toVisit with
  | [] => keptMiddle
  | msg :: older =>
      let len := jsonLength msg in
      if (currentChars + len >? maxChars)%Z then keptMiddle
      else pruneLoop maxChars older (currentChars + len)%Z (msg :: keptMiddle)
  end.

Definition pruneMessages (messages : list Msg) (maxChars : Z) : list Msg :=
  if (List.length messages <=? 2)%nat then messages
  else
    match messages with
    | [] => messages
    | systemMsg :: rest =>
        let lastMsg := last rest systemMsg in
        let currentChars := (jsonLength systemMsg + jsonLength lastMsg)%Z in
        let middleMessages := removelast rest in
        let keptMiddle := pruneLoop maxChars (rev middleMessages) currentChars [] in
        systemMsg :: keptMiddle ++ [lastMsg]
    end.

(** Specification side: the summed size of a group of messages, and the
    messages the backwards walk takes before it stops (most recent first). *)
Definition totalLength (msgs : list Msg) : Z :=
  fold_right (fun m acc => (jsonLength m + acc)%Z) 0%Z msgs.

Fixpoint takenWhileFits (maxChars : Z) (toVisit : list Msg) (currentChars : Z) : list Msg :=
  match toVisit with
  | [] => []
  | msg :: older =>
      if (currentChars + jsonLength msg >? maxChars)%Z then []
      else msg :: takenWhileFits maxChars older (currentChars + jsonLength msg)%Z
  end.

End WithMessages.

(** A concrete history shape, as built by the caller of [sendMessage]:
    [{ role, parts: [{ text }] }]. *)
Record ChatTurn : Type := { role : string; text : string }.

(** Rendering used for the sample histories (texts without characters that
    [JSON.stringify] would escape). *)
Definition renderTurn (m : ChatTurn) : string :=
  (withQuotes "{'role':'" ++ role m ++ withQuotes "','parts':[{'text':'"
   ++ text m ++ withQuotes "'}]}")%string.

Definition sampleHistory : list ChatTurn :=
  [ {| role := "user"; text := "build the parser" |};
    {| role := "model"; text := "which grammar should it accept" |};
    {| role := "user"; text := "json" |};
    {| role := "model"; text := "done" |};
    {| role := "user"; text := "add tests" |} ].

End ContextPruner.

(* --------------------------------------------------------------------- *)
(** ** A model of the runtime's [JSON.parse]

    The grammar is the JSON grammar (ECMA-404).  A number denotes the decimal
    [mantissa * 10 ^ exponent], kept with no trailing zero in the mantissa
    (rounding to a double is not modelled); an object keeps its members in
    source order; a [\u] escape is accepted for code units below 256 only. *)

Module JsonModel.

#[warnings="-register-all"]
Inductive JSON : Type :=
| JNull
| JBool (b : bool)
| JNumber (mantissa exponent : Z)
| JString (s : string)
| JArray (items : list JSON)
| JObject (members : list (string * JSON)).

Definition isWhitespace (c : ascii) : bool :=
  let n := nat_of_ascii c in
  (n =? 32)%nat || (n =? 9)%nat || (n =? 10)%nat || (n =? 13)%nat.

Fixpoint skipWhitespace (s : list ascii) : list ascii :=
  match s with
  | c :: rest => if isWhitespace c then skipWhitespace rest else s
  | [] => []
  end.

Definition digitValue (c : ascii) : option Z :=
  let n := nat_of_ascii c in
  if (48 <=? n)%nat && (n <=? 57)%nat then Some (Z.of_nat (n - 48)) else None.

Definition hexValue (c : ascii) : option nat :=
  let n := nat_of_ascii c in
  if (48 <=? n)%nat && (n <=? 57)%nat then Some (n - 48)%nat
  else if (65 <=? n)%nat && (n <=? 70)%nat then Some (n - 55)%nat
  else if (97 <=? n)%nat && (n <=? 102)%nat then Some (n - 87)%nat
  else None.

(** Reads a run of digits: the value read so far, the number of digits, and
    the rest of the text. *)
Fixpoint readDigits (s : list ascii) (acc : Z) (count : Z) : Z * Z * list ascii :=
  match s with
  | c :: rest =>
      match digitValue c with
      | Some d => readDigits rest (10 * acc + d)%Z (count + 1)%Z
      | None => (acc, count, s)
      end
  | [] => (acc, count, [])
  end.

Fixpoint stripZeros (fuel : nat) (m e : Z) : Z * Z :=
  match fuel with
  | O => (m, e)
  | S fuel' =>
      if (m =? 0)%Z then (0%Z, 0%Z)
      else if (m mod 10 =? 0)%Z then stripZeros fuel' (m / 10)%Z (e + 1)%Z
      else (m, e)
  end.

Definition parseNumber (s : list ascii) : option (JSON * list ascii) :=
  let (negative, s1) :=
    match s with
    | c :: rest => if Ascii.eqb c "-"%char then (true, rest) else (false, s)
    | [] => (false, s)
    end in
  let '(intPart, intCount, s2) := readDigits s1 0%Z 0%Z in
  let leadingZero :=
    match s1 with
    | c :: _ => Ascii.eqb c "0"%char && (1 <? intCount)%Z
    | [] => false
    end in
  if (intCount =? 0)%Z || leadingZero then None
  else
    let fraction :=
      match s2 with
      | c :: rest =>
          if Ascii.eqb c "."%char then
            let '(m, count, s3) := readDigits rest intPart 0%Z in
            if (count =? 0)%Z then None else Some (m, count, s3)
          else Some (intPart, 0%Z, s2)
      | [] => Some (intPart, 0%Z, s2)
      end in
    match fraction with
    | None => None
    | Some (m, fracCount, s3) =>
        let exponent :=
          match s3 with
          | c :: rest =>
              if Ascii.eqb c "e"%char || Ascii.eqb c "E"%char then
                let (expNegative, s4) :=
                  match rest with
                  | c' :: rest' =>
                      if Ascii.eqb c' "-"%char then (true, rest')
                      else if Ascii.eqb c' "+"%char then (false, rest')
                      else (false, rest)
                  | [] => (false, rest)
                  end in
                let '(e, count, s5) := readDigits s4 0%Z 0%Z in
                if (count =? 0)%Z then None
                else Some ((if expNegative then - e else e)%Z, s5)
              else Some (0%Z, s3)
          | [] => Some (0%Z, s3)
          end in
        match exponent with
        | None => None
        | Some (e, s5) =>
            let (m', e') :=
              stripZeros (List.length s) (if negative then - m else m)%Z (e - fracCount)%Z in
            Some (JNumber m' e', s5)
        end
    end.

(** The characters of a string literal after its opening quote. *)
Fixpoint parseStringBody (s : list ascii) (acc : list ascii) : option (string * list ascii) :=
  match s with
  | [] => None
  | c :: rest =>
      if Ascii.eqb c dquote then Some (string_of_list_ascii (rev acc), rest)
      else if Ascii.eqb c (ascii_of_nat 92) then
        match rest with
        | e :: rest' =>
            let simple := fun (code : nat) =>
              parseStringBody rest' (ascii_of_nat code :: acc) in
            if Ascii.eqb e dquote then simple 34%nat
            else if Ascii.eqb e (ascii_of_nat 92) then simple 92%nat
            else if Ascii.eqb e "/"%char then simple 47%nat
            else if Ascii.eqb e "b"%char then simple 8%nat
            else if Ascii.eqb e "f"%char then simple 12%nat
            else if Ascii.eqb e "n"%char then simple 10%nat
            else if Ascii.eqb e "r"%char then simple 13%nat
            else if Ascii.eqb e "t"%char then simple 9%nat
            else if Ascii.eqb e "u"%char then
              match rest' with
              | h1 :: h2 :: h3 :: h4 :: rest'' =>
                  match hexValue h1, hexValue h2, hexValue h3, hexValue h4 with
                  | Some a, Some b, Some c', Some d =>
                      let code := (((a * 16 + b) * 16 + c') * 16 + d)%nat in
                      if (code <? 256)%nat
                      then parseStringBody rest'' (ascii_of_nat code :: acc)
                      else None
                  | _, _, _, _ => None
                  end
              | _ => None
              end
            else None
        | [] => None
        end
      else if (nat_of_ascii c <? 32)%nat then None
      else parseStringBody rest (c :: acc)
  end.

Fixpoint dropPrefix (prefix s : list ascii) : option (list ascii) :=
  match prefix, s with
  | [], _ => Some s
  | p :: prefix', c :: s' => if Ascii.eqb p c then dropPrefix prefix' s' else None
  | _ :: _, [] => None
  end.

Fixpoint parseValue (fuel : nat) (s : list ascii) {struct fuel} : option (JSON * list ascii) :=
  match fuel with
  | O => None
  | S fuel' =>
      match skipWhitespace s with
      | [] => None
      | c :: rest =>
          if Ascii.eqb c "{"%char then
            match skipWhitespace rest with
            | c' :: rest' =>
                if Ascii.eqb c' "}"%char then Some (JObject [], rest')
                else parseMembers fuel' (c' :: rest') []
            | [] => None
            end
          else if Ascii.eqb c "["%char then
            match skipWhitespace rest with
            | c' :: rest' =>
                if Ascii.eqb c' "]"%char then Some (JArray [], rest')
                else parseElements fuel' (c' :: rest') []
            | [] => None
            end
          else if Ascii.eqb c dquote then
            match parseStringBody rest [] with
            | Some (str, rest') => Some (JString str, rest')
            | None => None
            end
          else if Ascii.eqb c "t"%char then
            option_map (fun r => (JBool true, r)) (dropPrefix (list_ascii_of_string "rue") rest)
          else if Ascii.eqb c "f"%char then
            option_map (fun r => (JBool false, r)) (dropPrefix (list_ascii_of_string "alse") rest)
          else if Ascii.eqb c "n"%char then
            option_map (fun r => (JNull, r)) (dropPrefix (list_ascii_of_string "ull") rest)
          else parseNumber (c :: rest)
      end
  end
with parseElements (fuel : nat) (s : list ascii) (acc : list JSON) {struct fuel}
  : option (JSON * list ascii) :=
  match fuel with
  | O => None
  | S fuel' =>
      match parseValue fuel' s with
      | Some (v, rest) =>
          match skipWhitespace rest with
          | c :: rest' =>
              if Ascii.eqb c ","%char then parseElements fuel' rest' (v :: acc)
              else if Ascii.eqb c "]"%char then Some (JArray (rev (v :: acc)), rest')
              else None
          | [] => None
          end
      | None => None
      end
  end
with parseMembers (fuel : nat) (s : list ascii) (acc : list (string * JSON)) {struct fuel}
  : option (JSON * list ascii) :=
  match fuel with
  | O => None
  | S fuel' =>
      match skipWhitespace s with
      | q :: afterQuote =>
          if Ascii.eqb q dquote then
            match parseStringBody afterQuote [] with
            | Some (key, rest) =>
                match skipWhitespace rest with
                | colon :: rest1 =>
                    if Ascii.eqb colon ":"%char then
                      match parseValue fuel' rest1 with
                      | Some (v, rest2) =>
                          match skipWhitespace rest2 with
                          | c :: rest3 =>
                              if Ascii.eqb c ","%char
                              then parseMembers fuel' rest3 ((key, v) :: acc)
                              else if Ascii.eqb c "}"%char
                              then Some (JObject (rev ((key, v) :: acc)), rest3)
                              else None
                          | [] => None
                          end
                      | None => None
                      end
                    else None
                | [] => None
                end
            | None => None
            end
          else None
      | [] => None
      end
  end.

Definition JSON_parse (text : list ascii) : Completion JSON :=
  match parseValue (S (2 * List.length text)) text with
  | Some (v, rest) =>
      match skipWhitespace rest with
      | [] => Normal v
      | _ :: _ => Throw (SyntaxError "Unexpected non-whitespace character after JSON")
      end
  | None => Throw (SyntaxError "Unexpected token in JSON")
  end.

End JsonModel.

(* --------------------------------------------------------------------- *)
(** ** ResponseJsonRecovery: [extractJsonCandidates] (geminiService.ts) *)

Module JsonRecovery.

Definition backslash : ascii := ascii_of_nat 92.
Definition LF : ascii := ascii_of_nat 10.
Definition CR : ascii := ascii_of_nat 13.

(** [text.substring(indexStart, indexEnd)]: both indices are clamped to the
    text and swapped when out of order. *)
Definition substring (text : list ascii) (indexStart indexEnd : Z) : list ascii :=
  let len := Z.of_nat (List.length text) in
  let clamp := fun x => Z.max 0 (Z.min x len) in
  let a := clamp indexStart in
  let b := clamp indexEnd in
  firstn (Z.to_nat (Z.max a b - Z.min a b)) (skipn (Z.to_nat (Z.min a b)) text).

(** [jsonStr.replace(/(?:\r\n|\r|\n)/g, '\\n')]: every line break (CR LF taken
    as one) becomes the two characters backslash, n. *)
Fixpoint replaceNewlines (s : list ascii) : list ascii :=
  match s with
  | [] => []
  | c :: rest =>
      if Ascii.eqb c CR then
        match rest with
        | c' :: rest' =>
            if Ascii.eqb c' LF then backslash :: "n"%char :: replaceNewlines rest'
            else backslash :: "n"%char :: replaceNewlines rest
        | [] => [backslash; "n"%char]
        end
      else if Ascii.eqb c LF then backslash :: "n"%char :: replaceNewlines rest
      else c :: replaceNewlines rest
  end.

Section WithParser.

(** [JSON.parse] is the runtime's; it returns a value or throws. *)
Variable Value : Type.
Variable JSON_parse : list ascii -> Completion Value.

(** The locals of [extractJsonCandidates].  [stack] has its top (the last
    pushed closer) at the head. *)
Record ScanState : Type := {
  candidates : list Value;
  stack : list ascii;
  startIndex : Z;
  inString : bool;
  isEscaped : bool
}.

Definition initialState : ScanState :=
  {| candidates := []; stack := []; startIndex := (-1)%Z;
     inString := false; isEscaped := false |}.

Definition isOpener (char : ascii) : bool :=
  Ascii.eqb char "{"%char || Ascii.eqb char "["%char.

Definition isCloser (char : ascii) : bool :=
  Ascii.eqb char "}"%char || Ascii.eqb char "]"%char.

Definition closerFor (char : ascii) : ascii :=
  if Ascii.eqb char "{"%char then "}"%char else "]"%char.

(** The two nested [try]/[catch] blocks run when a top-level bracket closes. *)
Definition parseCandidate (jsonStr : list ascii) (candidates : list Value)
  : Completion (list Value) :=
  tryCatch
    (parsed <- JSON_parse jsonStr ;; Normal (candidates ++ [parsed]))%js
    (fun _ =>
       tryCatch
         (let strictSanitized := replaceNewlines jsonStr in
          parsed <- JSON_parse strictSanitized ;; Normal (candidates ++ [parsed]))%js
         (fun _ => Normal candidates)).

(** One iteration of the [for] loop, at index [i] with [char = text[i]]. *)
Definition scanStep (text : list ascii) (i : nat) (char : ascii) (st : ScanState)
  : Completion ScanState :=
  if inString st then
    if Ascii.eqb char backslash && negb (isEscaped st) then
      Normal {| candidates := candidates st; stack := stack st;
                startIndex := startIndex st; inString := true; isEscaped := true |}
    else if Ascii.eqb char dquote && negb (isEscaped st) then
      Normal {| candidates := candidates st; stack := stack st;
                startIndex := startIndex st; inString := false;
                isEscaped := isEscaped st |}
    else
      Normal {| candidates := candidates st; stack := stack st;
                startIndex := startIndex st; inString := true; isEscaped := false |}
  else if Ascii.eqb char dquote then
    Normal {| candidates := candidates st; stack := stack st;
              startIndex := startIndex st; inString := true;
              isEscaped := isEscaped st |}
  else if isOpener char then
    let startIndex' :=
      if (List.length (stack st) =? 0)%nat then Z.of_nat i else startIndex st in
    Normal {| candidates := candidates st; stack := closerFor char :: stack st;
              startIndex := startIndex'; inString := false;
              isEscaped := isEscaped st |}
  else if isCloser char then
    match stack st with
    | top :: below =>
        if Ascii.eqb char top then
          if (List.length below =? 0)%nat && negb (startIndex st =? -1)%Z then
            let jsonStr := substring text (startIndex st) (Z.of_nat i + 1) in
            (candidates' <- parseCandidate jsonStr (candidates st) ;;
             Normal {| candidates := candidates'; stack := below;
                       startIndex := (-1)%Z; inString := false;
                       isEscaped := isEscaped st |})%js
          else
            Normal {| candidates := candidates st; stack := below;
                      startIndex := startIndex st; inString := false;
                      isEscaped := isEscaped st |}
        else Normal st
    | [] => Normal st
    end
  else Normal st.

(** The [for (let i = 0; i < text.length; i++)] loop; [rest] is the text from
    index [i] on. *)
Fixpoint scanLoop (text rest : list ascii) (i : nat) (st : ScanState)
  : Completion ScanState :=
  match rest with
  | [] => Normal st
  | char :: rest' =>
      (st' <- scanStep text i char st ;; scanLoop text rest' (S i) st')%js
  end.

Definition extractJsonCandidates (text : list ascii) : Completion (list Value) :=
  (st <- scanLoop text text 0 initialState ;; Normal (candidates st))%js.

(** *** The recovery algorithm in the words of its description

    A bracket stack and a string-literal state are kept while scanning left to
    right; the characters since the stack last left the empty state are
    collected in [slice] (most recent first), and each time the stack returns
    to empty the slice is emitted. *)
Fixpoint slicesFrom (rest : list ascii) (closers : list ascii) (inStr esc : bool)
  (slice : list ascii) : list (list ascii) :=
  match rest with
  | [] => []
  | c :: rest' =>
      if inStr then
        if Ascii.eqb c backslash && negb esc then slicesFrom rest' closers true true (c :: slice)
        else if Ascii.eqb c dquote && negb esc then slicesFrom rest' closers false esc (c :: slice)
        else slicesFrom rest' closers true false (c :: slice)
      else if Ascii.eqb c dquote then slicesFrom rest' closers true esc (c :: slice)
      else if isOpener c then
        match closers with
        | [] => slicesFrom rest' [closerFor c] false esc [c]
        | _ => slicesFrom rest' (closerFor c :: closers) false esc (c :: slice)
        end
      else if isCloser c then
        match closers with
        | [top] =>
            if Ascii.eqb c top then rev (c :: slice) :: slicesFrom rest' [] false esc []
            else slicesFrom rest' closers false esc (c :: slice)
        | top :: below =>
            if Ascii.eqb c top then slicesFrom rest' below false esc (c :: slice)
            else slicesFrom rest' closers false esc (c :: slice)
        | [] => slicesFrom rest' [] false esc (c :: slice)
        end
      else slicesFrom rest' closers false esc (c :: slice)
  end.

Definition topLevelSlices (text : list ascii) : list (list ascii) :=
  slicesFrom text [] false false [].

(** Strict parse; on failure one retry with the line breaks escaped; on a
    second failure the slice contributes nothing. *)
Definition attempt (slice : list ascii) : list Value :=
  match JSON_parse slice with
  | Normal v => [v]
  | Throw _ =>
      match JSON_parse (replaceNewlines slice) with
      | Normal v => [v]
      | Throw _ => []
      end
  end.



End WithParser.

End JsonRecovery.

(* --------------------------------------------------------------------- *)
(** ** String primitives of the runtime used by the services *)

Module JsString.

(** [s.split(sep)] for a one-character separator. *)
Fixpoint split (sep : ascii) (s : string) : list string :=
  match s with
  | EmptyString => [EmptyString]
  | String c rest =>
      if Ascii.eqb c sep then EmptyString :: split sep rest
      else
        match split sep rest with
        | head :: tail => String c head :: tail
        | [] => [String c EmptyString]
        end
  end.

(** [parts.join(sep)] *)
Fixpoint join (sep : string) (parts : list string) : string :=
  match parts with
  | [] => EmptyString
  | [part] => part
  | part :: rest => part ++ sep ++ join sep rest
  end.

Definition startsWith (s prefix : string) : bool := String.prefix prefix s.

Fixpoint includes (s sub : string) : bool :=
  String.prefix sub s
  || match s with
     | EmptyString => false
     | String _ rest => includes rest sub
     end.

Definition endsWith (s suffix : string) : bool :=
  (String.length suffix <=? String.length s)%nat
  && String.eqb (String.substring (String.length s - String.length suffix)
                   (String.length suffix) s) suffix.

Definition lowerChar (c : ascii) : ascii :=
  let n := nat_of_ascii c in
  if (65 <=? n)%nat && (n <=? 90)%nat then ascii_of_nat (n + 32) else c.

(** [s.toLowerCase()] on the ASCII letters. *)
Fixpoint toLowerCase (s : string) : string :=
  match s with
  | EmptyString => EmptyString
  | String c rest => String (lowerChar c) (toLowerCase rest)
  end.

(** The class [\s], on ASCII. *)
Definition isSpace (c : ascii) : bool :=
  let n := nat_of_ascii c in
  ((9 <=? n)%nat && (n <=? 13)%nat) || (n =? 32)%nat.

(** The class [[a-zA-Z0-9_]]. *)
Definition isWordChar (c : ascii) : bool :=
  let n := nat_of_ascii c in
  ((48 <=? n)%nat && (n <=? 57)%nat) || ((65 <=? n)%nat && (n <=? 90)%nat)
  || ((97 <=? n)%nat && (n <=? 122)%nat) || (n =? 95)%nat.

Fixpoint dropWhile (p : ascii -> bool) (s : string) : string :=
  match s with
  | EmptyString => EmptyString
  | String c rest => if p c then dropWhile p rest else s
  end.

Fixpoint takeWhile (p : ascii -> bool) (s : string) : string :=
  match s with
  | EmptyString => EmptyString
  | String c rest => if p c then String c (takeWhile p rest) else EmptyString
  end.

Definition reverse (s : string) : string :=
  string_of_list_ascii (rev (list_ascii_of_string s)).

(** [s.trim()] *)
Definition trim (s : string) : string :=
  reverse (dropWhile isSpace (reverse (dropWhile isSpace s))).

(** [s.slice(0, n)] *)
Definition slice0 (n : nat) (s : string) : string := String.substring 0 n s.

(** [s.replace(/\s+/g, ' ')] *)
Fixpoint collapseSpaces (s : string) : string :=
  match s with
  | EmptyString => EmptyString
  | String c rest =>
      if isSpace c then
        match rest with
        | String c' _ => if isSpace c' then collapseSpaces rest
                         else String " "%char (collapseSpaces rest)
        | EmptyString => String " "%char EmptyString
        end
      else String c (collapseSpaces rest)
  end.

(** [s.split(/\s+/)]: the pieces between maximal runs of white space. *)
Fixpoint splitSpaces (s : string) : list string :=
  match s with
  | EmptyString => [EmptyString]
  | String c rest =>
      if isSpace c then
        match rest with
        | String c' _ => if isSpace c' then splitSpaces rest
                         else EmptyString :: splitSpaces rest
        | EmptyString => [EmptyString; EmptyString]
        end
      else
        match splitSpaces rest with
        | head :: tail => String c head :: tail
        | [] => [String c EmptyString]
        end
  end.

(** Decimal rendering of a length or a count. *)
Definition ofNat (n : nat) : string := NilZero.string_of_uint (Nat.to_uint n).

End JsString.

(* --------------------------------------------------------------------- *)
(** ** Insertion-ordered string-keyed tables

    The [Map] of the code index and the [Record<string, _>] objects of the
    memory file system: a key is present at most once, an update of a present
    key keeps its place, a new key goes last.  For a [Map] this is the whole
    behaviour.  For an object it is the behaviour of its own properties under
    keys that are neither [__proto__] nor the name of something the object
    inherits (and an object lists its integer-like keys first, which is not
    modelled): [FileSystem] reads the memory tree this way, and the module
    [JsMemory] below runs the same functions on objects with their
    prototype. *)

Module Table.
Section WithValue.
Variable V : Type.

Fixpoint get (table : list (string * V)) (key : string) : option V :=
  match table with
  | [] => None
  | (k, v) :: rest => if String.eqb k key then Some v else get rest key
  end.

Fixpoint set (table : list (string * V)) (key : string) (value : V) : list (string * V) :=
  match table with
  | [] => [(key, value)]
  | (k, v) :: rest =>
      if String.eqb k key then (k, value) :: rest else (k, v) :: set rest key value
  end.

Fixpoint remove (table : list (string * V)) (key : string) : list (string * V) :=
  match table with
  | [] => []
  | (k, v) :: rest =>
      if String.eqb k key then remove rest key else (k, v) :: remove rest key
  end.

Definition keys (table : list (string * V)) : list string := map fst table.
Definition values (table : list (string * V)) : list V := map snd table.

End WithValue.
End Table.

(* --------------------------------------------------------------------- *)
(** ** CodeIndex: [KnowledgeService] (knowledgeService.ts) *)

Module Knowledge.

Record IndexEntry : Type := {
  path : string;
  symbols : list string;
  summary : string;
  contentSnippet : string;
  lastModified : nat
}.

(** The private field [index: Map<string, IndexEntry>]. *)
Definition Index : Type := list (string * IndexEntry).

(** *** The regular expressions of [parseSymbols]

    Each matcher tries its expression at the head of the text and returns the
    captured group with the number of characters matched.  The character
    classes that follow one another in these expressions are disjoint, so the
    greedy match is the only one. *)

Fixpoint dropPrefix (prefix s : string) : option string :=
  match prefix, s with
  | EmptyString, _ => Some s
  | String p prefix', String c s' => if Ascii.eqb p c then dropPrefix prefix' s' else None
  | String _ _, EmptyString => None
  end.

(** [keyword\s+([a-zA-Z0-9_]+)] *)
Definition matchDeclaration (keyword : string) (s : string) : option (string * string) :=
  match dropPrefix keyword s with
  | None => None
  | Some afterKeyword =>
      let afterSpaces := JsString.dropWhile JsString.isSpace afterKeyword in
      if (String.length afterSpaces =? String.length afterKeyword)%nat then None
      else
        let name := JsString.takeWhile JsString.isWordChar afterSpaces in
        if (String.length name =? 0)%nat then None
        else Some (name, JsString.dropWhile JsString.isWordChar afterSpaces)
  end.

(** [function\s+([a-zA-Z0-9_]+)], [class\s+(...)], [def\s+(...)]: the capture
    and the length of the match. *)
Definition matchKeyword (keyword : string) (s : string) : option (string * nat) :=
  match matchDeclaration keyword s with
  | Some (name, rest) => Some (name, String.length s - String.length rest)
  | None => None
  end.

(** [(?:const|let|var)\s+([a-zA-Z0-9_]+)\s*=] *)
Definition matchBinding (s : string) : option (string * nat) :=
  let declared :=
    match matchDeclaration "const" s with
    | Some r => Some r
    | None =>
        match matchDeclaration "let" s with
        | Some r => Some r
        | None => matchDeclaration "var" s
        end
    end in
  match declared with
  | Some (name, rest) =>
      match JsString.dropWhile JsString.isSpace rest with
      | String c rest' =>
          if Ascii.eqb c "="%char
          then Some (name, String.length s - String.length rest')
          else None
      | EmptyString => None
      end
  | None => None
  end.

(** [content.matchAll(re)] for an expression that matches at least one
    character: after a match the search resumes at its end ([skip] counts the
    characters of the current match still to pass), otherwise one character
    further. *)
Fixpoint matchAllFrom (matcher : string -> option (string * nat)) (s : string)
  (skip : nat) : list string :=
  match s with
  | EmptyString => []
  | String _ rest =>
      match skip with
      | S skip' => matchAllFrom matcher rest skip'
      | O =>
          match matcher s with
          | Some (capture, matched) => capture :: matchAllFrom matcher rest (matched - 1)
          | None => matchAllFrom matcher rest 0
          end
      end
  end.

Definition matchAll (matcher : string -> option (string * nat)) (content : string)
  : list string :=
  matchAllFrom matcher content 0.

Definition isLineTerminator (c : ascii) : bool :=
  let n := nat_of_ascii c in (n =? 10)%nat || (n =? 13)%nat.

(** The lazy [(.*?)<\/title>] after an opening tag. *)
Fixpoint lazyUntilClose (s : string) (captured : list ascii) : option string :=
  match dropPrefix "</title>" s with
  | Some _ => Some (string_of_list_ascii (rev captured))
  | None =>
      match s with
      | EmptyString => None
      | String c rest =>
          if isLineTerminator c then None else lazyUntilClose rest (c :: captured)
      end
  end.

(** [content.match(/<title>(.*?)<\/title>/)]: the capture of the leftmost match. *)
Fixpoint matchTitle (s : string) : option string :=
  let here :=
    match dropPrefix "<title>" s with
    | Some rest => lazyUntilClose rest []
    | None => None
    end in
  match here with
  | Some title => Some title
  | None =>
      match s with
      | EmptyString => None
      | String _ rest => matchTitle rest
      end
  end.

Definition last (parts : list string) : string := List.last parts EmptyString.

Definition isScriptExtension (extension : string) : bool :=
  existsb (String.eqb extension) ["ts"; "tsx"; "js"; "jsx"]%string.

(** [s.split(':')[1].trim()] on a symbol label. *)
Definition labelName (label : string) : string :=
  JsString.trim (nth 1 (JsString.split ":" label) EmptyString).

Definition parseSymbols (content extension : string) : list string * string :=
  if isScriptExtension extension then
    let functions :=
      map (fun m => ("Function: " ++ m)%string) (matchAll (matchKeyword "function") content) in
    let variables :=
      map (fun m => ("Var: " ++ m)%string) (matchAll matchBinding content) in
    let classes :=
      map (fun m => ("Class: " ++ m)%string) (matchAll (matchKeyword "class") content) in
    let symbols := functions ++ variables ++ classes in
    (symbols,
     ("Contains " ++ JsString.ofNat (List.length symbols) ++ " definitions including "
      ++ JsString.join ", " (map labelName (firstn 3 symbols)) ++ "...")%string)
  else if String.eqb extension "py" then
    let functions :=
      map (fun m => ("Function: " ++ m)%string) (matchAll (matchKeyword "def") content) in
    let classes :=
      map (fun m => ("Class: " ++ m)%string) (matchAll (matchKeyword "class") content) in
    let symbols := functions ++ classes in
    (symbols,
     ("Python module with " ++ JsString.ofNat (List.length symbols) ++ " definitions.")%string)
  else if String.eqb extension "html" then
    match matchTitle content with
    | Some title =>
        ([("Page Title: " ++ title)%string], ("HTML Page: " ++ title)%string)
    | None => ([], "HTML Document"%string)
    end
  else ([], "File contains logic."%string).

(** [indexFile(path, content)], at time [now] ([Date.now()]). *)
Definition indexFile (now : nat) (index : Index) (path content : string) : Index :=
  if JsString.includes path "node_modules" || JsString.startsWith path "." then index
  else
    let popped := last (JsString.split "." path) in
    let extension := popped in
    let (symbols, summary) := parseSymbols content extension in
    Table.set index path
      {| path := path;
         symbols := symbols;
         summary := summary;
         contentSnippet := JsString.collapseSpaces (JsString.slice0 300 content);
         lastModified := now |}.

(** [removeFile(path)] *)
Definition removeFile (index : Index) (path : string) : Index :=
  Table.remove index path.

Record Scored : Type := { resultPath : string; score : nat; reason : string }.

(** The callback of [this.index.forEach] in [search]. *)
Definition scoreEntry (query : string) (terms : list string) (entry : IndexEntry)
  : option Scored :=
  let pathHit := JsString.includes (JsString.toLowerCase (path entry))
                   (JsString.toLowerCase query) in
  let matchedSymbols :=
    filter (fun sym =>
              existsb (fun t => JsString.includes (JsString.toLowerCase sym) t) terms)
      (symbols entry) in
  let snippetHit :=
    existsb (fun t => JsString.includes (JsString.toLowerCase (contentSnippet entry)) t)
      terms in
  let score :=
    ((if pathHit then 10 else 0) + 5 * List.length matchedSymbols
     + (if snippetHit then 1 else 0))%nat in
  let reasons :=
    (if pathHit then ["Filename match"%string] else [])
    ++ map (fun sym => ("Symbol match: " ++ sym)%string) matchedSymbols in
  if (0 <? score)%nat then
    Some {| resultPath := path entry;
            score := score;
            reason := ("[" ++ JsString.join ", " (firstn 2 reasons) ++ "] "
                       ++ summary entry)%string |}
  else None.

(** [results.sort((a, b) => b.score - a.score)]: a stable sort, highest score
    first.  [insertByScore] places a result that came before all of [sorted]. *)
Fixpoint insertByScore (r : Scored) (sorted : list Scored) : list Scored :=
  match sorted with
  | [] => [r]
  | head :: tail =>
      if (score head <=? score r)%nat then r :: sorted
      else head :: insertByScore r tail
  end.

Definition sortByScore (results : list Scored) : list Scored :=
  fold_right insertByScore [] results.

(** The results of [search] before they are rendered: scored, sorted, and cut
    to the first ten. *)
Definition ranked (index : Index) (query : string) : list Scored :=
  let terms := JsString.splitSpaces (JsString.toLowerCase query) in
  let results :=
    flat_map (fun entry =>
                match scoreEntry query terms entry with
                | Some r => [r]
                | None => []
                end)
      (Table.values index) in
  firstn 10 (sortByScore results).

Definition render (r : Scored) : string :=
  ("FILE: " ++ resultPath r ++ " | RELEVANCE: " ++ reason r)%string.

Definition search (index : Index) (query : string) : list string :=
  map render (ranked index query).

End Knowledge.

(* --------------------------------------------------------------------- *)
(** ** VirtualFileSystem: [FileSystemService] (fileSystem.ts) *)

Module FileSystem.

(** [MemoryEntry], [MemoryFile], [MemoryDirectory].  The same tree shape is
    used for the host directory behind the native handles. *)
#[warnings="-register-all"]
Inductive MemoryEntry : Type :=
| MemoryFile (name : string) (content : string)
| MemoryDirectory (name : string) (children : list (string * MemoryEntry)).

Definition Children : Type := list (string * MemoryEntry).

Inductive Kind : Type := file | directory.

Definition entryName (entry : MemoryEntry) : string :=
  match entry with
  | MemoryFile name _ => name
  | MemoryDirectory name _ => name
  end.

Definition entryKind (entry : MemoryEntry) : Kind :=
  match entry with
  | MemoryFile _ _ => file
  | MemoryDirectory _ _ => directory
  end.

Inductive Backend : Type := native | memory.

Inductive ChangeType : Type := write | delete.

(** The arguments of one call of [notify]. *)
Record Notification : Type := {
  changeType : ChangeType;
  changePath : string;
  changeContent : option string
}.

(** The state of the services.  [rootHandle] is the host directory picked by
    the user ([None] is [null]); [memoryRoot] holds the children of the memory
    root directory; [index] is the map of the code index, whose constructor
    subscribes it to the file system when the modules load; [notified] records
    every call of [notify], oldest first; [clock] is what [Date.now()] reads. *)
Record World : Type := {
  provider : Backend;
  rootHandle : option Children;
  memoryRoot : Children;
  index : Knowledge.Index;
  notified : list Notification;
  clock : nat
}.

(** An effectful operation: it returns or throws, and leaves a world. *)
Definition Action (A : Type) : Type := World -> Completion A * World.

Definition ret {A : Type} (a : A) : Action A := fun w => (Normal a, w).

Definition throw {A : Type} (e : JsError) : Action A := fun w => (Throw e, w).

Definition bind {A B : Type} (m : Action A) (k : A -> Action B) : Action B :=
  fun w =>
    match m w with
    | (Normal a, w') => k a w'
    | (Throw e, w') => (Throw e, w')
    end.

(** [path.split('/').filter(p => p !== '.' && p !== '')] *)
Definition normalize (path : string) : list string :=
  filter (fun p => negb (String.eqb p ".") && negb (String.eqb p ""))
    (JsString.split "/" path).

(** [parts.pop()]: the removed last element ([None] is [undefined]) and what
    is left of [parts]. *)
Definition pop (parts : list string) : option string * list string :=
  match parts with
  | [] => (None, [])
  | _ :: _ => (Some (List.last parts EmptyString), removelast parts)
  end.

(** The listener registered by the constructor of [KnowledgeService]. *)
Definition knowledgeListener (now : nat) (n : Notification) (index : Knowledge.Index)
  : Knowledge.Index :=
  match changeType n with
  | delete => Knowledge.removeFile index (changePath n)
  | write =>
      match changeContent n with
      | Some content =>
          if (String.length content =? 0)%nat then index
          else Knowledge.indexFile now index (changePath n) content
      | None => index
      end
  end.

(** [notify(type, path, content)]: every listener is called before it returns. *)
Definition notify (n : Notification) (w : World) : World :=
  {| provider := provider w;
     rootHandle := rootHandle w;
     memoryRoot := memoryRoot w;
     index := knowledgeListener (clock w) n (index w);
     notified := notified w ++ [n];
     clock := clock w |}.

Definition withMemoryRoot (w : World) (root : Children) : World :=
  {| provider := provider w;
     rootHandle := rootHandle w;
     memoryRoot := root;
     index := index w;
     notified := notified w;
     clock := clock w |}.

Definition withRootHandle (w : World) (root : option Children) : World :=
  {| provider := provider w;
     rootHandle := root;
     memoryRoot := memoryRoot w;
     index := index w;
     notified := notified w;
     clock := clock w |}.

(** *** In-memory helpers *)

(** The loop of [getMemoryEntry]. *)
Fixpoint walk (parts : list string) (current : MemoryEntry) : option MemoryEntry :=
  match parts with
  | [] => Some current
  | part :: rest =>
      match current with
      | MemoryDirectory _ children =>
          match Table.get children part with
          | Some next => walk rest next
          | None => None
          end
      | MemoryFile _ _ => None
      end
  end.

Definition getMemoryEntry (w : World) (path : string) : option MemoryEntry :=
  walk (normalize path) (MemoryDirectory "root" (memoryRoot w)).

(** The loop of [ensureMemoryDir], from a directory with children [current].
    The directory reached is returned by reference in the source and then
    mutated by the caller; [finish] is that mutation.  A collision with a
    file of the tree is only met in a directory that existed before the
    call, so nothing has been created when the loop throws on it.  (A
    segment named like an inherited member of the object is another matter:
    see [JsMemory.ensureDirs].) *)
Fixpoint ensureDirs (parts : list string) (finish : Children -> Children)
  (current : Children) : Completion Children :=
  match parts with
  | [] => Normal (finish current)
  | part :: rest =>
      let current' :=
        match Table.get current part with
        | None => Table.set current part (MemoryDirectory part [])
        | Some _ => current
        end in
      match Table.get current' part with
      | Some (MemoryDirectory name children) =>
          (children' <- ensureDirs rest finish children ;;
           Normal (Table.set current' part (MemoryDirectory name children')))%js
      | Some (MemoryFile _ _) =>
          Throw (Error ("Path collision: " ++ part ++ " is a file."))
      | None => Throw (TypeError "Cannot read properties of undefined (reading 'kind')")
      end
  end.

Definition ensureMemoryDir (path : string) (finish : Children -> Children)
  (root : Children) : Completion Children :=
  ensureDirs (normalize path) finish root.

Definition memoryWriteFile (path content : string) : Action unit :=
  fun w =>
    match pop (normalize path) with
    | (None, _) => (Normal tt, w)
    | (Some fileName, parts) =>
        let dirPath := JsString.join "/" parts in
        match ensureMemoryDir dirPath
                (fun children => Table.set children fileName (MemoryFile fileName content))
                (memoryRoot w) with
        | Throw e => (Throw e, w)
        | Normal root' =>
            (Normal tt,
             notify {| changeType := write; changePath := path;
                       changeContent := Some content |}
               (withMemoryRoot w root'))
        end
    end.

(** The directory object reached along [parts], mutated in place by [change]. *)
Fixpoint modifyDir (parts : list string) (change : Children -> Children)
  (current : Children) : Children :=
  match parts with
  | [] => change current
  | part :: rest =>
      match Table.get current part with
      | Some (MemoryDirectory name children) =>
          Table.set current part (MemoryDirectory name (modifyDir rest change children))
      | _ => current
      end
  end.

(** *** The host directory behind the native handles

    [getDirectoryHandle], [getFileHandle] and [removeEntry] of the File System
    Access API, on a host that grants every permission: a missing entry is a
    [NotFoundError], an entry of the other kind a [TypeMismatchError], and the
    names [.] and [..], the empty name and a name with a slash are a
    [TypeError]. *)

Definition notFound : JsError :=
  DOMException "NotFoundError"
    "A requested file or directory could not be found at the time an operation was processed.".

Definition typeMismatch : JsError :=
  DOMException "TypeMismatchError"
    "The path supplied exists, but was not an entry of requested type.".

Definition nameNotAllowed : JsError := TypeError "Name is not allowed.".

Definition nullRoot : JsError :=
  TypeError "Cannot read properties of null (reading 'getDirectoryHandle')".

Definition validName (name : string) : bool :=
  negb (String.eqb name "") && negb (String.eqb name ".")
  && negb (String.eqb name "..") && negb (JsString.includes name "/").

(** The native branch of [writeFile] below a directory handle: the handles
    along [parts] are taken with [{ create: true }], then the file. *)
Fixpoint nativeWrite (parts : list string) (fileName content : string)
  (dir : Children) : Completion unit * Children :=
  match parts with
  | [] =>
      if validName fileName then
        match Table.get dir fileName with
        | Some (MemoryDirectory _ _) => (Throw typeMismatch, dir)
        | _ => (Normal tt, Table.set dir fileName (MemoryFile fileName content))
        end
      else (Throw nameNotAllowed, dir)
  | part :: rest =>
      if validName part then
        match Table.get dir part with
        | Some (MemoryFile _ _) => (Throw typeMismatch, dir)
        | Some (MemoryDirectory name sub) =>
            let (r, sub') := nativeWrite rest fileName content sub in
            (r, Table.set dir part (MemoryDirectory name sub'))
        | None =>
            let (r, sub') := nativeWrite rest fileName content [] in
            (r, Table.set dir part (MemoryDirectory part sub'))
        end
      else (Throw nameNotAllowed, dir)
  end.

(** [createDirectory] on the native backend. *)
Fixpoint nativeCreateDirs (parts : list string) (dir : Children)
  : Completion unit * Children :=
  match parts with
  | [] => (Normal tt, dir)
  | part :: rest =>
      if validName part then
        match Table.get dir part with
        | Some (MemoryFile _ _) => (Throw typeMismatch, dir)
        | Some (MemoryDirectory name sub) =>
            let (r, sub') := nativeCreateDirs rest sub in
            (r, Table.set dir part (MemoryDirectory name sub'))
        | None =>
            let (r, sub') := nativeCreateDirs rest [] in
            (r, Table.set dir part (MemoryDirectory part sub'))
        end
      else (Throw nameNotAllowed, dir)
  end.

(** The handles along [parts] taken without [create], then [finish] on the
    directory reached. *)
Fixpoint nativeWalk {A : Type} (parts : list string)
  (finish : Children -> Completion A * Children) (dir : Children)
  : Completion A * Children :=
  match parts with
  | [] => finish dir
  | part :: rest =>
      if validName part then
        match Table.get dir part with
        | Some (MemoryFile _ _) => (Throw typeMismatch, dir)
        | Some (MemoryDirectory name sub) =>
            let (r, sub') := nativeWalk rest finish sub in
            (r, Table.set dir part (MemoryDirectory name sub'))
        | None => (Throw notFound, dir)
        end
      else (Throw nameNotAllowed, dir)
  end.

(** [currentDir.getFileHandle(fileName)] followed by [getFile()] and [text()]. *)
Definition nativeFileText (fileName : string) (dir : Children)
  : Completion string * Children :=
  if validName fileName then
    match Table.get dir fileName with
    | Some (MemoryFile _ content) => (Normal content, dir)
    | Some (MemoryDirectory _ _) => (Throw typeMismatch, dir)
    | None => (Throw notFound, dir)
    end
  else (Throw nameNotAllowed, dir).

(** [currentDir.removeEntry(name, { recursive: true })] *)
Definition nativeRemoveEntry (name : string) (dir : Children)
  : Completion unit * Children :=
  if validName name then
    match Table.get dir name with
    | Some _ => (Normal tt, Table.remove dir name)
    | None => (Throw notFound, dir)
    end
  else (Throw nameNotAllowed, dir).

(** A name argument that is [undefined] reaches the host as the string
    [undefined]. *)
Definition hostName (popped : option string) : string :=
  match popped with
  | Some name => name
  | None => "undefined"
  end.

(** Runs a host operation from [this.rootHandle!]. *)
Definition onRootHandle {A : Type} (op : Children -> Completion A * Children)
  : Action A :=
  fun w =>
    match rootHandle w with
    | None => (Throw nullRoot, w)
    | Some root =>
        let (r, root') := op root in
        (r, withRootHandle w (Some root'))
    end.

(** *** File operations *)

Definition getFileHandleNative (path : string) : Action string :=
  match pop (normalize path) with
  | (None, _) => throw (Error "Invalid path")
  | (Some fileName, parts) => onRootHandle (nativeWalk parts (nativeFileText fileName))
  end.

Definition readFile (path : string) : Action string :=
  fun w =>
    match provider w with
    | memory =>
        match getMemoryEntry w path with
        | Some (MemoryFile _ content) => (Normal content, w)
        | _ => (Throw (Error ("File not found: " ++ path)), w)
        end
    | native => getFileHandleNative path w
    end.

(** [results[key] = text] on the plain object [results] of
    [readMultipleFiles]: the assignment of a string to [__proto__] reaches
    the setter of [Object.prototype], which ignores a value that is not an
    object, so that no property is created; under every other key the
    assignment creates or overwrites an own property. *)
Definition assignText (results : list (string * string)) (key text : string)
  : list (string * string) :=
  if String.eqb key "__proto__" then results else Table.set results key text.

(** [readMultipleFiles]: one entry per path, an error text where the read
    threw.  The result lists the own properties of [results]. *)
Fixpoint readMultipleFiles (paths : list string) (results : list (string * string))
  : Action (list (string * string)) :=
  match paths with
  | [] => ret results
  | p :: rest =>
      fun w =>
        match readFile p w with
        | (Normal content, w') => readMultipleFiles rest (assignText results p content) w'
        | (Throw e, w') =>
            readMultipleFiles rest
              (assignText results p ("Error: " ++ errorMessage e)%string) w'
        end
  end.

Definition writeFile (path content : string) : Action unit :=
  fun w =>
    match provider w with
    | memory => memoryWriteFile path content w
    | native =>
        let (popped, parts) := pop (normalize path) in
        bind (onRootHandle (nativeWrite parts (hostName popped) content))
          (fun _ w' =>
             (Normal tt,
              notify {| changeType := write; changePath := path;
                        changeContent := Some content |} w')) w
    end.

Definition createDirectory (path : string) : Action unit :=
  fun w =>
    match provider w with
    | memory =>
        match ensureMemoryDir path (fun children => children) (memoryRoot w) with
        | Normal root' => (Normal tt, withMemoryRoot w root')
        | Throw e => (Throw e, w)
        end
    | native => onRootHandle (nativeCreateDirs (normalize path)) w
    end.

Definition deleteEntry (path : string) : Action unit :=
  fun w =>
    match provider w with
    | memory =>
        match pop (normalize path) with
        | (None, _) => (Normal tt, w)
        | (Some name, parts) =>
            match getMemoryEntry w (JsString.join "/" parts) with
            | Some (MemoryDirectory _ _) =>
                let root' :=
                  modifyDir (normalize (JsString.join "/" parts))
                    (fun children => Table.remove children name) (memoryRoot w) in
                (Normal tt,
                 notify {| changeType := delete; changePath := path;
                           changeContent := None |}
                   (withMemoryRoot w root'))
            | _ => (Normal tt, w)
            end
        end
    | native =>
        let (popped, parts) := pop (normalize path) in
        bind (onRootHandle (nativeWalk parts (nativeRemoveEntry (hostName popped))))
          (fun _ w' =>
             (Normal tt,
              notify {| changeType := delete; changePath := path;
                        changeContent := None |} w')) w
    end.

(** [getRootHandle()]: the active root directory, if there is one. *)
Definition getRootHandle (w : World) : option MemoryEntry :=
  match provider w with
  | native => option_map (MemoryDirectory "") (rootHandle w)
  | memory => Some (MemoryDirectory "root" (memoryRoot w))
  end.

(** *** Tree traversal *)

#[warnings="-register-all"]
Inductive FileNode : Type :=
| Node (name : string) (kind : Kind) (path : string) (children : option (list FileNode)).

Definition nodeName (n : FileNode) : string := match n with Node name _ _ _ => name end.
Definition nodeKind (n : FileNode) : Kind := match n with Node _ kind _ _ => kind end.

Definition sameKind (a b : Kind) : bool :=
  match a, b with
  | file, file | directory, directory => true
  | _, _ => false
  end.

(** The comparator of [entries.sort] (a stable sort): directories first, then
    by name. *)
Definition nodeCompare (localeCompare : string -> string -> Z) (a b : FileNode) : Z :=
  if sameKind (nodeKind a) (nodeKind b) then localeCompare (nodeName a) (nodeName b)
  else match nodeKind a with directory => (-1)%Z | file => 1%Z end.

Fixpoint insertNode (localeCompare : string -> string -> Z) (n : FileNode)
  (sorted : list FileNode) : list FileNode :=
  match sorted with
  | [] => [n]
  | head :: tail =>
      if (nodeCompare localeCompare n head <=? 0)%Z then n :: sorted
      else head :: insertNode localeCompare n tail
  end.

Definition sortNodes (localeCompare : string -> string -> Z) (nodes : list FileNode)
  : list FileNode :=
  fold_right (insertNode localeCompare) [] nodes.

(** The directories [readDirectoryRecursive] does not descend into. *)
Definition heavyDirectories : list string :=
  ["node_modules"; ".git"; "dist"; "build"; ".next"]%string.

Definition childPath (path name : string) : string :=
  if (String.length path =? 0)%nat then name else (path ++ "/" ++ name)%string.

(** The name an entry is listed under: the [name] field of the entry on the
    memory backend, the name the handle is iterated under on the native one. *)
Definition listedName (backend : Backend) (key : string) (entry : MemoryEntry) : string :=
  match backend with
  | memory => entryName entry
  | native => key
  end.

(** [readDirectoryRecursive(dirHandle, path)]: the sorted entries of the
    directory, the children of each sub-directory filled in except below the
    heavy directories. *)
Fixpoint readDirectoryRecursive (localeCompare : string -> string -> Z)
  (backend : Backend) (dirHandle : MemoryEntry) (path : string) : list FileNode :=
  match dirHandle with
  | MemoryFile _ _ => []
  | MemoryDirectory _ children =>
      sortNodes localeCompare
        (map (fun item : string * MemoryEntry =>
                let (key, entry) := item in
                let currentPath := childPath path key in
                let name := listedName backend key entry in
                match entry with
                | MemoryFile _ _ => Node name file currentPath None
                | MemoryDirectory _ _ =>
                    Node name directory currentPath
                      (Some (if existsb (String.eqb name) heavyDirectories then []
                             else readDirectoryRecursive localeCompare backend entry
                                    currentPath))
                end)
           children)
  end.

(** The [traverse] closure of [searchFiles]; the results are those pushed to
    [results], in the order of the pushes.  A handle without children makes
    the listing of its items throw, and the closure returns. *)
Fixpoint traverse (backend : Backend) (lowerQuery : string) (dir : MemoryEntry)
  (path : string) : list string :=
  match dir with
  | MemoryFile _ _ => []
  | MemoryDirectory _ children =>
      flat_map (fun item : string * MemoryEntry =>
                  let (key, entry) := item in
                  let name := listedName backend key entry in
                  if String.eqb name "node_modules" || JsString.startsWith name "." then []
                  else
                    let currentPath := childPath path name in
                    match entry with
                    | MemoryFile _ _ =>
                        if JsString.includes (JsString.toLowerCase name) lowerQuery
                        then [("[NAME] " ++ currentPath)%string]
                        else []
                    | MemoryDirectory _ _ =>
                        traverse backend lowerQuery entry currentPath
                    end)
        children
  end.

Definition searchFiles (query : string) (rootPath : string) (w : World) : list string :=
  let lowerQuery := JsString.toLowerCase query in
  match getRootHandle w with
  | Some root => traverse (provider w) lowerQuery root rootPath
  | None => []
  end.

(** The state after the constructors of the two services have run. *)
Definition initialWorld : World :=
  {| provider := native; rootHandle := None; memoryRoot := [];
     index := []; notified := []; clock := 0 |}.

(** The text of the explanatory file: a heading, an empty line and two
    lines. *)
Definition fallbackReadme : string :=
  ("# In-Memory Workspace"
   ++ String JsonRecovery.LF
        (String JsonRecovery.LF "File access was blocked by the browser/iframe.")
   ++ String JsonRecovery.LF "You are working in a temporary sandboxed environment.")%string.

(** [setRoot()] when the directory picker is unavailable or refused: the
    fallback to a fresh memory workspace with its explanatory file. *)
Definition setRootFallback (w : World) : World :=
  snd (memoryWriteFile "README.md" fallbackReadme
         {| provider := memory; rootHandle := rootHandle w; memoryRoot := [];
            index := index w; notified := notified w; clock := clock w |}).

End FileSystem.

(* --------------------------------------------------------------------- *)
(** ** The collaborators outside the core *)

(** What the core reads from its host: [window.Babel] ([None] when the script
    has not loaded; [transform code filename] returns or throws), the
    collation of [localeCompare], the shell, preview and URL-fetch
    collaborators behind the last three tools, and whether the caller of
    [sendMessage] passes the optional callback [onToolEnd] (the chat of the
    application does, [sendCreativeMessage] passes [undefined]). *)
Record Host : Type := {
  Babel : option (string -> string -> Completion unit);
  localeCompare : string -> string -> Z;
  runTerminalCommand : string -> string;
  generatePreviewUrl : string -> Completion string;
  fetchContents : string -> Completion string;
  onToolEnd : bool
}.

(* --------------------------------------------------------------------- *)
(** ** [SyntaxService.validate] (syntaxService.ts) *)

Module Syntax.

(** [/\.(js|jsx|ts|tsx)$/.test(filename)] *)
Definition isScriptFile (filename : string) : bool :=
  existsb (JsString.endsWith filename) [".js"; ".jsx"; ".ts"; ".tsx"]%string.

(** [validate(code, filename)]: [None] is [null], [Some message] the message
    of the error Babel threw. *)
Definition validate (host : Host) (code filename : string) : option string :=
  if negb (isScriptFile filename) then None
  else
    match Babel host with
    | None => None
    | Some transform =>
        match transform code filename with
        | Normal _ => None
        | Throw e => Some (errorMessage e)
        end
    end.

End Syntax.

(* --------------------------------------------------------------------- *)
(** ** Tool execution boundary: [AIService.executeTool] (geminiService.ts) *)

Module Tools.
Import FileSystem.

(** A tool call: the tool name with the arguments its declaration requires.
    [path] of [listFiles] and [entryPoint] of [deployToPreview] may be left
    out; any other name is an [unknownTool]. *)
Inductive ToolCall : Type :=
| listFiles (path : option string)
| readFile (path : string)
| readMultipleFiles (paths : list string)
| writeFile (path content : string)
| createDirectory (path : string)
| deleteFile (path : string)
| searchFiles (query : string)
| searchCodebase (query : string)
| runTerminal (command : string)
| deployToPreview (entryPoint : option string)
| fetchUrl (url : string)
| unknownTool (name : string).

Definition toolName (call : ToolCall) : string :=
  match call with
  | listFiles _ => "listFiles"
  | readFile _ => "readFile"
  | readMultipleFiles _ => "readMultipleFiles"
  | writeFile _ _ => "writeFile"
  | createDirectory _ => "createDirectory"
  | deleteFile _ => "deleteFile"
  | searchFiles _ => "searchFiles"
  | searchCodebase _ => "searchCodebase"
  | runTerminal _ => "runTerminal"
  | deployToPreview _ => "deployToPreview"
  | fetchUrl _ => "fetchUrl"
  | unknownTool name => name
  end.

(** What a tool hands back to the model. *)
Inductive ToolResult : Type :=
| Listing (nodes : list FileNode)
| Text (content : string)
| Texts (results : list (string * string))
| Lines (lines : list string)
| Success
| PreviewUrl (url : string)
| Content (contents : string)
| ErrorResult (error : string).

(** The [switch] of [executeTool], inside its [try]. *)
Definition dispatch (host : Host) (call : ToolCall) : Action ToolResult :=
  match call with
  | listFiles path =>
      fun w =>
        (Normal
           (Listing
              match getRootHandle w with
              | Some root =>
                  readDirectoryRecursive (localeCompare host) (provider w) root
                    match path with Some p => p | None => EmptyString end
              | None => []
              end), w)
  | readFile path => bind (FileSystem.readFile path) (fun content => ret (Text content))
  | readMultipleFiles paths =>
      bind (FileSystem.readMultipleFiles paths []) (fun results => ret (Texts results))
  | writeFile path content =>
      let syntaxError := Syntax.validate host content path in
      match syntaxError with
      | Some message =>
          if (String.length message =? 0)%nat
          then bind (FileSystem.writeFile path content) (fun _ => ret Success)
          else ret (ErrorResult ("Syntax Error: " ++ message))
      | None => bind (FileSystem.writeFile path content) (fun _ => ret Success)
      end
  | createDirectory path => bind (FileSystem.createDirectory path) (fun _ => ret Success)
  | deleteFile path => bind (FileSystem.deleteEntry path) (fun _ => ret Success)
  | searchFiles query => fun w => (Normal (Lines (FileSystem.searchFiles query "" w)), w)
  | searchCodebase query => fun w => (Normal (Lines (Knowledge.search (index w) query)), w)
  | runTerminal command => ret (Text (runTerminalCommand host command))
  | deployToPreview entryPoint =>
      fun w =>
        match generatePreviewUrl host
                match entryPoint with
                | Some e => if (String.length e =? 0)%nat then "index.html"%string else e
                | None => "index.html"%string
                end with
        | Normal url => (Normal (PreviewUrl url), w)
        | Throw e => (Throw e, w)
        end
  | fetchUrl url =>
      fun w =>
        match fetchContents host url with
        | Normal contents => (Normal (Content contents), w)
        | Throw e => (Throw e, w)
        end
  | unknownTool name => ret (ErrorResult ("Unknown tool: " ++ name))
  end.

(** [executeTool(name, args)]: whatever is thrown becomes an [{ error }]. *)
Definition executeTool (host : Host) (call : ToolCall) (w : World) : ToolResult * World :=
  match dispatch host call w with
  | (Normal result, w') => (result, w')
  | (Throw e, w') => (ErrorResult (errorMessage e), w')
  end.

End Tools.

(* --------------------------------------------------------------------- *)
(** ** AgentOrchestrator: [AIService.sendMessage] (geminiService.ts) *)

Module Agent.
Import FileSystem Tools.

Inductive AIProvider : Type :=
| google | groq | mistral | openrouter | sambanova | cerebras | deepseek
| pollinations | anthropic.

(** [['groq', 'mistral', ..., 'pollinations'].includes(provider)] *)
Definition isOpenAICompatible (provider : AIProvider) : bool :=
  match provider with
  | groq | mistral | openrouter | sambanova | cerebras | deepseek | pollinations => true
  | google | anthropic => false
  end.

(** A requested call with the identifier the provider gave it. *)
Record FunctionCall : Type := { callId : string; requested : ToolCall }.

(** The part of a provider response the loop reads: [response.text] and
    [response.functionCalls] of the native chat, [msg.content] and
    [msg.tool_calls] of a chat completion. *)
Record Response : Type := {
  responseText : option string;
  functionCalls : list FunctionCall
}.

(** What comes back from one request: a response, a non-2xx status with its
    body, or a transport error. *)
Inductive Reply : Type :=
| Answered (response : Response)
| Refused (body : string)
| Unreachable (e : JsError).

(** The provider of a run answers its requests in order: [replyTo n] is the
    reply to request number [n].  The loop reads nothing else of a request's
    effect, so the content sent (system instruction, pruned history, tool
    results) is left out. *)
Definition Provider : Type := nat -> Reply.

(** The cancellation signal: [Some k] fires when the [k]-th tool dispatch
    begins ([Some 0]: it has fired before the run starts), [None] never. *)
Definition Signal : Type := option nat.

Inductive Event : Type :=
| ProviderCall (request : nat)
| ToolStart (call : ToolCall)
| ToolEnd (call : ToolCall) (result : ToolResult).

(** The state of a run: the world the tools act on, the number of provider
    requests issued, of tool dispatches begun and of tool round-trips made,
    and the events so far (oldest first). *)
Record Run : Type := {
  world : World;
  providerCalls : nat;
  toolsStarted : nat;
  rounds : nat;
  events : list Event
}.

Definition startOfRun (w : World) : Run :=
  {| world := w; providerCalls := 0; toolsStarted := 0; rounds := 0; events := [] |}.

(** [signal.aborted] *)
Definition aborted (signal : Signal) (run : Run) : bool :=
  match signal with
  | Some k => (k <=? toolsStarted run)%nat
  | None => false
  end.

Definition issueRequest (run : Run) : Run :=
  {| world := world run;
     providerCalls := S (providerCalls run);
     toolsStarted := toolsStarted run;
     rounds := rounds run;
     events := events run ++ [ProviderCall (providerCalls run)] |}.

(** [chat.sendMessage({ message })] of the native chat object: it takes no
    signal. *)
Definition chatSendMessage (remote : Provider) (run : Run) : Completion Response * Run :=
  match remote (providerCalls run) with
  | Answered response => (Normal response, issueRequest run)
  | Refused body => (Throw (Error body), issueRequest run)
  | Unreachable e => (Throw e, issueRequest run)
  end.

Definition abortError : JsError :=
  DOMException "AbortError" "signal is aborted without reason".

(** [fetch(endpoint, { ..., signal })] with the check of [res.ok] after it: a
    fired signal rejects the fetch before anything is sent. *)
Definition fetchCompletion (remote : Provider) (signal : Signal) (run : Run)
  : Completion Response * Run :=
  if aborted signal run then (Throw abortError, run)
  else
    match remote (providerCalls run) with
    | Answered response => (Normal response, issueRequest run)
    | Refused body => (Throw (Error ("Provider Error: " ++ body)), issueRequest run)
    | Unreachable e => (Throw e, issueRequest run)
    end.

(** One pass of [for (const call of ...)]: [onToolStart], [executeTool],
    [if (onToolEnd) onToolEnd(...)], and the result kept under the call
    identifier.  The log records the calls of the two callbacks. *)
Definition runTool (host : Host) (fc : FunctionCall) (run : Run)
  : (string * ToolResult) * Run :=
  let (result, w') := executeTool host (requested fc) (world run) in
  ((callId fc, result),
   {| world := w';
      providerCalls := providerCalls run;
      toolsStarted := S (toolsStarted run);
      rounds := rounds run;
      events := events run
                ++ ToolStart (requested fc)
                   :: (if onToolEnd host then [ToolEnd (requested fc) result] else []) |}).

Fixpoint runTools (host : Host) (calls : list FunctionCall) (run : Run)
  : list (string * ToolResult) * Run :=
  match calls with
  | [] => ([], run)
  | fc :: rest =>
      let (response, run1) := runTool host fc run in
      let (responses, run2) := runTools host rest run1 in
      (response :: responses, run2)
  end.

Definition endRound (run : Run) : Run :=
  {| world := world run;
     providerCalls := providerCalls run;
     toolsStarted := toolsStarted run;
     rounds := S (rounds run);
     events := events run |}.

(** [value || ""] *)
Definition orEmpty (value : option string) : string :=
  match value with
  | Some s => s
  | None => EmptyString
  end.

Definition maxTurns : nat := 5.

(** The [while (response.functionCalls && response.functionCalls.length > 0
    && turn < maxTurns)] loop of the Google branch, with [remaining] for
    [maxTurns - turn], and the [return response.text || ""] after it. *)
Fixpoint googleLoop (host : Host) (remote : Provider) (remaining : nat)
  (response : Response) (run : Run) : Completion string * Run :=
  match functionCalls response, remaining with
  | _ :: _, S remaining' =>
      let (functionResponses, run1) := runTools host (functionCalls response) run in
      match chatSendMessage remote (endRound run1) with
      | (Normal response', run2) => googleLoop host remote remaining' response' run2
      | (Throw e, run2) => (Throw e, run2)
      end
  | _, _ => (Normal (orEmpty (responseText response)), run)
  end.

(** The [while (turn < maxTurns)] loop of the OpenAI-compatible branch, with
    [remaining] for [maxTurns - turn], and the [return "Max turns reached"]
    after it. *)
Fixpoint openAILoop (host : Host) (remote : Provider) (signal : Signal)
  (remaining : nat) (run : Run) : Completion string * Run :=
  match remaining with
  | O => (Normal "Max turns reached"%string, run)
  | S remaining' =>
      match fetchCompletion remote signal run with
      | (Throw e, run1) => (Throw e, run1)
      | (Normal msg, run1) =>
          match functionCalls msg with
          | _ :: _ =>
              let (toolMessages, run2) := runTools host (functionCalls msg) run1 in
              openAILoop host remote signal remaining' (endRound run2)
          | [] => (Normal (orEmpty (responseText msg)), run1)
          end
      end
  end.

Definition sendMessage (host : Host) (remote : Provider) (provider : AIProvider)
  (signal : Signal) (run : Run) : Completion string * Run :=
  match provider with
  | google =>
      match chatSendMessage remote run with
      | (Normal response, run1) => googleLoop host remote maxTurns response run1
      | (Throw e, run1) => (Throw e, run1)
      end
  | _ =>
      if isOpenAICompatible provider
      then openAILoop host remote signal maxTurns run
      else (Normal "Provider not implemented yet."%string, run)
  end.

(** The terminal states of the orchestration state machine. *)
Inductive Terminal : Type :=
| Done (result : string)
| Aborted
| Failed (e : JsError).

Definition terminal (outcome : Completion string) : Terminal :=
  match outcome with
  | Normal result => Done result
  | Throw (DOMException name message) =>
      if String.eqb name "AbortError" then Aborted
      else Failed (DOMException name message)
  | Throw e => Failed e
  end.

(** The provider requests issued after the first tool dispatch began. *)
Fixpoint requestsAfterFirstTool (events : list Event) (toolSeen : bool) : nat :=
  match events with
  | [] => 0
  | ProviderCall _ :: rest =>
      (if toolSeen then 1 else 0) + requestsAfterFirstTool rest toolSeen
  | ToolStart _ :: rest => requestsAfterFirstTool rest true
  | ToolEnd _ _ :: rest => requestsAfterFirstTool rest toolSeen
  end.

(** A provider that asks for at least one tool call in every response. *)
Definition alwaysRequestsTools (remote : Provider) : Prop :=
  forall n, exists response,
      remote n = Answered response /\ functionCalls response <> [].

(** *** Sample collaborators *)

Definition sampleHost : Host :=
  {| Babel := Some (fun code _ =>
                      if JsString.includes code "@@"
                      then Throw (SyntaxError "unknown: Unexpected token (1:0)")
                      else Normal tt);
     localeCompare := fun a b => if String.leb a b then (-1)%Z else 1%Z;
     runTerminalCommand := fun _ => "Command executed successfully (No output)."%string;
     generatePreviewUrl := fun entry => Normal ("blob:preview/" ++ entry)%string;
     fetchContents := fun _ => Throw (TypeError "Failed to fetch");
     onToolEnd := true |}.

(** A provider that asks for another tool call in every response. *)
Definition insatiable : Provider :=
  fun _ =>
    Answered {| responseText := None;
                functionCalls := [ {| callId := "call_0";
                                      requested := searchCodebase "parser" |} ] |}.

(** A provider that asks for one file read and then answers. *)
Definition oneToolThenAnswer : Provider :=
  fun n =>
    match n with
    | O => Answered {| responseText := None;
                       functionCalls := [ {| callId := "call_0";
                                             requested := readFile "README.md" |} ] |}
    | S _ => Answered {| responseText := Some "done"%string; functionCalls := [] |}
    end.

End Agent.

(* --------------------------------------------------------------------- *)
(** ** Specification-side notions for the file system and the index *)

Module FsSpec.
Import FileSystem.

(** A string without the separator character. *)
Fixpoint sepFree (sep : ascii) (s : string) : bool :=
  match s with
  | EmptyString => true
  | String c rest => negb (Ascii.eqb c sep) && sepFree sep rest
  end.

(** A segment of a normalized path: not empty, not [.], without a slash. *)
Definition isSegment (p : string) : bool :=
  negb (String.eqb p ".") && negb (String.eqb p "") && sepFree "/" p.

(** The root directory object of the active backend. *)
Definition memoryRootEntry (w : World) : MemoryEntry :=
  MemoryDirectory "root" (memoryRoot w).

(** Every entry of the index is stored under its own path. *)
Definition wellKeyed (index : Knowledge.Index) : Prop :=
  Forall (fun item => Knowledge.path (snd item) = fst item) index.

(** [searchFiles] does not look at or below an entry with such a name. *)
Definition skippedBySearch (name : string) : bool :=
  String.eqb name "node_modules" || JsString.startsWith name ".".

(** [Visible backend dir path p name entry]: [entry], listed under [name], is
    met at path [p] by a walk that starts in directory [dir] (which has path
    [path]) and never enters or stops at a skipped name. *)
Inductive Visible (backend : Backend)
  : MemoryEntry -> string -> string -> string -> MemoryEntry -> Prop :=
| visible_here dirName children path key entry :
    In (key, entry) children ->
    skippedBySearch (listedName backend key entry) = false ->
    Visible backend (MemoryDirectory dirName children) path
      (childPath path (listedName backend key entry))
      (listedName backend key entry) entry
| visible_below dirName children path key subName sub p name entry :
    In (key, MemoryDirectory subName sub) children ->
    skippedBySearch (listedName backend key (MemoryDirectory subName sub)) = false ->
    Visible backend (MemoryDirectory subName sub)
      (childPath path (listedName backend key (MemoryDirectory subName sub)))
      p name entry ->
    Visible backend (MemoryDirectory dirName children) path p name entry.

(** Sample workspaces. *)
Definition memoryWorkspace : World := setRootFallback initialWorld.

Definition nativeWorkspace : World :=
  {| provider := native;
     rootHandle := Some [("README.md"%string, MemoryFile "README.md" "# Project")];
     memoryRoot := []; index := []; notified := []; clock := 0 |}.

(** A memory workspace with a source file, a build output and a dot file. *)
Definition builtWorkspace : World :=
  snd (writeFile ".env" "KEY=1"
         (snd (writeFile "dist/app.js" "var app = 1"
                 (snd (writeFile "src/App.tsx" "function App() {}" memoryWorkspace))))).

End FsSpec.

(* --------------------------------------------------------------------- *)
(** ** Specification-side notions for the effect of the file operations *)

Module FsTree.
Import FileSystem.

(** Names are checked by the host of the native backend only. *)
Definition nameAccepted (backend : Backend) (name : string) : bool :=
  match backend with
  | memory => true
  | native => validName name
  end.

(** The entry reached from [current] along [parts]. *)
Fixpoint reach (backend : Backend) (parts : list string) (current : MemoryEntry)
  : option MemoryEntry :=
  match parts with
  | [] => Some current
  | part :: rest =>
      match current with
      | MemoryDirectory _ children =>
          if nameAccepted backend part then
            match Table.get children part with
            | Some next => reach backend rest next
            | None => None
            end
          else None
      | MemoryFile _ _ => None
      end
  end.

(** The tree of the active backend. *)
Definition activeTree (w : World) : option Children :=
  match provider w with
  | memory => Some (memoryRoot w)
  | native => rootHandle w
  end.

(** The content of the file at [path], if there is a file. *)
Definition fileAt (w : World) (path : string) : option string :=
  match activeTree w with
  | Some root =>
      match reach (provider w) (normalize path) (MemoryDirectory "" root) with
      | Some (MemoryFile _ content) => Some content
      | _ => None
      end
  | None => None
  end.

(** The tree after the directories along [parts] have been entered, created
    where missing, and the directory reached has been changed by [finish];
    a file in the way leaves the tree as it is. *)
Fixpoint graft (parts : list string) (finish : Children -> Children) (dir : Children)
  : Children :=
  match parts with
  | [] => finish dir
  | part :: rest =>
      match Table.get dir part with
      | Some (MemoryDirectory name sub) =>
          Table.set dir part (MemoryDirectory name (graft rest finish sub))
      | Some (MemoryFile _ _) => dir
      | None => Table.set dir part (MemoryDirectory part (graft rest finish []))
      end
  end.

(** What [readMultipleFiles] stores for one path: the content read, or the
    text of the error thrown. *)
Definition readOrError (w : World) (path : string) : string :=
  match fst (readFile path w) with
  | Normal content => content
  | Throw e => ("Error: " ++ errorMessage e)%string
  end.

(** A workspace with a nested source tree, on each backend. *)
Definition nestedMemory : World :=
  snd (writeFile "src/lib/util.ts" "export const one = 1"
         (snd (writeFile "src/App.tsx" "function App() {}" FsSpec.memoryWorkspace))).

Definition nestedNative : World :=
  snd (writeFile "src/lib/util.ts" "export const one = 1"
         (snd (writeFile "src/App.tsx" "function App() {}" FsSpec.nativeWorkspace))).

End FsTree.

(* --------------------------------------------------------------------- *)
(** ** The memory backend on plain objects

    The tables of [FileSystem] hold the own properties of an object and read
    it as a map.  The source keeps the children of a memory directory in a
    plain object ([children: {}]), so that a lookup also sees what the object
    inherits, the key [__proto__] reads and replaces the prototype, and
    [delete] removes own properties only; and it mutates the tree in place,
    so that what a function has done stays done when it throws.  This module
    runs the memory branches on such objects.  The notifications and the
    index are those of [FileSystem] and are left out here. *)

Module JsMemory.
Import FileSystem.

(** [MemoryEntry] with the object behind [children]: [own] lists the own
    properties in insertion order, [proto] is the prototype, [None] for
    [Object.prototype] and [Some (name, content)] for the file object
    [{ name, kind: 'file', content }] that an assignment
    [children['__proto__'] = file] has put in its place.  Only a file is ever
    assigned under that key: [ensureMemoryDir] assigns a directory only where
    the lookup is falsy, which a lookup of [__proto__] never is. *)
#[warnings="-register-all"]
Inductive Entry : Type :=
| File (name : string) (content : string)
| Directory (name : string) (own : list (string * Entry))
    (proto : option (string * string)).

(** The object [children] of a directory. *)
Definition Properties : Type :=
  (list (string * Entry) * option (string * string))%type.

(** What [children[key]] evaluates to: an entry of the tree; another truthy
    value (a function, a non-empty string, [Object.prototype]), which has no
    [kind]; or a falsy one ([undefined], the empty string). *)
Inductive Value : Type :=
| IsEntry (entry : Entry)
| Truthy
| Falsy.

(** The properties of [Object.prototype] besides the accessor [__proto__]. *)
Definition objectPrototypeMembers : list string :=
  ["constructor"; "toString"; "toLocaleString"; "valueOf"; "hasOwnProperty";
   "isPrototypeOf"; "propertyIsEnumerable"; "__defineGetter__"; "__defineSetter__";
   "__lookupGetter__"; "__lookupSetter__"]%string.

Definition isObjectPrototypeMember (key : string) : bool :=
  existsb (String.eqb key) objectPrototypeMembers.

Definition ofText (text : string) : Value :=
  if (String.length text =? 0)%nat then Falsy else Truthy.

(** [children[key]]: the getter of [__proto__] returns the prototype; any
    other key is looked up among the own properties, then in the prototype
    (the fields of the file object, when one has been put there), then in
    [Object.prototype]. *)
Definition getProperty (children : Properties) (key : string) : Value :=
  let (own, proto) := children in
  if String.eqb key "__proto__" then
    match proto with
    | Some (name, content) => IsEntry (File name content)
    | None => Truthy
    end
  else
    match Table.get own key with
    | Some entry => IsEntry entry
    | None =>
        match proto with
        | Some (name, content) =>
            if String.eqb key "name" then ofText name
            else if String.eqb key "kind" then Truthy
            else if String.eqb key "content" then ofText content
            else if isObjectPrototypeMember key then Truthy else Falsy
        | None => if isObjectPrototypeMember key then Truthy else Falsy
        end
    end.

(** [children[fileName] = { name: fileName, kind: 'file', content }]: under
    [__proto__] the setter makes the file object the prototype; under any
    other key an own property is created or overwritten. *)
Definition setFile (children : Properties) (fileName content : string) : Properties :=
  let (own, proto) := children in
  if String.eqb fileName "__proto__" then (own, Some (fileName, content))
  else (Table.set own fileName (File fileName content), proto).

(** [delete children[name]]: an own property of that name is removed; the
    prototype and what is inherited from it stay. *)
Definition deleteProperty (children : Properties) (name : string) : Properties :=
  let (own, proto) := children in (Table.remove own name, proto).

(** The loop of [getMemoryEntry]; [None] is [null]. *)
Fixpoint walk (parts : list string) (current : Value) : option Value :=
  match parts with
  | [] => Some current
  | part :: rest =>
      match current with
      | IsEntry (Directory _ own proto) =>
          match getProperty (own, proto) part with
          | Falsy => None
          | next => walk rest next
          end
      | _ => None
      end
  end.

Definition rootEntry (root : Properties) : Value :=
  IsEntry (Directory "root" (fst root) (snd root)).

Definition getMemoryEntry (root : Properties) (path : string) : option Value :=
  walk (normalize path) (rootEntry root).

(** The memory branch of [readFile]. *)
Definition readFile (path : string) (root : Properties) : Completion string :=
  match getMemoryEntry root path with
  | Some (IsEntry (File _ content)) => Normal content
  | _ => Throw (Error ("File not found: " ++ path))
  end.

(** The loop of [ensureMemoryDir], from the object [children], with the tree
    it leaves behind: a missing directory is stored in its parent before the
    loop goes on and stays there when a later segment throws.  [finish] is
    what the caller does to the directory returned. *)
Fixpoint ensureDirs (parts : list string) (finish : Properties -> Properties)
  (children : Properties) : Completion unit * Properties :=
  match parts with
  | [] => (Normal tt, finish children)
  | part :: rest =>
      let created :=
        match getProperty children part with
        | Falsy => (Table.set (fst children) part (Directory part [] None), snd children)
        | _ => children
        end in
      match getProperty created part with
      | IsEntry (Directory name own proto) =>
          let (r, sub) := ensureDirs rest finish (own, proto) in
          (r, (Table.set (fst created) part (Directory name (fst sub) (snd sub)),
               snd created))
      | _ => (Throw (Error ("Path collision: " ++ part ++ " is a file.")), created)
      end
  end.

Definition ensureMemoryDir (path : string) (finish : Properties -> Properties)
  (root : Properties) : Completion unit * Properties :=
  ensureDirs (normalize path) finish root.

Definition memoryWriteFile (path content : string) (root : Properties)
  : Completion unit * Properties :=
  match pop (normalize path) with
  | (None, _) => (Normal tt, root)
  | (Some fileName, parts) =>
      ensureMemoryDir (JsString.join "/" parts)
        (fun children => setFile children fileName content) root
  end.

(** The memory branch of [createDirectory]. *)
Definition createDirectory (path : string) (root : Properties)
  : Completion unit * Properties :=
  ensureMemoryDir path (fun children => children) root.

(** The directory object reached along [parts], mutated in place by [change];
    nothing is done when the walk does not end on a directory. *)
Fixpoint modifyDir (parts : list string) (change : Properties -> Properties)
  (children : Properties) : Properties :=
  match parts with
  | [] => change children
  | part :: rest =>
      match getProperty children part with
      | IsEntry (Directory name own proto) =>
          let sub := modifyDir rest change (own, proto) in
          (Table.set (fst children) part (Directory name (fst sub) (snd sub)),
           snd children)
      | _ => children
      end
  end.

(** The memory branch of [deleteEntry], which never throws. *)
Definition deleteEntry (path : string) (root : Properties) : Properties :=
  match pop (normalize path) with
  | (None, _) => root
  | (Some name, parts) =>
      modifyDir (normalize (JsString.join "/" parts))
        (fun children => deleteProperty children name) root
  end.






End JsMemory.

(* --------------------------------------------------------------------- *)
(** ** Specification-side notions for the index across tool calls *)

Module IndexSpec.
Import FileSystem.

(** The index holds each path once, under its own key. *)
Definition onePerPath (index : Knowledge.Index) : Prop :=
  FsSpec.wellKeyed index /\ NoDup (Table.keys index).

(** The state of the services after the tool calls [calls], oldest first. *)
Definition afterCalls (host : Host) (calls : list Tools.ToolCall) (w : World) : World :=
  fold_left (fun w' call => snd (Tools.executeTool host call w')) calls w.

End IndexSpec.

(* --------------------------------------------------------------------- *)
(** ** Specification-side notions for the runs of the orchestrator *)

Module AgentSpec.
Import FileSystem Tools Agent.

(** The tools that change the file system. *)
Definition mutatingTools : list string :=
  ["writeFile"; "createDirectory"; "deleteFile"]%string.

(** Every tool call the provider asks for is one of the other tools. *)
Definition requestsOnlyReads (remote : Provider) : Prop :=
  forall n response fc,
    remote n = Answered response ->
    In fc (functionCalls response) ->
    ~ In (toolName (requested fc)) mutatingTools.

(** A log in which every tool start is followed at once by the end of the
    same call. *)
Inductive Paired : list Event -> Prop :=
| paired_nil : Paired []
| paired_request n rest : Paired rest -> Paired (ProviderCall n :: rest)
| paired_tool call result rest :
    Paired rest -> Paired (ToolStart call :: ToolEnd call result :: rest).

Fixpoint toolStarts (events : list Event) : nat :=
  match events with
  | [] => 0
  | ToolStart _ :: rest => S (toolStarts rest)
  | _ :: rest => toolStarts rest
  end.

Fixpoint toolEnds (events : list Event) : nat :=
  match events with
  | [] => 0
  | ToolEnd _ _ :: rest => S (toolEnds rest)
  | _ :: rest => toolEnds rest
  end.

End AgentSpec.

(* ===================================================================== *)
(** * Part II. Lemmas and theorems                                         *)
(* ===================================================================== *)

Unset Implicit Arguments.

Section PrunerFacts.
Import ContextPruner.
Variable Msg : Type.
Variable JSON_stringify : Msg -> string.

#[local] Abbreviation size := (jsonLength JSON_stringify).
#[local] Abbreviation total := (totalLength JSON_stringify).
#[local] Abbreviation taken := (takenWhileFits JSON_stringify).
#[local] Abbreviation loop := (pruneLoop JSON_stringify).
#[local] Abbreviation prune := (pruneMessages JSON_stringify).

Lemma pruneLoop_taken maxChars toVisit currentChars keptMiddle :
  loop maxChars toVisit currentChars keptMiddle
  = rev (taken maxChars toVisit currentChars) ++ keptMiddle.
Proof.
  revert currentChars keptMiddle.
  induction toVisit as [|msg older IH]; intros c kept; simpl.
  - reflexivity.
  - destruct (c + size msg >? maxChars)%Z; simpl.
    + reflexivity.
    + rewrite IH, <- app_assoc. reflexivity.
Qed.

Lemma taken_prefix maxChars toVisit c :
  exists rest, toVisit = taken maxChars toVisit c ++ rest.
Proof.
  revert c. induction toVisit as [|msg older IH]; intros c; simpl.
  - exists []. reflexivity.
  - destruct (c + size msg >? maxChars)%Z.
    + exists (msg :: older). reflexivity.
    + destruct (IH (c + size msg)%Z) as [rest Hrest].
      exists rest. simpl. congruence.
Qed.

Lemma total_app a b : total (a ++ b) = (total a + total b)%Z.
Proof.
  induction a as [|m a IH]; simpl.
  - reflexivity.
  - unfold totalLength in *. simpl. rewrite IH. lia.
Qed.

Lemma total_rev a : total (rev a) = total a.
Proof.
  induction a as [|m a IH]; simpl.
  - reflexivity.
  - rewrite total_app, IH. unfold totalLength. simpl. lia.
Qed.

(** Every non-empty prefix of the taken messages kept the running total
    within the budget when its last message was included. *)
Lemma taken_within maxChars toVisit c pre post :
  taken maxChars toVisit c = pre ++ post ->
  pre <> [] ->
  (c + total pre <= maxChars)%Z.
Proof.
  revert c pre post.
  induction toVisit as [|msg older IH]; intros c pre post Heq Hne; simpl in Heq.
  - destruct pre; [congruence | discriminate].
  - destruct (Z.gtb_spec (c + size msg) maxChars) as [Hcmp|Hcmp].
    + destruct pre; [congruence | discriminate].
    + destruct pre as [|m pre]; [congruence|].
      simpl in Heq. injection Heq as -> Heq.
      unfold totalLength; simpl; fold (total pre).
      destruct pre as [|m' pre'].
      * unfold totalLength; simpl. lia.
      * specialize (IH _ _ _ Heq ltac:(discriminate)). lia.
Qed.

(** The walk stops at the first message that does not fit. *)
Lemma taken_stops maxChars toVisit c m rest :
  toVisit = taken maxChars toVisit c ++ m :: rest ->
  (c + total (taken maxChars toVisit c) + size m > maxChars)%Z.
Proof.
  revert c. induction toVisit as [|msg older IH]; intros c Heq; simpl in *.
  - discriminate.
  - destruct (Z.gtb_spec (c + size msg) maxChars) as [Hcmp|Hcmp].
    + simpl in Heq. injection Heq as -> _.
      unfold totalLength; simpl. lia.
    + simpl in Heq. injection Heq as Heq.
      specialize (IH _ Heq).
      unfold totalLength; simpl; fold (total (taken maxChars older (c + size msg))).
      lia.
Qed.

(** Walking the taken messages again takes all of them. *)
Lemma taken_idempotent maxChars toVisit c :
  taken maxChars (taken maxChars toVisit c) c = taken maxChars toVisit c.
Proof.
  revert c. induction toVisit as [|msg older IH]; intros c; simpl.
  - reflexivity.
  - destruct (c + size msg >? maxChars)%Z eqn:Hcmp; simpl.
    + reflexivity.
    + rewrite Hcmp, IH. reflexivity.
Qed.

Lemma prune_long first interior lastm maxChars :
  interior <> [] ->
  prune (first :: interior ++ [lastm]) maxChars
  = first :: rev (taken maxChars (rev interior) (size first + size lastm)) ++ [lastm].
Proof.
  intros Hne. unfold pruneMessages.
  assert (Hlen : (List.length (first :: interior ++ [lastm]) <=? 2)%nat = false).
  { apply Nat.leb_gt. simpl. rewrite length_app. simpl.
    destruct interior; [congruence | simpl; lia]. }
  rewrite Hlen, last_last, removelast_last, pruneLoop_taken, app_nil_r.
  reflexivity.
Qed.

Lemma prune_short messages maxChars :
  (List.length messages <= 2)%nat -> prune messages maxChars = messages.
Proof.
  intros H. unfold pruneMessages.
  apply Nat.leb_le in H. rewrite H. reflexivity.
Qed.

Lemma long_history_shape (messages : list Msg) :
  (2 < List.length messages)%nat ->
  exists first interior lastm,
    messages = first :: interior ++ [lastm] /\ interior <> [].
Proof.
  intros Hlen. destruct messages as [|first rest]; [simpl in Hlen; lia|].
  destruct (exists_last (l := rest)) as [interior [lastm ->]].
  { intros ->. simpl in Hlen. lia. }
  exists first, interior, lastm. split; [reflexivity|].
  intros ->. simpl in Hlen. lia.
Qed.

(** C3. [pruneMessages] returns a history of at most two messages unchanged;
    on a longer history it returns the first message, then a contiguous
    suffix [kept] of the interior messages, then the last message, in the
    original order.  The suffix is the one found by walking the interior from
    the most recent message to the oldest with a running total seeded with
    the sizes of the first and last message: every message of [kept] kept the
    total within the budget when it was added, and the walk stopped (without
    skipping) at the first message [m] that would push the total over the
    budget.  When no interior message fits, the result is [[first; last]]. *)
Theorem pruneMessages_recency_window (messages : list Msg) (maxChars : Z) :
  ((List.length messages <= 2)%nat ->
   pruneMessages JSON_stringify messages maxChars = messages)
  /\
  (forall first interior lastm,
      messages = first :: interior ++ [lastm] -> interior <> [] ->
      let seed := (jsonLength JSON_stringify first + jsonLength JSON_stringify lastm)%Z in
      exists dropped kept,
        interior = dropped ++ kept
        /\ pruneMessages JSON_stringify messages maxChars = first :: kept ++ [lastm]
        /\ (forall older newer, kept = older ++ newer -> newer <> [] ->
               (seed + totalLength JSON_stringify newer <= maxChars)%Z)
        /\ (forall older m, dropped = older ++ [m] ->
               (seed + totalLength JSON_stringify kept + jsonLength JSON_stringify m
                > maxChars)%Z)
        /\ ((forall m, In m interior ->
                (seed + jsonLength JSON_stringify m > maxChars)%Z) ->
               pruneMessages JSON_stringify messages maxChars = [first; lastm])).
Proof.
  split; [apply prune_short|].
  intros first interior lastm -> Hne seed.
  destruct (taken_prefix maxChars (rev interior) seed) as [rest Hrest].
  exists (rev rest), (rev (taken maxChars (rev interior) seed)).
  assert (Hsplit : interior = rev rest ++ rev (taken maxChars (rev interior) seed)).
  { rewrite <- rev_app_distr, <- Hrest, rev_involutive. reflexivity. }
  split; [exact Hsplit|].
  split; [apply prune_long; exact Hne|].
  split; [|split].
  - intros older newer Hk Hnewer.
    apply (f_equal (@rev Msg)) in Hk.
    rewrite rev_involutive, rev_app_distr in Hk.
    rewrite <- (total_rev newer).
    eapply taken_within; [exact Hk|].
    intros Hnil. apply Hnewer. rewrite <- (rev_involutive newer), Hnil. reflexivity.
  - intros older m Hd.
    rewrite total_rev.
    apply (f_equal (@rev Msg)) in Hd.
    rewrite rev_involutive, rev_app_distr in Hd. simpl in Hd.
    apply taken_stops with (rest := rev older).
    rewrite Hrest at 1. rewrite Hd. reflexivity.
  - intros Hnone. rewrite prune_long by exact Hne. fold seed.
    destruct (exists_last Hne) as [older [m Hint]].
    assert (Hm : (seed + size m > maxChars)%Z).
    { apply Hnone. rewrite Hint. apply in_or_app. right. left. reflexivity. }
    rewrite Hint, rev_app_distr. simpl.
    apply Z.gtb_gt in Hm. rewrite Hm. reflexivity.
Qed.

(** C4. Pruning an already pruned history with the same budget changes
    nothing. *)
Theorem pruneMessages_idempotent (messages : list Msg) (maxChars : Z) :
  pruneMessages JSON_stringify (pruneMessages JSON_stringify messages maxChars) maxChars
  = pruneMessages JSON_stringify messages maxChars.
Proof.
  destruct (le_lt_dec (List.length messages) 2) as [Hshort|Hlong].
  - rewrite (prune_short _ _ Hshort). apply prune_short. exact Hshort.
  - destruct (long_history_shape _ Hlong) as (first & interior & lastm & -> & Hne).
    rewrite (prune_long _ _ _ _ Hne).
    set (seed := (size first + size lastm)%Z).
    destruct (taken maxChars (rev interior) seed) as [|m kept] eqn:Htaken.
    + simpl. apply prune_short. simpl. lia.
    + rewrite prune_long.
      * fold seed. rewrite rev_involutive, <- Htaken, taken_idempotent. reflexivity.
      * simpl. intros H. apply app_eq_nil in H. destruct H as [_ H]. discriminate.
Qed.

End PrunerFacts.

(** The window of [sampleHistory] under a budget of 200 characters, and a
    two-message history under the same budget. *)
Lemma pruneMessages_recency_window_witness :
  ContextPruner.pruneMessages ContextPruner.renderTurn
    (firstn 2 ContextPruner.sampleHistory) 200
  = firstn 2 ContextPruner.sampleHistory
  /\
  exists dropped kept,
    removelast (tl ContextPruner.sampleHistory) = dropped ++ kept
    /\ ContextPruner.pruneMessages ContextPruner.renderTurn ContextPruner.sampleHistory 200
       = hd (ContextPruner.Build_ChatTurn "" "") ContextPruner.sampleHistory
           :: kept ++ [last ContextPruner.sampleHistory (ContextPruner.Build_ChatTurn "" "")].
Proof.
  split.
  - apply (pruneMessages_recency_window _ ContextPruner.renderTurn). simpl. lia.
  - destruct (pruneMessages_recency_window _ ContextPruner.renderTurn
                ContextPruner.sampleHistory 200) as [_ Hlong].
    destruct (Hlong _ (removelast (tl ContextPruner.sampleHistory)) _ eq_refl
                ltac:(discriminate)) as (dropped & kept & Hsplit & Hres & _).
    exists dropped, kept. split; [exact Hsplit | exact Hres].
Defined.

Example pruneMessages_sample :
  ContextPruner.pruneMessages ContextPruner.renderTurn ContextPruner.sampleHistory 200
  = [ ContextPruner.Build_ChatTurn "user" "build the parser";
      ContextPruner.Build_ChatTurn "user" "json";
      ContextPruner.Build_ChatTurn "model" "done";
      ContextPruner.Build_ChatTurn "user" "add tests" ].
Proof. vm_compute. reflexivity. Qed.

(* --------------------------------------------------------------------- *)
(** ** ResponseJsonRecovery *)

Section RecoveryFacts.
Import JsonRecovery.
Variable Value : Type.
Variable JSON_parse : list ascii -> Completion Value.

#[local] Abbreviation mkState := (@Build_ScanState Value).

Lemma substring_middle (before middle after : list ascii) :
  substring (before ++ middle ++ after)
    (Z.of_nat (List.length before))
    (Z.of_nat (List.length before + List.length middle))
  = middle.
Proof.
  unfold substring.
  rewrite !length_app.
  set (a := List.length before). set (m := List.length middle).
  set (r := List.length after).
  replace (Z.max 0 (Z.min (Z.of_nat a) (Z.of_nat (a + (m + r))))) with (Z.of_nat a) by lia.
  replace (Z.max 0 (Z.min (Z.of_nat (a + m)) (Z.of_nat (a + (m + r)))))
    with (Z.of_nat (a + m)) by lia.
  replace (Z.min (Z.of_nat a) (Z.of_nat (a + m))) with (Z.of_nat a) by lia.
  replace (Z.max (Z.of_nat a) (Z.of_nat (a + m)) - Z.of_nat a)%Z with (Z.of_nat m) by lia.
  rewrite !Nat2Z.id.
  subst a m. rewrite skipn_app, skipn_all, Nat.sub_diag. simpl.
  rewrite firstn_app, firstn_all, Nat.sub_diag. simpl. apply app_nil_r.
Qed.

Lemma parseCandidate_attempt jsonStr cands :
  parseCandidate JSON_parse jsonStr cands
  = Normal (cands ++ attempt JSON_parse jsonStr).
Proof.
  unfold parseCandidate, attempt, tryCatch, bindC.
  destruct (JSON_parse jsonStr) as [v|e].
  - reflexivity.
  - destruct (JSON_parse (replaceNewlines jsonStr)) as [v|e'].
    + reflexivity.
    + rewrite app_nil_r. reflexivity.
Qed.

(** The loop of the source, started anywhere in the text, finishes normally
    and adds to [candidates] the parsed slices of the described algorithm.
    While the stack is non-empty, [startIndex] is the offset at which the
    collected slice begins. *)
Lemma scanLoop_slices (text : list ascii) :
  forall rest pre cands stk sidx inS esc slice,
    text = pre ++ rest ->
    (stk <> [] ->
     exists before, pre = before ++ rev slice /\ sidx = Z.of_nat (List.length before)) ->
    exists st',
      scanLoop JSON_parse text rest (List.length pre) (mkState cands stk sidx inS esc)
      = Normal st'
      /\ candidates st'
         = cands ++ flat_map (attempt JSON_parse) (slicesFrom rest stk inS esc slice).
Proof.
  induction rest as [|c rest IH]; intros pre cands stk sidx inS esc slice Htext Hinv.
  - simpl. eexists. split; [reflexivity|]. simpl. rewrite app_nil_r. reflexivity.
  - assert (Htext' : text = (pre ++ [c]) ++ rest)
      by (rewrite <- app_assoc; exact Htext).
    assert (Hlen : List.length (pre ++ [c]) = S (List.length pre))
      by (rewrite length_app; simpl; lia).
    assert (Hgrow : stk <> [] ->
              exists before, pre ++ [c] = before ++ rev (c :: slice)
                             /\ sidx = Z.of_nat (List.length before)).
    { intros Hne. destruct (Hinv Hne) as (before & Hpre & Hidx).
      exists before. split; [|exact Hidx].
      simpl. rewrite Hpre, app_assoc. reflexivity. }
    simpl scanLoop. simpl slicesFrom. unfold scanStep. simpl.
    destruct inS.
    { (* inside a string literal *)
      destruct (Ascii.eqb c backslash && negb esc);
        [|destruct (Ascii.eqb c dquote && negb esc)];
        simpl; rewrite <- Hlen; apply IH; assumption. }
    destruct (Ascii.eqb c dquote).
    { simpl; rewrite <- Hlen; apply IH; assumption. }
    destruct (isOpener c).
    { destruct stk as [|top below]; simpl; rewrite <- Hlen; apply IH; try assumption.
      - intros _. exists pre. split; reflexivity.
      - intros _. apply Hgrow. discriminate. }
    destruct (isCloser c).
    2:{ simpl; rewrite <- Hlen; apply IH; assumption. }
    destruct stk as [|top below].
    { simpl; rewrite <- Hlen; apply IH; assumption. }
    destruct (Ascii.eqb c top).
    2:{ destruct below; simpl; rewrite <- Hlen; apply IH; assumption. }
    destruct below as [|next below]; simpl.
    + destruct (Hinv ltac:(discriminate)) as (before & Hpre & Hidx).
      assert (Hneq : (sidx =? -1)%Z = false) by (apply Z.eqb_neq; lia).
      rewrite Hneq. simpl.
      assert (Hsub : substring text sidx (Z.of_nat (List.length pre) + 1)
                     = rev slice ++ [c]).
      { rewrite Htext, Hpre, Hidx, <- app_assoc.
        replace (Z.of_nat (List.length (before ++ rev slice)) + 1)%Z
          with (Z.of_nat (List.length before + List.length (rev slice ++ [c]))).
        - change (c :: rest) with ([c] ++ rest).
          rewrite (app_assoc (rev slice) [c] rest).
          apply substring_middle.
        - rewrite !length_app. simpl. lia. }
      rewrite Hsub, parseCandidate_attempt. simpl.
      rewrite <- Hlen.
      destruct (IH (pre ++ [c]) (cands ++ attempt JSON_parse (rev slice ++ [c]))
                  [] (-1)%Z false esc [] Htext') as (st' & Hrun & Hcands).
      { intros H; congruence. }
      exists st'. split; [exact Hrun|].
      rewrite Hcands, <- app_assoc. reflexivity.
    + rewrite <- Hlen. apply IH; [assumption|].
      intros _. apply Hgrow. discriminate.
Qed.

(** Refinement: the extractor never throws, and its result is the list of
    parse attempts over the top-level slices, in the order the slices close. *)
Lemma extractJsonCandidates_slices (text : list ascii) :
  extractJsonCandidates JSON_parse text
  = Normal (flat_map (attempt JSON_parse) (topLevelSlices text)).
Proof.
  unfold extractJsonCandidates, initialState, topLevelSlices.
  destruct (scanLoop_slices text text [] [] [] (-1)%Z false false [] eq_refl)
    as (st' & Hrun & Hcands).
  { intros H; congruence. }
  simpl in Hrun. rewrite Hrun. simpl. rewrite Hcands. reflexivity.
Qed.

End RecoveryFacts.

(** Outside every bracket the collected slice is never read. *)
Lemma slicesFrom_slice_irrelevant rest :
  forall inS esc slice slice',
    JsonRecovery.slicesFrom rest [] inS esc slice
    = JsonRecovery.slicesFrom rest [] inS esc slice'.
Proof.
  induction rest as [|c rest IH]; intros inS esc slice slice'; simpl.
  - reflexivity.
  - destruct inS.
    + destruct (Ascii.eqb c JsonRecovery.backslash && negb esc);
        [|destruct (Ascii.eqb c dquote && negb esc)]; apply IH.
    + destruct (Ascii.eqb c dquote); [apply IH|].
      destruct (JsonRecovery.isOpener c); [reflexivity|].
      destruct (JsonRecovery.isCloser c); apply IH.
Qed.






(* --------------------------------------------------------------------- *)
(** ** Tables *)

Section TableFacts.
Variable V : Type.
Implicit Types (table : list (string * V)) (key : string) (value : V).

Lemma table_get_set_same table key value :
  Table.get (Table.set table key value) key = Some value.
Proof.
  induction table as [|[k v] rest IH]; simpl.
  - rewrite String.eqb_refl. reflexivity.
  - destruct (String.eqb k key) eqn:Hk; simpl; rewrite Hk; [reflexivity | exact IH].
Qed.

Lemma table_get_set_other table key key' value :
  key <> key' ->
  Table.get (Table.set table key value) key' = Table.get table key'.
Proof.
  intros Hne. induction table as [|[k v] rest IH]; simpl.
  - apply String.eqb_neq in Hne. rewrite Hne. reflexivity.
  - destruct (String.eqb k key) eqn:Hk; simpl.
    + apply String.eqb_eq in Hk. subst k.
      apply String.eqb_neq in Hne. rewrite Hne. reflexivity.
    + rewrite IH. reflexivity.
Qed.

Lemma table_get_remove_same table key :
  Table.get (Table.remove table key) key = None.
Proof.
  induction table as [|[k v] rest IH]; simpl.
  - reflexivity.
  - destruct (String.eqb k key) eqn:Hk; simpl; [exact IH | rewrite Hk; exact IH].
Qed.

Lemma table_get_remove_other table key key' :
  key <> key' ->
  Table.get (Table.remove table key) key' = Table.get table key'.
Proof.
  intros Hne. induction table as [|[k v] rest IH]; simpl.
  - reflexivity.
  - destruct (String.eqb k key) eqn:Hk; simpl.
    + apply String.eqb_eq in Hk. subst k.
      apply String.eqb_neq in Hne. rewrite Hne. exact IH.
    + rewrite IH. reflexivity.
Qed.

Lemma table_remove_absent table key :
  Table.get table key = None -> Table.remove table key = table.
Proof.
  induction table as [|[k v] rest IH]; simpl; intros Hget.
  - reflexivity.
  - destruct (String.eqb k key); [discriminate|].
    rewrite (IH Hget). reflexivity.
Qed.

Lemma table_set_same_value table key value :
  Table.get table key = Some value -> Table.set table key value = table.
Proof.
  induction table as [|[k v] rest IH]; simpl; intros Hget.
  - discriminate.
  - destruct (String.eqb k key).
    + injection Hget as ->. reflexivity.
    + rewrite (IH Hget). reflexivity.
Qed.

Lemma table_get_In table key value :
  Table.get table key = Some value -> In (key, value) table.
Proof.
  induction table as [|[k v] rest IH]; simpl; intros Hget.
  - discriminate.
  - destruct (String.eqb k key) eqn:Hk.
    + apply String.eqb_eq in Hk. injection Hget as ->. left. congruence.
    + right. exact (IH Hget).
Qed.

Lemma table_Forall_set (P : string * V -> Prop) table key value :
  Forall P table -> P (key, value) -> Forall P (Table.set table key value).
Proof.
  intros Hall Hnew. induction table as [|[k v] rest IH]; simpl.
  - constructor; [exact Hnew | constructor].
  - inversion Hall as [|? ? Hhead Hrest]; subst.
    destruct (String.eqb k key) eqn:Hk.
    + apply String.eqb_eq in Hk. subst k. constructor; assumption.
    + constructor; [exact Hhead | exact (IH Hrest)].
Qed.

Lemma table_Forall_remove (P : string * V -> Prop) table key :
  Forall P table -> Forall P (Table.remove table key).
Proof.
  intros Hall. induction table as [|[k v] rest IH]; simpl.
  - constructor.
  - inversion Hall as [|? ? Hhead Hrest]; subst.
    destruct (String.eqb k key); [exact (IH Hrest)|].
    constructor; [exact Hhead | exact (IH Hrest)].
Qed.

Lemma table_get_None_keys table key :
  Table.get table key = None -> ~ In key (Table.keys table).
Proof.
  induction table as [|[k v] rest IH]; simpl; intros Hget.
  - intros [].
  - destruct (String.eqb k key) eqn:Hk; [discriminate|].
    apply String.eqb_neq in Hk. intros [H|H]; [contradiction | exact (IH Hget H)].
Qed.

End TableFacts.

(* --------------------------------------------------------------------- *)
(** ** Paths *)

Lemma split_sepFree sep s :
  Forall (fun p => FsSpec.sepFree sep p = true) (JsString.split sep s).
Proof.
  induction s as [|c rest IH]; simpl.
  - constructor; [reflexivity | constructor].
  - destruct (Ascii.eqb c sep) eqn:Hc.
    + constructor; [reflexivity | exact IH].
    + destruct (JsString.split sep rest) as [|head tail].
      * constructor; [simpl; rewrite Hc; reflexivity | constructor].
      * inversion IH as [|? ? Hhead Htail]; subst.
        constructor; [simpl; rewrite Hc, Hhead; reflexivity | exact Htail].
Qed.

Lemma split_single sep p :
  FsSpec.sepFree sep p = true -> JsString.split sep p = [p].
Proof.
  induction p as [|c rest IH]; simpl; intros Hfree.
  - reflexivity.
  - apply andb_prop in Hfree. destruct Hfree as [Hc Hrest].
    apply negb_true_iff in Hc. rewrite Hc, (IH Hrest). reflexivity.
Qed.

Lemma split_app sep p rest :
  FsSpec.sepFree sep p = true ->
  JsString.split sep (p ++ String sep rest) = p :: JsString.split sep rest.
Proof.
  induction p as [|c p' IH]; simpl; intros Hfree.
  - rewrite Ascii.eqb_refl. reflexivity.
  - apply andb_prop in Hfree. destruct Hfree as [Hc Hrest].
    apply negb_true_iff in Hc. rewrite Hc, (IH Hrest). reflexivity.
Qed.

Lemma split_join sep parts :
  parts <> [] ->
  Forall (fun p => FsSpec.sepFree sep p = true) parts ->
  JsString.split sep (JsString.join (String sep EmptyString) parts) = parts.
Proof.
  induction parts as [|p rest IH]; intros Hne Hall; [congruence|].
  inversion Hall as [|? ? Hp Hrest]; subst.
  destruct rest as [|q rest'].
  - simpl. apply split_single. exact Hp.
  - change (JsString.join (String sep EmptyString) (p :: q :: rest'))
      with (p ++ String sep (JsString.join (String sep EmptyString) (q :: rest')))%string.
    rewrite (split_app _ _ _ Hp), IH; [reflexivity | discriminate | exact Hrest].
Qed.

Lemma filter_all {A : Type} (f : A -> bool) (l : list A) :
  Forall (fun x => f x = true) l -> filter f l = l.
Proof.
  induction 1 as [|x l Hx _ IH]; simpl; [reflexivity|].
  rewrite Hx, IH. reflexivity.
Qed.

Lemma normalize_segments path :
  Forall (fun p => FsSpec.isSegment p = true) (FileSystem.normalize path).
Proof.
  unfold FileSystem.normalize. apply Forall_forall. intros p Hin.
  apply filter_In in Hin. destruct Hin as [Hin Hkeep].
  pose proof (split_sepFree "/" path) as Hfree.
  rewrite Forall_forall in Hfree. specialize (Hfree p Hin).
  unfold FsSpec.isSegment. rewrite Hkeep, Hfree. reflexivity.
Qed.

(** Joining normalized segments and normalizing again gives them back: the
    directory path rebuilt by [parts.join('/')] names the same directory. *)
Lemma normalize_join parts :
  Forall (fun p => FsSpec.isSegment p = true) parts ->
  FileSystem.normalize (JsString.join "/" parts) = parts.
Proof.
  intros Hall. destruct parts as [|p rest]; [reflexivity|].
  unfold FileSystem.normalize.
  rewrite split_join.
  - apply filter_all. apply Forall_forall. intros q Hq.
    rewrite Forall_forall in Hall. specialize (Hall q Hq).
    unfold FsSpec.isSegment in Hall.
    apply andb_prop in Hall. destruct Hall as [Hall _]. exact Hall.
  - discriminate.
  - apply Forall_forall. intros q Hq.
    rewrite Forall_forall in Hall. specialize (Hall q Hq).
    unfold FsSpec.isSegment in Hall.
    apply andb_prop in Hall. destruct Hall as [_ Hfree]. exact Hfree.
Qed.

Lemma pop_snoc parts name :
  FileSystem.pop (parts ++ [name]) = (Some name, parts).
Proof.
  unfold FileSystem.pop.
  destruct (parts ++ [name]) eqn:Heq.
  - destruct parts; discriminate.
  - rewrite <- Heq, last_last, removelast_last. reflexivity.
Qed.

Lemma pop_nonempty parts :
  parts <> [] ->
  exists init name, parts = init ++ [name] /\ FileSystem.pop parts = (Some name, init).
Proof.
  intros Hne. destruct (exists_last Hne) as [init [name ->]].
  exists init, name. split; [reflexivity | apply pop_snoc].
Qed.

Lemma normalize_parent path init name :
  FileSystem.normalize path = init ++ [name] ->
  FileSystem.normalize (JsString.join "/" init) = init.
Proof.
  intros Hnorm. apply normalize_join.
  pose proof (normalize_segments path) as Hall.
  rewrite Hnorm in Hall. apply Forall_app in Hall. tauto.
Qed.

(* --------------------------------------------------------------------- *)
(** ** VirtualFileSystem: the memory backend *)

Lemma walk_app parts more current :
  FileSystem.walk (parts ++ more) current
  = match FileSystem.walk parts current with
    | Some reached => FileSystem.walk more reached
    | None => None
    end.
Proof.
  revert current. induction parts as [|part rest IH]; intros current; simpl.
  - reflexivity.
  - destruct current as [n c|n children]; [reflexivity|].
    destruct (Table.get children part); [apply IH | reflexivity].
Qed.

(** After [ensureMemoryDir] the directory of the path exists and holds what
    the caller stored in it. *)
Lemma ensureDirs_walk parts finish :
  forall current root' rootName,
    FileSystem.ensureDirs parts finish current = Normal root' ->
    exists dirName children,
      FileSystem.walk parts (FileSystem.MemoryDirectory rootName root')
      = Some (FileSystem.MemoryDirectory dirName (finish children)).
Proof.
  induction parts as [|part rest IH]; intros current root' rootName Hrun; simpl in *.
  - injection Hrun as <-. exists rootName, current. reflexivity.
  - set (current' :=
           match Table.get current part with
           | Some _ => current
           | None => Table.set current part (FileSystem.MemoryDirectory part [])
           end) in *.
    destruct (Table.get current' part) as [[n c|name children]|]; try discriminate.
    destruct (FileSystem.ensureDirs rest finish children) as [children'|e] eqn:Hrest;
      simpl in Hrun; [|discriminate].
    injection Hrun as <-.
    rewrite table_get_set_same.
    apply (IH _ _ name Hrest).
Qed.

Lemma memoryWriteFile_read path content w w' :
  FileSystem.normalize path <> [] ->
  FileSystem.memoryWriteFile path content w = (Normal tt, w') ->
  exists name,
    FileSystem.getMemoryEntry w' path = Some (FileSystem.MemoryFile name content).
Proof.
  intros Hne Hwrite. unfold FileSystem.memoryWriteFile in Hwrite.
  destruct (pop_nonempty _ Hne) as (init & name & Hparts & Hpop).
  rewrite Hpop in Hwrite.
  unfold FileSystem.ensureMemoryDir in Hwrite.
  rewrite (normalize_parent _ _ _ Hparts) in Hwrite.
  destruct (FileSystem.ensureDirs init _ (FileSystem.memoryRoot w)) as [root'|e] eqn:Hrun;
    [|discriminate].
  injection Hwrite as <-.
  exists name. unfold FileSystem.getMemoryEntry. simpl.
  rewrite Hparts, walk_app.
  destruct (ensureDirs_walk _ _ _ _ "root"%string Hrun) as (dirName & children & Hwalk).
  rewrite Hwalk. simpl. rewrite table_get_set_same. reflexivity.
Qed.

Lemma walk_parent parts name current found :
  FileSystem.walk (parts ++ [name]) current = Some found ->
  exists dirName children,
    FileSystem.walk parts current = Some (FileSystem.MemoryDirectory dirName children)
    /\ Table.get children name = Some found.
Proof.
  rewrite walk_app.
  destruct (FileSystem.walk parts current) as [[n c|dirName children]|]; simpl;
    try discriminate.
  destruct (Table.get children name) as [next|] eqn:Hget; [|discriminate].
  intros H. injection H as <-. exists dirName, children. split; [reflexivity | exact Hget].
Qed.

Lemma walk_directory_step part rest name children dirName' children' :
  FileSystem.walk (part :: rest) (FileSystem.MemoryDirectory name children)
  = Some (FileSystem.MemoryDirectory dirName' children') ->
  exists subName sub,
    Table.get children part = Some (FileSystem.MemoryDirectory subName sub)
    /\ FileSystem.walk rest (FileSystem.MemoryDirectory subName sub)
       = Some (FileSystem.MemoryDirectory dirName' children').
Proof.
  simpl. destruct (Table.get children part) as [[n c|subName sub]|]; try discriminate.
  - destruct rest; simpl; discriminate.
  - intros H. exists subName, sub. split; [reflexivity | exact H].
Qed.

(** After the deletion in the directory reached along [parts], the name is
    gone from it. *)
Lemma modifyDir_removed parts name :
  forall rootName root dirName children,
    FileSystem.walk parts (FileSystem.MemoryDirectory rootName root)
    = Some (FileSystem.MemoryDirectory dirName children) ->
    FileSystem.walk (parts ++ [name])
      (FileSystem.MemoryDirectory rootName
         (FileSystem.modifyDir parts (fun c => Table.remove c name) root))
    = None.
Proof.
  induction parts as [|part rest IH]; intros rootName root dirName children Hwalk.
  - simpl. rewrite table_get_remove_same. reflexivity.
  - destruct (walk_directory_step _ _ _ _ _ _ Hwalk) as (subName & sub & Hget & Hrest).
    simpl. rewrite Hget, table_get_set_same.
    apply (IH _ _ _ _ Hrest).
Qed.

(** Deleting a name that the directory does not hold leaves the tree as it is. *)
Lemma modifyDir_absent parts name :
  forall rootName root dirName children,
    FileSystem.walk parts (FileSystem.MemoryDirectory rootName root)
    = Some (FileSystem.MemoryDirectory dirName children) ->
    Table.get children name = None ->
    FileSystem.modifyDir parts (fun c => Table.remove c name) root = root.
Proof.
  induction parts as [|part rest IH]; intros rootName root dirName children Hwalk Hnone.
  - simpl in *. injection Hwalk as _ <-. apply table_remove_absent. exact Hnone.
  - destruct (walk_directory_step _ _ _ _ _ _ Hwalk) as (subName & sub & Hget & Hrest).
    simpl. rewrite Hget, (IH _ _ _ _ Hrest Hnone).
    apply table_set_same_value. exact Hget.
Qed.

(* --------------------------------------------------------------------- *)
(** ** VirtualFileSystem: the native backend *)

Lemma nativeWrite_read parts fileName content :
  forall dir dir',
    FileSystem.nativeWrite parts fileName content dir = (Normal tt, dir') ->
    fst (FileSystem.nativeWalk parts (FileSystem.nativeFileText fileName) dir')
    = Normal content.
Proof.
  induction parts as [|part rest IH]; intros dir dir' Hwrite; simpl in *.
  - unfold FileSystem.nativeFileText.
    destruct (FileSystem.validName fileName); [|discriminate].
    assert (Hdir' : dir' = Table.set dir fileName (FileSystem.MemoryFile fileName content)).
    { destruct (Table.get dir fileName) as [[n c|n ch]|]; try discriminate;
        injection Hwrite as <-; reflexivity. }
    rewrite Hdir', table_get_set_same. reflexivity.
  - destruct (FileSystem.validName part); [|discriminate].
    destruct (Table.get dir part) as [[n c|name sub]|]; try discriminate.
    + destruct (FileSystem.nativeWrite rest fileName content sub) as [r sub'] eqn:Hrest.
      injection Hwrite as -> <-.
      rewrite table_get_set_same.
      specialize (IH _ _ Hrest).
      destruct (FileSystem.nativeWalk rest _ sub') as [r2 sub'']. exact IH.
    + destruct (FileSystem.nativeWrite rest fileName content []) as [r sub'] eqn:Hrest.
      injection Hwrite as -> <-.
      rewrite table_get_set_same.
      specialize (IH _ _ Hrest).
      destruct (FileSystem.nativeWalk rest _ sub') as [r2 sub'']. exact IH.
Qed.

Lemma nativeRemove_read parts name content :
  forall dir dir1,
    FileSystem.nativeWalk parts (FileSystem.nativeFileText name) dir
    = (Normal content, dir1) ->
    exists dir',
      FileSystem.nativeWalk parts (FileSystem.nativeRemoveEntry name) dir
      = (Normal tt, dir')
      /\ fst (FileSystem.nativeWalk parts (FileSystem.nativeFileText name) dir')
         = Throw FileSystem.notFound.
Proof.
  induction parts as [|part rest IH]; intros dir dir1 Hread; simpl in *.
  - unfold FileSystem.nativeFileText, FileSystem.nativeRemoveEntry in *.
    destruct (FileSystem.validName name); [|discriminate].
    destruct (Table.get dir name) as [[n c|n ch]|]; try discriminate.
    exists (Table.remove dir name). split; [reflexivity|].
    rewrite table_get_remove_same. reflexivity.
  - destruct (FileSystem.validName part); [|discriminate].
    destruct (Table.get dir part) as [[n c|dirName sub]|]; try discriminate.
    destruct (FileSystem.nativeWalk rest (FileSystem.nativeFileText name) sub)
      as [r sub1] eqn:Hrest.
    injection Hread as -> _.
    destruct (IH _ _ Hrest) as (sub' & Hremove & Hgone).
    rewrite Hremove.
    exists (Table.set dir part (FileSystem.MemoryDirectory dirName sub')).
    split; [reflexivity|].
    rewrite table_get_set_same.
    destruct (FileSystem.nativeWalk rest (FileSystem.nativeFileText name) sub')
      as [r2 sub2]. exact Hgone.
Qed.

(* --------------------------------------------------------------------- *)
(** ** VirtualFileSystem: the operations on a world *)

Lemma notify_provider n w : FileSystem.provider (FileSystem.notify n w) = FileSystem.provider w.
Proof. reflexivity. Qed.



(* --------------------------------------------------------------------- *)
(** ** CodeIndex *)

Lemma In_insertByScore x r sorted :
  In x (Knowledge.insertByScore r sorted) -> x = r \/ In x sorted.
Proof.
  induction sorted as [|head tail IH]; simpl.
  - intros [H|[]]. left. congruence.
  - destruct (Knowledge.score head <=? Knowledge.score r)%nat; simpl.
    + intros [H|H]; [left; congruence | right; exact H].
    + intros [H|H]; [right; left; exact H|].
      destruct (IH H) as [Hx|Hx]; [left; exact Hx | right; right; exact Hx].
Qed.

Lemma In_sortByScore x results :
  In x (Knowledge.sortByScore results) -> In x results.
Proof.
  induction results as [|r rest IH]; simpl; intros H.
  - exact H.
  - apply In_insertByScore in H. destruct H as [H|H]; [left; congruence|].
    right. exact (IH H).
Qed.

Lemma In_firstn_In {A : Type} (x : A) n l : In x (firstn n l) -> In x l.
Proof.
  revert l. induction n as [|n IH]; intros [|y l]; simpl; try tauto.
  intros [H|H]; [left; exact H | right; exact (IH _ H)].
Qed.

(** Every search result is derived from an entry held by the index. *)
Lemma ranked_from_index index query r :
  In r (Knowledge.ranked index query) ->
  exists key entry,
    In (key, entry) index /\ Knowledge.resultPath r = Knowledge.path entry.
Proof.
  unfold Knowledge.ranked. intros H.
  apply In_firstn_In, In_sortByScore, in_flat_map in H.
  destruct H as (entry & Hentry & Hr).
  unfold Table.values in Hentry. apply in_map_iff in Hentry.
  destruct Hentry as ([key entry'] & Heq & Hin). simpl in Heq. subst entry'.
  exists key, entry. split; [exact Hin|].
  unfold Knowledge.scoreEntry in Hr.
  match type of Hr with
  | In r (match (if ?c then _ else _) with _ => _ end) => destruct c
  end; simpl in Hr; [|contradiction].
  destruct Hr as [<-|[]]. reflexivity.
Qed.

Lemma ranked_without_path index query path :
  FsSpec.wellKeyed index ->
  Table.get index path = None ->
  forall r, In r (Knowledge.ranked index query) -> Knowledge.resultPath r <> path.
Proof.
  intros Hkeyed Hnone r Hr Heq.
  destruct (ranked_from_index _ _ _ Hr) as (key & entry & Hin & Hpath).
  unfold FsSpec.wellKeyed in Hkeyed. rewrite Forall_forall in Hkeyed.
  specialize (Hkeyed _ Hin). simpl in Hkeyed.
  apply (table_get_None_keys _ _ _ Hnone).
  unfold Table.keys. apply in_map_iff. exists (key, entry).
  split; [simpl; congruence | exact Hin].
Qed.

Lemma wellKeyed_indexFile now index path content :
  FsSpec.wellKeyed index -> FsSpec.wellKeyed (Knowledge.indexFile now index path content).
Proof.
  intros Hkeyed. unfold Knowledge.indexFile.
  destruct (JsString.includes path "node_modules" || JsString.startsWith path ".");
    [exact Hkeyed|].
  destruct (Knowledge.parseSymbols content _) as [symbols summary].
  apply table_Forall_set; [exact Hkeyed | reflexivity].
Qed.

(** The index stays keyed by path under every notification. *)
Lemma wellKeyed_notify n w :
  FsSpec.wellKeyed (FileSystem.index w) ->
  FsSpec.wellKeyed (FileSystem.index (FileSystem.notify n w)).
Proof.
  intros Hkeyed. simpl. unfold FileSystem.knowledgeListener.
  destruct (FileSystem.changeType n).
  - destruct (FileSystem.changeContent n) as [content|]; [|exact Hkeyed].
    destruct (String.length content =? 0)%nat; [exact Hkeyed|].
    apply wellKeyed_indexFile. exact Hkeyed.
  - apply table_Forall_remove. exact Hkeyed.
Qed.

(** *** Deleting on plain objects *)

(** A key other than [__proto__] that is no own property reads as something
    inherited, never as an entry of the tree. *)
Lemma getProperty_not_own own proto key :
  key <> "__proto__"%string ->
  Table.get own key = None ->
  forall entry, JsMemory.getProperty (own, proto) key <> JsMemory.IsEntry entry.
Proof.
  intros Hkey Hget entry. unfold JsMemory.getProperty.
  apply String.eqb_neq in Hkey. rewrite Hkey, Hget.
  unfold JsMemory.ofText.
  destruct proto as [[name content]|];
    repeat match goal with
           | |- context [if ?b then _ else _] => destruct b
           end; discriminate.
Qed.

(** A directory is only ever read from an own property. *)
Lemma getProperty_directory own proto key name sub subProto :
  JsMemory.getProperty (own, proto) key
  = JsMemory.IsEntry (JsMemory.Directory name sub subProto) ->
  key <> "__proto__"%string
  /\ Table.get own key = Some (JsMemory.Directory name sub subProto).
Proof.
  unfold JsMemory.getProperty.
  destruct (String.eqb_spec key "__proto__") as [->|Hkey].
  - destruct proto as [[n c]|]; discriminate.
  - intros Hget. split; [exact Hkey|].
    destruct (Table.get own key) as [entry|] eqn:Hown.
    + injection Hget as ->. reflexivity.
    + exfalso. revert Hget. unfold JsMemory.ofText.
      destruct proto as [[n c]|];
        repeat match goal with
               | |- context [if ?b then _ else _] => destruct b
               end; discriminate.
Qed.

Lemma getProperty_set_same own proto key entry :
  key <> "__proto__"%string ->
  JsMemory.getProperty (Table.set own key entry, proto) key = JsMemory.IsEntry entry.
Proof.
  intros Hkey. unfold JsMemory.getProperty.
  apply String.eqb_neq in Hkey. rewrite Hkey, table_get_set_same. reflexivity.
Qed.

(** Once [deleteEntry] has run for a path whose last segment [name] is not
    [__proto__], no walk through that path ends on a file, in any tree. *)
Lemma js_walk_after_delete name init rest :
  name <> "__proto__"%string ->
  forall own proto dirName fileName content,
    JsMemory.walk (init ++ name :: rest)
      (JsMemory.IsEntry
         (JsMemory.Directory dirName
            (fst (JsMemory.modifyDir init
                    (fun children => JsMemory.deleteProperty children name) (own, proto)))
            (snd (JsMemory.modifyDir init
                    (fun children => JsMemory.deleteProperty children name) (own, proto)))))
    <> Some (JsMemory.IsEntry (JsMemory.File fileName content)).
Proof.
  intros Hname. induction init as [|part init' IH];
    intros own proto dirName fileName content.
  - cbn [app JsMemory.modifyDir JsMemory.deleteProperty fst snd JsMemory.walk].
    pose proof (getProperty_not_own (Table.remove own name) proto name Hname
                  (table_get_remove_same _ own name)) as Hgone.
    destruct (JsMemory.getProperty (Table.remove own name, proto) name) as [entry| |];
      [elim (Hgone entry); reflexivity | | discriminate].
    destruct rest; cbn [JsMemory.walk]; discriminate.
  - cbn [app JsMemory.modifyDir].
    destruct (JsMemory.getProperty (own, proto) part) as [[n c|n sub subProto]| |] eqn:Hpart.
    + cbn [fst snd JsMemory.walk]. rewrite Hpart.
      destruct init'; cbn [app JsMemory.walk]; discriminate.
    + destruct (getProperty_directory _ _ _ _ _ _ Hpart) as (Hkey & _).
      cbn [fst snd JsMemory.walk].
      rewrite (getProperty_set_same own proto part _ Hkey).
      exact (IH sub subProto n fileName content).
    + cbn [fst snd JsMemory.walk]. rewrite Hpart.
      destruct init'; cbn [app JsMemory.walk]; discriminate.
    + cbn [fst snd JsMemory.walk]. rewrite Hpart. discriminate.
Qed.

Lemma js_delete_then_read_below (root : JsMemory.Properties) (path below : string)
  (rest : list string) :
  FileSystem.normalize path <> [] ->
  List.last (FileSystem.normalize path) EmptyString <> "__proto__"%string ->
  FileSystem.normalize below = FileSystem.normalize path ++ rest ->
  forall content, JsMemory.readFile below (JsMemory.deleteEntry path root) <> Normal content.
Proof.
  intros Hne Hlast Hbelow content. destruct root as [own proto].
  destruct (pop_nonempty _ Hne) as (init & name & Hparts & Hpop).
  unfold JsMemory.readFile, JsMemory.getMemoryEntry, JsMemory.rootEntry, JsMemory.deleteEntry.
  rewrite Hpop, (normalize_parent _ _ _ Hparts), Hbelow, Hparts, <- app_assoc.
  rewrite Hparts, last_last in Hlast. cbn [app].
  pose proof (js_walk_after_delete name init rest Hlast own proto "root") as Hgone.
  set (after := JsMemory.modifyDir init _ (own, proto)) in *.
  destruct (JsMemory.walk (init ++ name :: rest)
              (JsMemory.IsEntry (JsMemory.Directory "root" (fst after) (snd after))))
    as [[[fileName c|n sub subProto]| |]|]; try discriminate.
  elim (Hgone fileName c). reflexivity.
Qed.

Lemma js_delete_then_read (root : JsMemory.Properties) (path content : string) :
  List.last (FileSystem.normalize path) EmptyString <> "__proto__"%string ->
  JsMemory.readFile path root = Normal content ->
  JsMemory.readFile path (JsMemory.deleteEntry path root)
  = Throw (Error ("File not found: " ++ path)).
Proof.
  intros Hlast Hread.
  assert (Hne : FileSystem.normalize path <> []).
  { intros Hnil. unfold JsMemory.readFile, JsMemory.getMemoryEntry in Hread.
    rewrite Hnil in Hread. discriminate. }
  pose proof (js_delete_then_read_below root path path [] Hne Hlast
                ltac:(rewrite app_nil_r; reflexivity)) as Hgone.
  unfold JsMemory.readFile in *.
  destruct (JsMemory.getMemoryEntry (JsMemory.deleteEntry path root) path)
    as [[[fileName c|n sub subProto]| |]|]; try reflexivity.
  elim (Hgone c). reflexivity.
Qed.

(** A file written under [__proto__] becomes the prototype of the root
    object: [delete] does not reach it, and it is still read. *)
Lemma js_proto_file_survives_delete (root : JsMemory.Properties) (content : string) :
  fst (JsMemory.memoryWriteFile "__proto__" content root) = Normal tt
  /\ JsMemory.readFile "__proto__"
       (JsMemory.deleteEntry "__proto__"
          (snd (JsMemory.memoryWriteFile "__proto__" content root)))
     = Normal content.
Proof.
  destruct root as [own proto]. split; reflexivity.
Qed.

(** C8.  For every path [p] of a file whose name is not [__proto__] on the
    memory backend, [deleteEntry(p)] returns, a following [readFile(p)] fails
    with the not-found error of the backend, and the index holds no entry for
    [p], so that no search returns a result for [p], whatever the query.  On
    the plain objects of the memory backend the same holds of the tree for
    every such path, in every state; but a file written under [__proto__]
    has become the prototype of its directory object, [delete] does not reach
    it, and [readFile] still returns its content after [deleteEntry] has
    returned. *)
Theorem delete_then_read_and_search :
  (forall (path content : string) (w : FileSystem.World),
      fst (FileSystem.readFile path w) = Normal content ->
      FsSpec.wellKeyed (FileSystem.index w) ->
      (FileSystem.provider w = FileSystem.memory ->
       List.last (FileSystem.normalize path) EmptyString <> "__proto__"%string) ->
      exists w',
        FileSystem.deleteEntry path w = (Normal tt, w')
        /\ fst (FileSystem.readFile path w')
           = Throw (match FileSystem.provider w with
                    | FileSystem.memory => Error ("File not found: " ++ path)
                    | FileSystem.native => FileSystem.notFound
                    end)
        /\ Table.get (FileSystem.index w') path = None
        /\ forall query r,
             In r (Knowledge.ranked (FileSystem.index w') query) ->
             Knowledge.resultPath r <> path)
  /\
  (forall (root : JsMemory.Properties) (path content : string),
      List.last (FileSystem.normalize path) EmptyString <> "__proto__"%string ->
      JsMemory.readFile path root = Normal content ->
      JsMemory.readFile path (JsMemory.deleteEntry path root)
      = Throw (Error ("File not found: " ++ path)))
  /\
  (forall (root : JsMemory.Properties) (content : string),
      fst (JsMemory.memoryWriteFile "__proto__" content root) = Normal tt
      /\ JsMemory.readFile "__proto__"
           (JsMemory.deleteEntry "__proto__"
              (snd (JsMemory.memoryWriteFile "__proto__" content root)))
         = Normal content).
Proof.
  split; [|split; [exact js_delete_then_read | exact js_proto_file_survives_delete]].
  intros path content w Hread Hkeyed _.
  unfold FileSystem.readFile in Hread. unfold FileSystem.deleteEntry.
  destruct (FileSystem.provider w) eqn:Hprovider.
  - (* native *)
    unfold FileSystem.getFileHandleNative in Hread.
    destruct (FileSystem.pop (FileSystem.normalize path)) as [[name|] init] eqn:Hpop;
      [|discriminate].
    unfold FileSystem.onRootHandle in Hread.
    destruct (FileSystem.rootHandle w) as [root|] eqn:Hroot; [|discriminate].
    destruct (FileSystem.nativeWalk init (FileSystem.nativeFileText name) root)
      as [r root1] eqn:Hwalk.
    simpl in Hread. subst r.
    destruct (nativeRemove_read _ _ _ _ _ Hwalk) as (root' & Hremove & Hgone).
    unfold FileSystem.bind, FileSystem.onRootHandle. simpl. rewrite Hroot, Hremove.
    eexists. split; [reflexivity|].
    split; [|split].
    + unfold FileSystem.readFile. simpl. rewrite Hprovider.
      unfold FileSystem.getFileHandleNative. rewrite Hpop.
      unfold FileSystem.onRootHandle. simpl.
      destruct (FileSystem.nativeWalk init (FileSystem.nativeFileText name) root')
        as [r2 root2]. exact Hgone.
    + simpl. apply table_get_remove_same.
    + intros query. apply ranked_without_path.
      * simpl. apply table_Forall_remove. exact Hkeyed.
      * simpl. apply table_get_remove_same.
  - (* memory *)
    destruct (FileSystem.getMemoryEntry w path) as [[fileName c|d ch]|] eqn:Hentry;
      try discriminate.
    assert (Hne : FileSystem.normalize path <> []).
    { intros Hnil. unfold FileSystem.getMemoryEntry in Hentry.
      rewrite Hnil in Hentry. discriminate. }
    destruct (pop_nonempty _ Hne) as (init & name & Hparts & Hpop).
    rewrite Hpop.
    unfold FileSystem.getMemoryEntry in *.
    rewrite (normalize_parent _ _ _ Hparts).
    rewrite Hparts in Hentry.
    destruct (walk_parent _ _ _ _ Hentry) as (dirName & children & Hdir & Hget).
    rewrite Hdir.
    eexists. split; [reflexivity|].
    split; [|split].
    + unfold FileSystem.readFile. simpl. rewrite Hprovider.
      unfold FileSystem.getMemoryEntry. simpl.
      rewrite Hparts, (modifyDir_removed _ _ _ _ _ _ Hdir). reflexivity.
    + simpl. apply table_get_remove_same.
    + intros query. apply ranked_without_path.
      * simpl. apply table_Forall_remove. exact Hkeyed.
      * simpl. apply table_get_remove_same.
Qed.

(** The source file of [builtWorkspace] is found by a search for its symbol,
    and is gone from the file system and from the search after its deletion. *)
Lemma delete_then_read_and_search_witness :
  Knowledge.search (FileSystem.index FsSpec.builtWorkspace) "function app"
  = ["FILE: src/App.tsx | RELEVANCE: [Symbol match: Function: App] Contains 1 definitions including App..."%string;
     "FILE: dist/app.js | RELEVANCE: [Symbol match: Var: app] Contains 1 definitions including app..."%string]
  /\
  exists w',
    FileSystem.deleteEntry "src/App.tsx" FsSpec.builtWorkspace = (Normal tt, w')
    /\ fst (FileSystem.readFile "src/App.tsx" w')
       = Throw (Error "File not found: src/App.tsx")
    /\ Knowledge.search (FileSystem.index w') "function app"
       = ["FILE: dist/app.js | RELEVANCE: [Symbol match: Var: app] Contains 1 definitions including app..."%string].
Proof.
  split; [vm_compute; reflexivity|].
  destruct delete_then_read_and_search as (Hdeleted & _ & _).
  destruct (Hdeleted "src/App.tsx"%string "function App() {}"%string FsSpec.builtWorkspace)
    as (w' & Hdelete & Hread & _ & Hsearch).
  - vm_compute. reflexivity.
  - unfold FsSpec.wellKeyed. vm_compute. repeat constructor.
  - intros _. vm_compute. discriminate.
  - exists w'. split; [exact Hdelete|]. split; [exact Hread|].
    assert (Hw' : w' = snd (FileSystem.deleteEntry "src/App.tsx" FsSpec.builtWorkspace)).
    { rewrite Hdelete. reflexivity. }
    rewrite Hw'. vm_compute. reflexivity.
Defined.

(** C10. On the memory backend, when the parent directory of [p] exists and
    [p] does not, the [deleteFile] tool still reports success and [notify] is
    called exactly once more, with a delete event for [p]; the file tree is
    left as it was and the listener of the code index has run on the event. *)
Theorem delete_missing_entry_notifies
  (host : Host) (path : string) (init : list string) (name dirName : string)
  (children : FileSystem.Children) (w : FileSystem.World) :
  FileSystem.provider w = FileSystem.memory ->
  FileSystem.normalize path = init ++ [name] ->
  FileSystem.walk init (FsSpec.memoryRootEntry w)
  = Some (FileSystem.MemoryDirectory dirName children) ->
  FileSystem.getMemoryEntry w path = None ->
  exists w',
    Tools.executeTool host (Tools.deleteFile path) w = (Tools.Success, w')
    /\ FileSystem.notified w'
       = FileSystem.notified w
         ++ [ {| FileSystem.changeType := FileSystem.delete;
                 FileSystem.changePath := path;
                 FileSystem.changeContent := None |} ]
    /\ FileSystem.memoryRoot w' = FileSystem.memoryRoot w
    /\ FileSystem.index w' = Knowledge.removeFile (FileSystem.index w) path.
Proof.
  intros Hprovider Hparts Hdir Hmissing.
  unfold Tools.executeTool, Tools.dispatch, FileSystem.bind, FileSystem.deleteEntry.
  rewrite Hprovider, Hparts, pop_snoc.
  unfold FileSystem.getMemoryEntry in *.
  rewrite (normalize_parent _ _ _ Hparts).
  unfold FsSpec.memoryRootEntry in Hdir. rewrite Hdir.
  assert (Hget : Table.get children name = None).
  { rewrite Hparts, walk_app, Hdir in Hmissing. simpl in Hmissing.
    destruct (Table.get children name); [discriminate | reflexivity]. }
  eexists. split; [reflexivity|].
  split; [reflexivity|].
  split; [|reflexivity].
  simpl. apply (modifyDir_absent _ _ _ _ _ _ Hdir Hget).
Qed.

(** Deleting a file that was never written, next to the workspace's README. *)
Lemma delete_missing_entry_notifies_witness :
  exists w',
    Tools.executeTool Agent.sampleHost (Tools.deleteFile "ghost.txt") FsSpec.memoryWorkspace
    = (Tools.Success, w')
    /\ FileSystem.notified w'
       = FileSystem.notified FsSpec.memoryWorkspace
         ++ [ {| FileSystem.changeType := FileSystem.delete;
                 FileSystem.changePath := "ghost.txt";
                 FileSystem.changeContent := None |} ].
Proof.
  destruct (delete_missing_entry_notifies Agent.sampleHost "ghost.txt" [] "ghost.txt"
              "root" (FileSystem.memoryRoot FsSpec.memoryWorkspace)
              FsSpec.memoryWorkspace)
    as (w' & Hrun & Hnotified & _); try (vm_compute; reflexivity).
  exists w'. split; [exact Hrun | exact Hnotified].
Defined.

(** C6. When the validator reports a syntax error for the content of a
    [writeFile] call (which it only does for a [.js], [.jsx], [.ts] or [.tsx]
    path), the tool returns an [{ error }] result and the world is the one
    before the call: every later read, of that path or of any other, sees
    what it saw before, a missing file included. *)
Theorem writeFile_rejected_leaves_world
  (host : Host) (path content message : string) (w : FileSystem.World) :
  Syntax.validate host content path = Some message ->
  message <> EmptyString ->
  Syntax.isScriptFile path = true
  /\ Tools.executeTool host (Tools.writeFile path content) w
     = (Tools.ErrorResult ("Syntax Error: " ++ message), w)
  /\ FileSystem.readFile path
       (snd (Tools.executeTool host (Tools.writeFile path content) w))
     = FileSystem.readFile path w.
Proof.
  intros Hvalidate Hmessage.
  assert (Hrun : Tools.executeTool host (Tools.writeFile path content) w
                 = (Tools.ErrorResult ("Syntax Error: " ++ message), w)).
  { unfold Tools.executeTool, Tools.dispatch. rewrite Hvalidate.
    destruct message as [|c rest]; [congruence|]. reflexivity. }
  split; [|split].
  - unfold Syntax.validate in Hvalidate.
    destruct (Syntax.isScriptFile path); [reflexivity | discriminate].
  - exact Hrun.
  - rewrite Hrun. reflexivity.
Qed.

(** A rejected overwrite of an existing file, and a rejected creation. *)
Lemma writeFile_rejected_leaves_world_witness :
  fst (FileSystem.readFile "src/App.tsx"
         (snd (Tools.executeTool Agent.sampleHost
                 (Tools.writeFile "src/App.tsx" "function @@") FsSpec.builtWorkspace)))
  = Normal "function App() {}"%string
  /\
  fst (FileSystem.readFile "new.js"
         (snd (Tools.executeTool Agent.sampleHost
                 (Tools.writeFile "new.js" "@@") FsSpec.builtWorkspace)))
  = Throw (Error "File not found: new.js").
Proof.
  split.
  - destruct (writeFile_rejected_leaves_world Agent.sampleHost "src/App.tsx" "function @@"
                "unknown: Unexpected token (1:0)" FsSpec.builtWorkspace)
      as (_ & _ & Hread).
    + vm_compute. reflexivity.
    + discriminate.
    + rewrite Hread. vm_compute. reflexivity.
  - destruct (writeFile_rejected_leaves_world Agent.sampleHost "new.js" "@@"
                "unknown: Unexpected token (1:0)" FsSpec.builtWorkspace)
      as (_ & _ & Hread).
    + vm_compute. reflexivity.
    + discriminate.
    + rewrite Hread. vm_compute. reflexivity.
Defined.

(* --------------------------------------------------------------------- *)
(** ** [searchFiles] *)

(** Induction on an entry with the hypothesis available for every child. *)
Lemma MemoryEntry_children_ind (P : FileSystem.MemoryEntry -> Prop) :
  (forall name content, P (FileSystem.MemoryFile name content)) ->
  (forall name children,
      Forall (fun item => P (snd item)) children ->
      P (FileSystem.MemoryDirectory name children)) ->
  forall entry, P entry.
Proof.
  intros Hfile Hdir.
  refine (fix IH (entry : FileSystem.MemoryEntry) : P entry :=
            match entry with
            | FileSystem.MemoryFile name content => Hfile name content
            | FileSystem.MemoryDirectory name children =>
                Hdir name children
                  ((fix all (items : list (string * FileSystem.MemoryEntry))
                      : Forall (fun item => P (snd item)) items :=
                      match items with
                      | [] => Forall_nil _
                      | item :: rest => Forall_cons item (IH (snd item)) (all rest)
                      end) children)
            end).
Qed.

Lemma traverse_sound backend lowerQuery dir :
  forall path result,
    In result (FileSystem.traverse backend lowerQuery dir path) ->
    exists p name fileName content,
      FsSpec.Visible backend dir path p name (FileSystem.MemoryFile fileName content)
      /\ JsString.includes (JsString.toLowerCase name) lowerQuery = true
      /\ result = ("[NAME] " ++ p)%string.
Proof.
  induction dir as [name content|dirName children IH] using MemoryEntry_children_ind;
    intros path result Hin; simpl in Hin.
  - contradiction.
  - apply in_flat_map in Hin. destruct Hin as ([key entry] & Hitem & Hresult).
    rewrite Forall_forall in IH. specialize (IH _ Hitem). simpl in IH.
    destruct (String.eqb (FileSystem.listedName backend key entry) "node_modules"
              || JsString.startsWith (FileSystem.listedName backend key entry) ".")
      eqn:Hskip; [contradiction|].
    destruct entry as [fileName content|subName sub].
    + destruct (JsString.includes _ lowerQuery) eqn:Hmatch; [|contradiction].
      destruct Hresult as [<-|[]].
      eexists _, _, fileName, content. split; [|split; [exact Hmatch | reflexivity]].
      apply FsSpec.visible_here; assumption.
    + destruct (IH _ _ Hresult) as (p & name & fileName & content & Hvis & Hmatch & ->).
      exists p, name, fileName, content. split; [|split; [exact Hmatch | reflexivity]].
      eapply FsSpec.visible_below; eassumption.
Qed.

Lemma traverse_complete backend lowerQuery dir path p name entry :
  FsSpec.Visible backend dir path p name entry ->
  forall fileName content,
    entry = FileSystem.MemoryFile fileName content ->
    JsString.includes (JsString.toLowerCase name) lowerQuery = true ->
    In ("[NAME] " ++ p)%string (FileSystem.traverse backend lowerQuery dir path).
Proof.
  induction 1 as [dirName children path key entry Hitem Hskip
                 |dirName children path key subName sub p name entry Hitem Hskip Hvis IH];
    intros fileName content Hentry Hmatch; simpl.
  - apply in_flat_map. exists (key, entry). split; [exact Hitem|].
    unfold FsSpec.skippedBySearch in Hskip. rewrite Hskip.
    subst entry. rewrite Hmatch. left. reflexivity.
  - apply in_flat_map. exists (key, FileSystem.MemoryDirectory subName sub).
    split; [exact Hitem|].
    unfold FsSpec.skippedBySearch in Hskip. rewrite Hskip.
    apply (IH _ _ Hentry Hmatch).
Qed.

(** C9 (as amended).  [searchFiles(query)] returns, labelled with [[NAME]],
    the paths of exactly the files whose name contains the query as a
    case-insensitive substring and that a walk from the root reaches without
    entering or stopping at a name that is [node_modules] or begins with a
    dot.  Only names of files are matched.  Of the directories excluded by the
    recursive lister, [node_modules], [.git] and [.next] are skipped, [dist]
    and [build] are searched. *)
Theorem searchFiles_visible_name_matches (query result : string) (w : FileSystem.World) :
  (In result (FileSystem.searchFiles query "" w) <->
   exists root p name fileName content,
     FileSystem.getRootHandle w = Some root
     /\ FsSpec.Visible (FileSystem.provider w) root "" p name
          (FileSystem.MemoryFile fileName content)
     /\ JsString.includes (JsString.toLowerCase name) (JsString.toLowerCase query) = true
     /\ result = ("[NAME] " ++ p)%string)
  /\ (forall name,
        FsSpec.skippedBySearch name = true <->
        name = "node_modules"%string \/ JsString.startsWith name "." = true)
  /\ map FsSpec.skippedBySearch FileSystem.heavyDirectories
     = [true; true; false; false; true].
Proof.
  split; [|split].
  - unfold FileSystem.searchFiles. split.
    + destruct (FileSystem.getRootHandle w) as [root|]; [|intros []].
      intros Hin. apply traverse_sound in Hin.
      destruct Hin as (p & name & fileName & content & Hvis & Hmatch & Hres).
      exists root, p, name, fileName, content. repeat split; assumption.
    + intros (root & p & name & fileName & content & Hroot & Hvis & Hmatch & ->).
      rewrite Hroot. eapply traverse_complete; [exact Hvis | reflexivity | exact Hmatch].
  - intros name. unfold FsSpec.skippedBySearch. rewrite orb_true_iff, String.eqb_eq.
    reflexivity.
  - reflexivity.
Qed.

(** The source file of [builtWorkspace], found through the characterization. *)
Lemma searchFiles_visible_name_matches_witness :
  In "[NAME] src/App.tsx"%string (FileSystem.searchFiles "APP" "" FsSpec.builtWorkspace).
Proof.
  apply (searchFiles_visible_name_matches "APP" "[NAME] src/App.tsx" FsSpec.builtWorkspace).
  exists (FsSpec.memoryRootEntry FsSpec.builtWorkspace),
         "src/App.tsx"%string, "App.tsx"%string, "App.tsx"%string,
         "function App() {}"%string.
  split; [reflexivity|].
  split; [|split; [vm_compute; reflexivity | reflexivity]].
  eapply FsSpec.visible_below with
    (key := "src"%string) (subName := "src"%string)
    (sub := [("App.tsx"%string, FileSystem.MemoryFile "App.tsx" "function App() {}")]).
  - vm_compute. right. left. reflexivity.
  - vm_compute. reflexivity.
  - apply FsSpec.visible_here with
      (key := "App.tsx"%string)
      (entry := FileSystem.MemoryFile "App.tsx" "function App() {}").
    + left. reflexivity.
    + vm_compute. reflexivity.
Defined.

(** C9, the claim as written fails on [builtWorkspace]: the search enters
    [dist], which the recursive lister leaves unexpanded, and it does not
    return the matching file [.env]. *)
Lemma searchFiles_enters_dist_and_skips_dot_files :
  FileSystem.searchFiles "app" "" FsSpec.builtWorkspace
  = ["[NAME] src/App.tsx"; "[NAME] dist/app.js"]%string
  /\
  In (FileSystem.Node "dist" FileSystem.directory "dist" (Some []))
     (FileSystem.readDirectoryRecursive (localeCompare Agent.sampleHost) FileSystem.memory
        (FsSpec.memoryRootEntry FsSpec.builtWorkspace) "")
  /\
  fst (FileSystem.readFile ".env" FsSpec.builtWorkspace) = Normal "KEY=1"%string
  /\
  FileSystem.searchFiles "env" "" FsSpec.builtWorkspace = [].
Proof.
  split; [vm_compute; reflexivity|].
  split; [vm_compute; tauto|].
  split; vm_compute; reflexivity.
Qed.

(* --------------------------------------------------------------------- *)
(** ** AgentOrchestrator *)

Lemma runTools_counters host calls :
  forall run,
    Agent.providerCalls (snd (Agent.runTools host calls run)) = Agent.providerCalls run
    /\ Agent.rounds (snd (Agent.runTools host calls run)) = Agent.rounds run
    /\ Agent.toolsStarted (snd (Agent.runTools host calls run))
       = Agent.toolsStarted run + List.length calls.
Proof.
  induction calls as [|fc rest IH]; intros run; simpl.
  - split; [reflexivity | split; [reflexivity | lia]].
  - unfold Agent.runTool.
    destruct (Tools.executeTool host (Agent.requested fc) (Agent.world run)) as [result w'].
    match goal with
    | |- context [Agent.runTools host rest ?r] =>
        destruct (IH r) as (Hcalls & Hrounds & Htools);
        destruct (Agent.runTools host rest r) as [responses run2]
    end.
    simpl in *. repeat split; try assumption. lia.
Qed.

Lemma chatSendMessage_counters remote run :
  Agent.rounds (snd (Agent.chatSendMessage remote run)) = Agent.rounds run
  /\ Agent.providerCalls (snd (Agent.chatSendMessage remote run))
     = S (Agent.providerCalls run).
Proof.
  unfold Agent.chatSendMessage. destruct (remote _); simpl; split; reflexivity.
Qed.

Lemma fetchCompletion_rounds remote signal run :
  Agent.rounds (snd (Agent.fetchCompletion remote signal run)) = Agent.rounds run.
Proof.
  unfold Agent.fetchCompletion.
  destruct (Agent.aborted signal run); [reflexivity|].
  destruct (remote _); reflexivity.
Qed.

Lemma googleLoop_step host remote remaining response run :
  Agent.googleLoop host remote (S remaining) response run
  = match Agent.functionCalls response with
    | [] => (Normal (Agent.orEmpty (Agent.responseText response)), run)
    | _ :: _ =>
        match Agent.chatSendMessage remote
                (Agent.endRound (snd (Agent.runTools host (Agent.functionCalls response) run)))
        with
        | (Normal response', run2) => Agent.googleLoop host remote remaining response' run2
        | (Throw e, run2) => (Throw e, run2)
        end
    end.
Proof.
  simpl. destruct (Agent.functionCalls response) as [|fc rest]; [reflexivity|].
  destruct (Agent.runTools host (fc :: rest) run). reflexivity.
Qed.

Lemma googleLoop_done host remote response run :
  Agent.googleLoop host remote 0 response run
  = (Normal (Agent.orEmpty (Agent.responseText response)), run).
Proof.
  simpl. destruct (Agent.functionCalls response); reflexivity.
Qed.

Lemma openAILoop_step host remote signal remaining run :
  Agent.openAILoop host remote signal (S remaining) run
  = match Agent.fetchCompletion remote signal run with
    | (Throw e, run1) => (Throw e, run1)
    | (Normal msg, run1) =>
        match Agent.functionCalls msg with
        | _ :: _ =>
            Agent.openAILoop host remote signal remaining
              (Agent.endRound (snd (Agent.runTools host (Agent.functionCalls msg) run1)))
        | [] => (Normal (Agent.orEmpty (Agent.responseText msg)), run1)
        end
    end.
Proof.
  simpl. destruct (Agent.fetchCompletion remote signal run) as [[msg|e] run1];
    [|reflexivity].
  destruct (Agent.functionCalls msg) as [|fc rest]; [reflexivity|].
  destruct (Agent.runTools host (fc :: rest) run1). reflexivity.
Qed.

(** The loop of the Google branch makes at most [remaining] round-trips. *)
Lemma googleLoop_rounds host remote remaining :
  forall response run,
    Agent.rounds (snd (Agent.googleLoop host remote remaining response run))
    <= Agent.rounds run + remaining.
Proof.
  induction remaining as [|remaining IH]; intros response run.
  - rewrite googleLoop_done. simpl. lia.
  - rewrite googleLoop_step.
    destruct (Agent.functionCalls response) as [|fc rest] eqn:Hcalls; [simpl; lia|].
    destruct (runTools_counters host (fc :: rest) run) as (_ & Hrounds & _).
    set (run1 := snd (Agent.runTools host (fc :: rest) run)) in *.
    destruct (chatSendMessage_counters remote (Agent.endRound run1)) as (Hr & _).
    destruct (Agent.chatSendMessage remote (Agent.endRound run1)) as [[response'|e] run2];
      cbn [fst snd Agent.rounds Agent.endRound] in Hr.
    + specialize (IH response' run2). lia.
    + cbn [snd]. lia.
Qed.

(** The loop of the OpenAI-compatible branch makes at most [remaining]
    round-trips. *)
Lemma openAILoop_rounds host remote signal remaining :
  forall run,
    Agent.rounds (snd (Agent.openAILoop host remote signal remaining run))
    <= Agent.rounds run + remaining.
Proof.
  induction remaining as [|remaining IH]; intros run.
  - simpl. lia.
  - rewrite openAILoop_step.
    pose proof (fetchCompletion_rounds remote signal run) as Hfetch.
    destruct (Agent.fetchCompletion remote signal run) as [[msg|e] run1];
      cbn [fst snd] in *; [|lia].
    destruct (Agent.functionCalls msg) as [|fc rest]; [cbn [snd]; lia|].
    destruct (runTools_counters host (fc :: rest) run1) as (_ & Hrounds & _).
    set (run2 := snd (Agent.runTools host (fc :: rest) run1)) in *.
    specialize (IH (Agent.endRound run2)).
    cbn [Agent.rounds Agent.endRound] in IH. lia.
Qed.

Lemma sendMessage_rounds host remote provider signal w :
  Agent.rounds (snd (Agent.sendMessage host remote provider signal (Agent.startOfRun w)))
  <= Agent.maxTurns.
Proof.
  unfold Agent.sendMessage.
  destruct provider; cbn [Agent.isOpenAICompatible];
    try (apply (openAILoop_rounds host remote signal Agent.maxTurns (Agent.startOfRun w)));
    try (simpl; lia).
  destruct (chatSendMessage_counters remote (Agent.startOfRun w)) as (Hr & _).
  destruct (Agent.chatSendMessage remote (Agent.startOfRun w)) as [[response|e] run1];
    cbn [fst snd] in *; [|simpl in *; lia].
  pose proof (googleLoop_rounds host remote Agent.maxTurns response run1).
  simpl in Hr. lia.
Qed.

(** Against a provider that always asks for tools, the OpenAI-compatible loop
    uses all its turns and returns the sentinel. *)
Lemma openAILoop_insatiable host remote remaining :
  Agent.alwaysRequestsTools remote ->
  forall run,
    exists run',
      Agent.openAILoop host remote None remaining run
      = (Normal "Max turns reached"%string, run')
      /\ Agent.rounds run' = Agent.rounds run + remaining
      /\ Agent.providerCalls run' = Agent.providerCalls run + remaining.
Proof.
  intros Halways. induction remaining as [|remaining IH]; intros run.
  - exists run. simpl. split; [reflexivity | split; lia].
  - rewrite openAILoop_step. unfold Agent.fetchCompletion. cbn [Agent.aborted].
    destruct (Halways (Agent.providerCalls run)) as (response & Hreply & Hcalls).
    rewrite Hreply.
    destruct (Agent.functionCalls response) as [|fc rest] eqn:Hfc; [congruence|].
    destruct (runTools_counters host (fc :: rest) (Agent.issueRequest run))
      as (Hpc & Hrounds & _).
    set (run2 := snd (Agent.runTools host (fc :: rest) (Agent.issueRequest run))) in *.
    destruct (IH (Agent.endRound run2)) as (run' & Hrun & Hr & Hp).
    exists run'. cbn [Agent.rounds Agent.providerCalls Agent.endRound Agent.issueRequest] in *.
    split; [exact Hrun | split; lia].
Qed.

(** Against such a provider the Google loop also uses all its turns, and
    then returns the text of the last response it received. *)
Lemma googleLoop_insatiable host remote remaining :
  Agent.alwaysRequestsTools remote ->
  forall response run,
    Agent.functionCalls response <> [] ->
    exists final run',
      Agent.googleLoop host remote remaining response run
      = (Normal (Agent.orEmpty (Agent.responseText final)), run')
      /\ match remaining with
         | O => final = response
         | S _ => remote (Agent.providerCalls run + remaining - 1) = Agent.Answered final
         end
      /\ Agent.rounds run' = Agent.rounds run + remaining
      /\ Agent.providerCalls run' = Agent.providerCalls run + remaining.
Proof.
  intros Halways. induction remaining as [|remaining IH]; intros response run Hcalls.
  - exists response, run. rewrite googleLoop_done.
    split; [reflexivity | split; [reflexivity | split; lia]].
  - rewrite googleLoop_step.
    destruct (Agent.functionCalls response) as [|fc rest] eqn:Hfc; [congruence|].
    destruct (runTools_counters host (fc :: rest) run) as (Hpc & Hrounds & _).
    set (run1 := snd (Agent.runTools host (fc :: rest) run)) in *.
    unfold Agent.chatSendMessage.
    cbn [Agent.providerCalls Agent.endRound].
    destruct (Halways (Agent.providerCalls run1)) as (response' & Hreply & Hcalls').
    rewrite Hreply.
    destruct (IH response' (Agent.issueRequest (Agent.endRound run1)) Hcalls')
      as (final & run' & Hrun & Hfinal & Hr & Hp).
    exists final, run'.
    cbn [Agent.rounds Agent.providerCalls Agent.endRound Agent.issueRequest] in *.
    split; [exact Hrun|]. split; [|split; lia].
    destruct remaining as [|remaining'].
    + subst final. rewrite <- Hreply. f_equal. lia.
    + rewrite <- Hfinal. f_equal. lia.
Qed.

(** C1.  On every branch the loop makes at most five tool round-trips and
    returns.  Against a provider that asks for tools in every response, the
    OpenAI-compatible branch returns the sentinel after five round-trips and
    five requests; the Google branch makes five round-trips and six requests
    and returns the text of the sixth response (the empty string when it has
    none), not the sentinel. *)
Theorem sendMessage_turn_ceiling :
  (forall host remote provider signal w,
      Agent.rounds (snd (Agent.sendMessage host remote provider signal (Agent.startOfRun w)))
      <= 5)
  /\
  (forall host remote provider w,
      Agent.alwaysRequestsTools remote ->
      Agent.isOpenAICompatible provider = true ->
      exists run',
        Agent.sendMessage host remote provider None (Agent.startOfRun w)
        = (Normal "Max turns reached"%string, run')
        /\ Agent.rounds run' = 5 /\ Agent.providerCalls run' = 5)
  /\
  (forall host remote signal w final,
      Agent.alwaysRequestsTools remote ->
      remote 5 = Agent.Answered final ->
      exists run',
        Agent.sendMessage host remote Agent.google signal (Agent.startOfRun w)
        = (Normal (Agent.orEmpty (Agent.responseText final)), run')
        /\ Agent.rounds run' = 5 /\ Agent.providerCalls run' = 6)
  /\
  fst (Agent.sendMessage Agent.sampleHost Agent.insatiable Agent.google None
         (Agent.startOfRun FsSpec.memoryWorkspace))
  = Normal EmptyString.
Proof.
  split; [intros; apply sendMessage_rounds|].
  split; [|split].
  - intros host remote provider w Halways Hcompat.
    destruct (openAILoop_insatiable host remote Agent.maxTurns Halways (Agent.startOfRun w))
      as (run' & Hrun & Hr & Hp).
    exists run'. simpl in Hr, Hp.
    destruct provider; try discriminate; (split; [exact Hrun | split; assumption]).
  - intros host remote signal w final Halways Hfinal.
    unfold Agent.sendMessage, Agent.chatSendMessage. simpl.
    destruct (Halways 0) as (response & Hreply & Hcalls). rewrite Hreply.
    destruct (googleLoop_insatiable host remote Agent.maxTurns Halways response
                (Agent.issueRequest (Agent.startOfRun w)) Hcalls)
      as (final' & run' & Hrun & Hlast & Hr & Hp).
    simpl in Hlast, Hr, Hp. rewrite Hfinal in Hlast. injection Hlast as <-.
    exists run'. split; [exact Hrun | split; assumption].
  - vm_compute. reflexivity.
Qed.

Lemma insatiable_always : Agent.alwaysRequestsTools Agent.insatiable.
Proof.
  intros n. eexists. split; [reflexivity | discriminate].
Qed.

(** The two branches against the provider [insatiable]. *)
Lemma sendMessage_turn_ceiling_witness :
  (exists run',
      Agent.sendMessage Agent.sampleHost Agent.insatiable Agent.groq None
        (Agent.startOfRun FsSpec.memoryWorkspace)
      = (Normal "Max turns reached"%string, run')
      /\ Agent.rounds run' = 5 /\ Agent.providerCalls run' = 5)
  /\
  (exists run',
      Agent.sendMessage Agent.sampleHost Agent.insatiable Agent.google None
        (Agent.startOfRun FsSpec.memoryWorkspace)
      = (Normal EmptyString, run')
      /\ Agent.rounds run' = 5 /\ Agent.providerCalls run' = 6).
Proof.
  destruct sendMessage_turn_ceiling as (_ & Hopen & Hgoogle & _).
  split.
  - apply Hopen; [exact insatiable_always | reflexivity].
  - apply (Hgoogle Agent.sampleHost Agent.insatiable None FsSpec.memoryWorkspace
             {| Agent.responseText := None;
                Agent.functionCalls :=
                  [ {| Agent.callId := "call_0";
                       Agent.requested := Tools.searchCodebase "parser" |} ] |}).
    + exact insatiable_always.
    + reflexivity.
Defined.

(** C2.  On the OpenAI-compatible branch a fired signal makes the next
    request fail before it is sent, and the run ends in [Aborted] with no
    further provider request.  The Google branch never reads the signal: its
    run is the same whether the signal fires or not, and with the signal
    fired during the first tool dispatch it issues a further request and ends
    in [Done]. *)
Theorem sendMessage_cancellation :
  (forall host remote signal remaining run,
      Agent.aborted signal run = true ->
      Agent.openAILoop host remote signal (S remaining) run
      = (Throw Agent.abortError, run)
      /\ Agent.terminal (Throw Agent.abortError) = Agent.Aborted)
  /\
  (forall host remote signal run,
      Agent.sendMessage host remote Agent.google signal run
      = Agent.sendMessage host remote Agent.google None run)
  /\
  (let run := Agent.sendMessage Agent.sampleHost Agent.oneToolThenAnswer Agent.groq
                (Some 1) (Agent.startOfRun FsSpec.memoryWorkspace) in
   Agent.terminal (fst run) = Agent.Aborted
   /\ Agent.requestsAfterFirstTool (Agent.events (snd run)) false = 0)
  /\
  (let run := Agent.sendMessage Agent.sampleHost Agent.oneToolThenAnswer Agent.google
                (Some 1) (Agent.startOfRun FsSpec.memoryWorkspace) in
   Agent.terminal (fst run) = Agent.Done "done"
   /\ Agent.requestsAfterFirstTool (Agent.events (snd run)) false = 1).
Proof.
  split; [|split; [|split]].
  - intros host remote signal remaining run Haborted. simpl.
    unfold Agent.fetchCompletion. rewrite Haborted. split; reflexivity.
  - reflexivity.
  - vm_compute. split; reflexivity.
  - vm_compute. split; reflexivity.
Qed.

(** A run of the OpenAI-compatible loop entered with the signal fired. *)
Lemma sendMessage_cancellation_witness :
  Agent.openAILoop Agent.sampleHost Agent.oneToolThenAnswer (Some 0) 5
    (Agent.startOfRun FsSpec.memoryWorkspace)
  = (Throw Agent.abortError, Agent.startOfRun FsSpec.memoryWorkspace).
Proof.
  apply (proj1 sendMessage_cancellation Agent.sampleHost Agent.oneToolThenAnswer (Some 0) 4
           (Agent.startOfRun FsSpec.memoryWorkspace)).
  reflexivity.
Defined.

(* --------------------------------------------------------------------- *)
(** ** Reachable worlds keep the index keyed by path *)

Lemma onRootHandle_index {A : Type}
  (op : FileSystem.Children -> Completion A * FileSystem.Children) w :
  FileSystem.index (snd (FileSystem.onRootHandle op w)) = FileSystem.index w.
Proof.
  unfold FileSystem.onRootHandle.
  destruct (FileSystem.rootHandle w) as [root|]; [|reflexivity].
  destruct (op root). reflexivity.
Qed.

Lemma readFile_index path w :
  FileSystem.index (snd (FileSystem.readFile path w)) = FileSystem.index w.
Proof.
  unfold FileSystem.readFile.
  destruct (FileSystem.provider w).
  - unfold FileSystem.getFileHandleNative.
    destruct (FileSystem.pop (FileSystem.normalize path)) as [[name|] init];
      [apply onRootHandle_index | reflexivity].
  - destruct (FileSystem.getMemoryEntry w path) as [[n c|n ch]|]; reflexivity.
Qed.

Lemma readMultipleFiles_index paths :
  forall results w,
    FileSystem.index (snd (FileSystem.readMultipleFiles paths results w))
    = FileSystem.index w.
Proof.
  induction paths as [|p rest IH]; intros results w; simpl.
  - reflexivity.
  - pose proof (readFile_index p w) as Hread.
    destruct (FileSystem.readFile p w) as [[content|e] w1]; simpl in Hread;
      rewrite IH; exact Hread.
Qed.

Lemma wellKeyed_writeFile path content w :
  FsSpec.wellKeyed (FileSystem.index w) ->
  FsSpec.wellKeyed (FileSystem.index (snd (FileSystem.writeFile path content w))).
Proof.
  intros Hkeyed. unfold FileSystem.writeFile.
  destruct (FileSystem.provider w).
  - destruct (FileSystem.pop (FileSystem.normalize path)) as [popped init].
    unfold FileSystem.bind.
    pose proof (onRootHandle_index
                  (FileSystem.nativeWrite init (FileSystem.hostName popped) content) w)
      as Hindex.
    destruct (FileSystem.onRootHandle _ w) as [[[]|e] w1]; simpl in Hindex.
    + apply wellKeyed_notify. rewrite Hindex. exact Hkeyed.
    + simpl. rewrite Hindex. exact Hkeyed.
  - unfold FileSystem.memoryWriteFile.
    destruct (FileSystem.pop (FileSystem.normalize path)) as [[fileName|] init];
      [|exact Hkeyed].
    destruct (FileSystem.ensureMemoryDir _ _ _); [|exact Hkeyed].
    apply wellKeyed_notify. exact Hkeyed.
Qed.

Lemma wellKeyed_deleteEntry path w :
  FsSpec.wellKeyed (FileSystem.index w) ->
  FsSpec.wellKeyed (FileSystem.index (snd (FileSystem.deleteEntry path w))).
Proof.
  intros Hkeyed. unfold FileSystem.deleteEntry.
  destruct (FileSystem.provider w).
  - destruct (FileSystem.pop (FileSystem.normalize path)) as [popped init].
    unfold FileSystem.bind.
    pose proof (onRootHandle_index
                  (FileSystem.nativeWalk init
                     (FileSystem.nativeRemoveEntry (FileSystem.hostName popped))) w)
      as Hindex.
    destruct (FileSystem.onRootHandle _ w) as [[[]|e] w1]; simpl in Hindex.
    + apply wellKeyed_notify. rewrite Hindex. exact Hkeyed.
    + simpl. rewrite Hindex. exact Hkeyed.
  - destruct (FileSystem.pop (FileSystem.normalize path)) as [[name|] init];
      [|exact Hkeyed].
    destruct (FileSystem.getMemoryEntry w _) as [[n c|n ch]|]; try exact Hkeyed.
    apply wellKeyed_notify. exact Hkeyed.
Qed.

Lemma createDirectory_index path w :
  FileSystem.index (snd (FileSystem.createDirectory path w)) = FileSystem.index w.
Proof.
  unfold FileSystem.createDirectory.
  destruct (FileSystem.provider w); [apply onRootHandle_index|].
  destruct (FileSystem.ensureMemoryDir _ _ _); reflexivity.
Qed.

(** No tool call breaks the keying of the index. *)
Lemma wellKeyed_executeTool host call w :
  FsSpec.wellKeyed (FileSystem.index w) ->
  FsSpec.wellKeyed (FileSystem.index (snd (Tools.executeTool host call w))).
Proof.
  intros Hkeyed. unfold Tools.executeTool.
  destruct call as [path|path|paths|path content|path|path|query|query|command
                   |entryPoint|url|name]; simpl.
  - exact Hkeyed.
  - unfold FileSystem.bind. pose proof (readFile_index path w) as Hindex.
    destruct (FileSystem.readFile path w) as [[content|e] w1]; simpl in *;
      rewrite Hindex; exact Hkeyed.
  - unfold FileSystem.bind. pose proof (readMultipleFiles_index paths [] w) as Hindex.
    destruct (FileSystem.readMultipleFiles paths [] w) as [[results|e] w1]; simpl in *;
      rewrite Hindex; exact Hkeyed.
  - assert (Hwrite :
        FsSpec.wellKeyed
          (FileSystem.index
             (snd (match FileSystem.bind (FileSystem.writeFile path content)
                           (fun _ => FileSystem.ret Tools.Success) w with
                   | (Normal result, w') => (result, w')
                   | (Throw e, w') => (Tools.ErrorResult (errorMessage e), w')
                   end)))).
    { unfold FileSystem.bind.
      pose proof (wellKeyed_writeFile path content w Hkeyed) as Hw.
      destruct (FileSystem.writeFile path content w) as [[[]|e] w1]; exact Hw. }
    destruct (Syntax.validate host content path) as [message|]; [|exact Hwrite].
    destruct (String.length message =? 0)%nat; [exact Hwrite | exact Hkeyed].
  - unfold FileSystem.bind. pose proof (createDirectory_index path w) as Hindex.
    destruct (FileSystem.createDirectory path w) as [[[]|e] w1]; simpl in *;
      rewrite Hindex; exact Hkeyed.
  - unfold FileSystem.bind.
    pose proof (wellKeyed_deleteEntry path w Hkeyed) as Hw.
    destruct (FileSystem.deleteEntry path w) as [[[]|e] w1]; exact Hw.
  - exact Hkeyed.
  - exact Hkeyed.
  - exact Hkeyed.
  - destruct (generatePreviewUrl host _); exact Hkeyed.
  - destruct (fetchContents host url); exact Hkeyed.
  - exact Hkeyed.
Qed.

Lemma wellKeyed_initialWorld : FsSpec.wellKeyed (FileSystem.index FileSystem.initialWorld).
Proof. constructor. Qed.

(** A line break inside a string value: the strict parse fails and the retry
    with the line break escaped succeeds. *)
Example extractJsonCandidates_newline_retry :
  let text := chars "note: {'a':'x" ++ [JsonRecovery.LF] ++ chars "y'}" in
  (forall v, JsonModel.JSON_parse (chars "{'a':'x" ++ [JsonRecovery.LF] ++ chars "y'}")
             <> Normal v)
  /\ JsonRecovery.extractJsonCandidates JsonModel.JSON_parse text
     = Normal [ JsonModel.JObject
                  [("a"%string,
                    JsonModel.JString (String "x" (String JsonRecovery.LF (String "y" EmptyString))))] ].
Proof.
  split; [intros v; vm_compute; discriminate | vm_compute; reflexivity].
Qed.

(** After a directory has been deleted, the index still holds the entries of
    the files that were below it; deleting such a path again sends no
    notification on the memory backend. *)
Example deleteEntry_directory_keeps_entries_below :
  let w1 := snd (FileSystem.deleteEntry "src" FsSpec.builtWorkspace) in
  let w2 := snd (FileSystem.deleteEntry "src/App.tsx" w1) in
  fst (FileSystem.readFile "src/App.tsx" w1) = Throw (Error "File not found: src/App.tsx")
  /\ FileSystem.notified w2 = FileSystem.notified w1
  /\ In "src/App.tsx"%string (map Knowledge.resultPath
                               (Knowledge.ranked (FileSystem.index w2) "App")).
Proof.
  vm_compute. split; [reflexivity | split; [reflexivity | tauto]].
Qed.

(* ===================================================================== *)
(** * Part III. Further properties of the modelled code                    *)
(* ===================================================================== *)

(* --------------------------------------------------------------------- *)
(** ** ContextPruner: the budget *)

Section PrunerBudget.
Import ContextPruner.
Variable Msg : Type.
Variable JSON_stringify : Msg -> string.

Lemma totalLength_nonneg (msgs : list Msg) :
  (0 <= totalLength JSON_stringify msgs)%Z.
Proof.
  induction msgs as [|m rest IH]; unfold totalLength in *; simpl.
  - lia.
  - unfold jsonLength at 1. lia.
Qed.

Lemma totalLength_cons (m : Msg) (rest : list Msg) :
  totalLength JSON_stringify (m :: rest)
  = (jsonLength JSON_stringify m + totalLength JSON_stringify rest)%Z.
Proof. reflexivity. Qed.

(** When everything still to visit fits, the walk takes all of it. *)
Lemma taken_all maxChars (toVisit : list Msg) :
  forall c,
    (c + totalLength JSON_stringify toVisit <= maxChars)%Z ->
    takenWhileFits JSON_stringify maxChars toVisit c = toVisit.
Proof.
  induction toVisit as [|m rest IH]; intros c Hfit; simpl.
  - reflexivity.
  - rewrite totalLength_cons in Hfit.
    pose proof (totalLength_nonneg rest) as Hrest.
    destruct (Z.gtb_spec (c + jsonLength JSON_stringify m) maxChars) as [Hcmp|Hcmp];
      [lia|].
    rewrite IH; [reflexivity | lia].
Qed.

(** X1. On a history of more than two messages the serialized size of the
    result is at most the budget, unless the first and the last message
    alone exceed it, in which case it is their size. *)
Theorem pruneMessages_total_within_budget
  (first lastm : Msg) (interior : list Msg) (maxChars : Z) :
  interior <> [] ->
  (totalLength JSON_stringify
     (pruneMessages JSON_stringify (first :: interior ++ [lastm]) maxChars)
   <= Z.max maxChars (jsonLength JSON_stringify first + jsonLength JSON_stringify lastm))%Z.
Proof.
  intros Hne. rewrite (prune_long _ JSON_stringify _ _ _ _ Hne).
  set (seed := (jsonLength JSON_stringify first + jsonLength JSON_stringify lastm)%Z).
  rewrite totalLength_cons, total_app, total_rev.
  replace (totalLength JSON_stringify [lastm]) with (jsonLength JSON_stringify lastm)
    by (unfold totalLength; simpl; lia).
  destruct (takenWhileFits JSON_stringify maxChars (rev interior) seed)
    as [|m kept] eqn:Htaken.
  - unfold totalLength at 1. simpl. fold seed. lia.
  - assert (Hin : (seed + totalLength JSON_stringify (m :: kept) <= maxChars)%Z).
    { apply (taken_within _ JSON_stringify maxChars (rev interior) seed (m :: kept) []).
      - rewrite app_nil_r. exact Htaken.
      - discriminate. }
    subst seed. lia.
Qed.

(** X2. A history whose serialized size is within the budget is returned as
    it is. *)
Theorem pruneMessages_keeps_history_that_fits (messages : list Msg) (maxChars : Z) :
  (totalLength JSON_stringify messages <= maxChars)%Z ->
  pruneMessages JSON_stringify messages maxChars = messages.
Proof.
  intros Hfit.
  destruct (le_lt_dec (List.length messages) 2) as [Hshort|Hlong].
  - apply prune_short. exact Hshort.
  - destruct (long_history_shape _ _ Hlong) as (first & interior & lastm & -> & Hne).
    rewrite (prune_long _ JSON_stringify _ _ _ _ Hne).
    rewrite totalLength_cons, total_app in Hfit.
    replace (totalLength JSON_stringify [lastm]) with (jsonLength JSON_stringify lastm) in Hfit
      by (unfold totalLength; simpl; lia).
    rewrite taken_all.
    + rewrite rev_involutive. reflexivity.
    + rewrite total_rev. lia.
Qed.

End PrunerBudget.

(** The sample history under budgets of 200 and of 1000 characters. *)
Lemma pruneMessages_total_within_budget_witness :
  (ContextPruner.totalLength ContextPruner.renderTurn
     (ContextPruner.pruneMessages ContextPruner.renderTurn ContextPruner.sampleHistory 200)
   <= 200)%Z.
Proof.
  pose proof (pruneMessages_total_within_budget _ ContextPruner.renderTurn
                (ContextPruner.Build_ChatTurn "user" "build the parser")
                (ContextPruner.Build_ChatTurn "user" "add tests")
                (removelast (tl ContextPruner.sampleHistory)) 200
                ltac:(discriminate)) as H.
  exact H.
Defined.

Lemma pruneMessages_keeps_history_that_fits_witness :
  ContextPruner.pruneMessages ContextPruner.renderTurn ContextPruner.sampleHistory 1000
  = ContextPruner.sampleHistory.
Proof.
  apply pruneMessages_keeps_history_that_fits. vm_compute. discriminate.
Defined.

(* --------------------------------------------------------------------- *)
(** ** VirtualFileSystem: what a read sees, and the tree an operation leaves *)

Lemma reach_memory_walk parts :
  forall current, FsTree.reach FileSystem.memory parts current = FileSystem.walk parts current.
Proof.
  induction parts as [|part rest IH]; intros current; simpl.
  - reflexivity.
  - destruct current as [n c|n children]; [reflexivity|].
    destruct (Table.get children part); [apply IH | reflexivity].
Qed.

Lemma reach_app backend parts more :
  forall current,
    FsTree.reach backend (parts ++ more) current
    = match FsTree.reach backend parts current with
      | Some reached => FsTree.reach backend more reached
      | None => None
      end.
Proof.
  induction parts as [|part rest IH]; intros current; simpl.
  - reflexivity.
  - destruct current as [n c|n children]; [reflexivity|].
    destruct (FsTree.nameAccepted backend part); [|reflexivity].
    destruct (Table.get children part); [apply IH | reflexivity].
Qed.

(** The native read, in terms of [reach]. *)
Lemma nativeRead_reach name content parts :
  forall dir rootName,
    fst (FileSystem.nativeWalk parts (FileSystem.nativeFileText name) dir) = Normal content
    <-> exists fileName,
        FsTree.reach FileSystem.native (parts ++ [name])
          (FileSystem.MemoryDirectory rootName dir)
        = Some (FileSystem.MemoryFile fileName content).
Proof.
  induction parts as [|part rest IH]; intros dir rootName; simpl.
  - unfold FileSystem.nativeFileText.
    destruct (FileSystem.validName name); simpl.
    + destruct (Table.get dir name) as [[n c|n ch]|]; simpl; split.
      * intros H. injection H as ->. exists n. reflexivity.
      * intros [fileName H]. injection H as _ ->. reflexivity.
      * discriminate.
      * intros [fileName H]. discriminate.
      * discriminate.
      * intros [fileName H]. discriminate.
    + split; [discriminate | intros [fileName H]; discriminate].
  - destruct (FileSystem.validName part); simpl.
    + destruct (Table.get dir part) as [[n c|dirName sub]|]; simpl.
      * split; [discriminate|]. intros [fileName H].
        destruct (rest ++ [name]) eqn:Heq; [destruct rest; discriminate | discriminate].
      * specialize (IH sub dirName).
        destruct (FileSystem.nativeWalk rest (FileSystem.nativeFileText name) sub)
          as [r sub']. exact IH.
      * split; [discriminate | intros [fileName H]; discriminate].
    + split; [discriminate | intros [fileName H]; discriminate].
Qed.

Lemma withRootHandle_same w root :
  FileSystem.rootHandle w = Some root -> FileSystem.withRootHandle w (Some root) = w.
Proof.
  destruct w. simpl. intros ->. reflexivity.
Qed.

Lemma withMemoryRoot_same w :
  FileSystem.withMemoryRoot w (FileSystem.memoryRoot w) = w.
Proof. destruct w. reflexivity. Qed.

(** [readFile] returns exactly the content of the file at the path. *)
Lemma readFile_fileAt path content w :
  fst (FileSystem.readFile path w) = Normal content <-> FsTree.fileAt w path = Some content.
Proof.
  unfold FileSystem.readFile, FsTree.fileAt, FsTree.activeTree.
  destruct (FileSystem.provider w).
  - (* native *)
    unfold FileSystem.getFileHandleNative.
    destruct (FileSystem.normalize path) as [|p ps] eqn:Hnorm.
    + simpl. destruct (FileSystem.rootHandle w); split; discriminate.
    + destruct (pop_nonempty (p :: ps) ltac:(discriminate)) as (init & name & Hparts & Hpop).
      rewrite Hpop, Hparts. unfold FileSystem.onRootHandle.
      destruct (FileSystem.rootHandle w) as [root|]; [|split; discriminate].
      pose proof (nativeRead_reach name content init root "") as Hreach.
      destruct (FileSystem.nativeWalk init (FileSystem.nativeFileText name) root)
        as [r root'].
      simpl in *. split.
      * intros H. apply Hreach in H. destruct H as [fileName H]. rewrite H. reflexivity.
      * intros H. apply Hreach.
        destruct (FsTree.reach FileSystem.native (init ++ [name]) _) as [[n c|n ch]|];
          try discriminate.
        injection H as ->. exists n. reflexivity.
  - (* memory *)
    unfold FileSystem.getMemoryEntry. rewrite reach_memory_walk.
    destruct (FileSystem.normalize path) as [|p ps]; [simpl; split; discriminate|].
    simpl.
    destruct (Table.get (FileSystem.memoryRoot w) p) as [next|]; [|split; discriminate].
    destruct (FileSystem.walk ps next) as [[n c|n ch]|]; simpl.
    + split; intros H; injection H as ->; reflexivity.
    + split; discriminate.
    + split; discriminate.
Qed.

(** A read changes nothing. *)
Lemma nativeWalk_read_same name parts :
  forall dir, snd (FileSystem.nativeWalk parts (FileSystem.nativeFileText name) dir) = dir.
Proof.
  induction parts as [|part rest IH]; intros dir; simpl.
  - unfold FileSystem.nativeFileText.
    destruct (FileSystem.validName name); [|reflexivity].
    destruct (Table.get dir name) as [[n c|n ch]|]; reflexivity.
  - destruct (FileSystem.validName part); [|reflexivity].
    destruct (Table.get dir part) as [[n c|dirName sub]|] eqn:Hget; try reflexivity.
    specialize (IH sub).
    destruct (FileSystem.nativeWalk rest (FileSystem.nativeFileText name) sub) as [r sub'].
    simpl in *. subst sub'. apply table_set_same_value. exact Hget.
Qed.

Lemma readFile_same_world path w : snd (FileSystem.readFile path w) = w.
Proof.
  unfold FileSystem.readFile.
  destruct (FileSystem.provider w).
  - unfold FileSystem.getFileHandleNative.
    destruct (FileSystem.pop (FileSystem.normalize path)) as [[name|] init]; [|reflexivity].
    unfold FileSystem.onRootHandle.
    destruct (FileSystem.rootHandle w) as [root|] eqn:Hroot; [|reflexivity].
    pose proof (nativeWalk_read_same name init root) as Hsame.
    destruct (FileSystem.nativeWalk init (FileSystem.nativeFileText name) root) as [r root'].
    simpl in *. subst root'. apply withRootHandle_same. exact Hroot.
  - destruct (FileSystem.getMemoryEntry w path) as [[n c|n ch]|]; reflexivity.
Qed.

Lemma table_set_set {V : Type} (table : list (string * V)) key v1 v2 :
  Table.set (Table.set table key v1) key v2 = Table.set table key v2.
Proof.
  induction table as [|[k v] rest IH]; simpl.
  - rewrite String.eqb_refl. reflexivity.
  - destruct (String.eqb k key) eqn:Hk; simpl; rewrite Hk; [reflexivity|].
    rewrite IH. reflexivity.
Qed.

(** The trees left by the operations that return. *)
Lemma ensureDirs_graft parts finish :
  forall current root',
    FileSystem.ensureDirs parts finish current = Normal root' ->
    root' = FsTree.graft parts finish current.
Proof.
  induction parts as [|part rest IH]; intros current root' Hrun; simpl in *.
  - injection Hrun as <-. reflexivity.
  - destruct (Table.get current part) as [[n c|name sub]|] eqn:Hget.
    + rewrite Hget in Hrun. discriminate.
    + rewrite Hget in Hrun.
      destruct (FileSystem.ensureDirs rest finish sub) as [sub'|e] eqn:Hrest;
        simpl in Hrun; [|discriminate].
      injection Hrun as <-. rewrite (IH _ _ Hrest). reflexivity.
    + rewrite table_get_set_same in Hrun.
      destruct (FileSystem.ensureDirs rest finish []) as [sub'|e] eqn:Hrest;
        simpl in Hrun; [|discriminate].
      injection Hrun as <-. rewrite (IH _ _ Hrest).
      apply table_set_set.
Qed.

Lemma nativeWrite_graft fileName content parts :
  forall dir dir',
    FileSystem.nativeWrite parts fileName content dir = (Normal tt, dir') ->
    dir' = FsTree.graft parts
             (fun d => Table.set d fileName (FileSystem.MemoryFile fileName content)) dir.
Proof.
  induction parts as [|part rest IH]; intros dir dir' Hrun; simpl in *.
  - destruct (FileSystem.validName fileName); [|discriminate].
    destruct (Table.get dir fileName) as [[n c|n ch]|]; try discriminate;
      injection Hrun as <-; reflexivity.
  - destruct (FileSystem.validName part); [|discriminate].
    destruct (Table.get dir part) as [[n c|name sub]|]; try discriminate.
    + destruct (FileSystem.nativeWrite rest fileName content sub) as [r sub'] eqn:Hrest.
      injection Hrun as -> <-. rewrite (IH _ _ Hrest). reflexivity.
    + destruct (FileSystem.nativeWrite rest fileName content []) as [r sub'] eqn:Hrest.
      injection Hrun as -> <-. rewrite (IH _ _ Hrest). reflexivity.
Qed.

Lemma nativeCreateDirs_graft parts :
  forall dir dir',
    FileSystem.nativeCreateDirs parts dir = (Normal tt, dir') ->
    dir' = FsTree.graft parts (fun d => d) dir.
Proof.
  induction parts as [|part rest IH]; intros dir dir' Hrun; simpl in *.
  - injection Hrun as <-. reflexivity.
  - destruct (FileSystem.validName part); [|discriminate].
    destruct (Table.get dir part) as [[n c|name sub]|]; try discriminate.
    + destruct (FileSystem.nativeCreateDirs rest sub) as [r sub'] eqn:Hrest.
      injection Hrun as -> <-. rewrite (IH _ _ Hrest). reflexivity.
    + destruct (FileSystem.nativeCreateDirs rest []) as [r sub'] eqn:Hrest.
      injection Hrun as -> <-. rewrite (IH _ _ Hrest). reflexivity.
Qed.

Lemma nativeRemove_modifyDir name parts :
  forall dir dir',
    FileSystem.nativeWalk parts (FileSystem.nativeRemoveEntry name) dir = (Normal tt, dir') ->
    dir' = FileSystem.modifyDir parts (fun d => Table.remove d name) dir.
Proof.
  induction parts as [|part rest IH]; intros dir dir' Hrun; simpl in *.
  - unfold FileSystem.nativeRemoveEntry in Hrun.
    destruct (FileSystem.validName name); [|discriminate].
    destruct (Table.get dir name); [|discriminate].
    injection Hrun as <-. reflexivity.
  - destruct (FileSystem.validName part); [|discriminate].
    destruct (Table.get dir part) as [[n c|dirName sub]|]; try discriminate.
    destruct (FileSystem.nativeWalk rest (FileSystem.nativeRemoveEntry name) sub)
      as [r sub'] eqn:Hrest.
    injection Hrun as -> <-. rewrite (IH _ _ Hrest). reflexivity.
Qed.

(** A file that the change does not address is found unchanged in the
    grafted tree: [finish] must leave alone the key under which the path of
    the file continues, where that path goes through the changed directory. *)
Lemma graft_frame backend parts finish :
  forall q dir rootName fileName content,
    (forall d key q', q = parts ++ key :: q' -> Table.get (finish d) key = Table.get d key) ->
    FsTree.reach backend q (FileSystem.MemoryDirectory rootName dir)
    = Some (FileSystem.MemoryFile fileName content) ->
    FsTree.reach backend q (FileSystem.MemoryDirectory rootName (FsTree.graft parts finish dir))
    = Some (FileSystem.MemoryFile fileName content).
Proof.
  induction parts as [|part rest IH]; intros q dir rootName fileName content Hfinish Hreach.
  - destruct q as [|key q']; [discriminate|].
    simpl in *. destruct (FsTree.nameAccepted backend key); [|discriminate].
    rewrite (Hfinish dir key q' eq_refl). exact Hreach.
  - destruct q as [|key q']; [discriminate|].
    simpl in *. destruct (FsTree.nameAccepted backend key); [|discriminate].
    destruct (string_dec part key) as [->|Hne].
    + destruct (Table.get dir key) as [[n c|name sub]|] eqn:Hget; try discriminate.
      * rewrite Hget. exact Hreach.
      * rewrite table_get_set_same.
        destruct q' as [|key' q'']; [discriminate|].
        apply IH; [|exact Hreach].
        intros d k q3 Heq. apply (Hfinish d k q3). simpl. rewrite Heq. reflexivity.
    + destruct (Table.get dir part) as [[n c|name sub]|] eqn:Hget.
      * exact Hreach.
      * rewrite table_get_set_other by exact Hne. exact Hreach.
      * rewrite table_get_set_other by exact Hne. exact Hreach.
Qed.

Lemma modifyDir_frame backend parts finish :
  forall q dir rootName fileName content,
    (forall d key q', q = parts ++ key :: q' -> Table.get (finish d) key = Table.get d key) ->
    FsTree.reach backend q (FileSystem.MemoryDirectory rootName dir)
    = Some (FileSystem.MemoryFile fileName content) ->
    FsTree.reach backend q
      (FileSystem.MemoryDirectory rootName (FileSystem.modifyDir parts finish dir))
    = Some (FileSystem.MemoryFile fileName content).
Proof.
  induction parts as [|part rest IH]; intros q dir rootName fileName content Hfinish Hreach.
  - destruct q as [|key q']; [discriminate|].
    simpl in *. destruct (FsTree.nameAccepted backend key); [|discriminate].
    rewrite (Hfinish dir key q' eq_refl). exact Hreach.
  - destruct q as [|key q']; [discriminate|].
    simpl in *. destruct (FsTree.nameAccepted backend key); [|discriminate].
    destruct (string_dec part key) as [->|Hne].
    + destruct (Table.get dir key) as [[n c|name sub]|] eqn:Hget; try discriminate.
      * rewrite Hget. exact Hreach.
      * rewrite table_get_set_same.
        destruct q' as [|key' q'']; [discriminate|].
        apply IH; [|exact Hreach].
        intros d k q3 Heq. apply (Hfinish d k q3). simpl. rewrite Heq. reflexivity.
    + destruct (Table.get dir part) as [[n c|name sub]|] eqn:Hget.
      * exact Hreach.
      * rewrite table_get_set_other by exact Hne. exact Hreach.
      * exact Hreach.
Qed.

(** Nothing is reached at or below a name that has been deleted. *)
Lemma modifyDir_gone backend name more parts :
  forall dir rootName,
    FsTree.reach backend (parts ++ name :: more)
      (FileSystem.MemoryDirectory rootName
         (FileSystem.modifyDir parts (fun d => Table.remove d name) dir))
    = None.
Proof.
  induction parts as [|part rest IH]; intros dir rootName; simpl.
  - destruct (FsTree.nameAccepted backend name); [|reflexivity].
    rewrite table_get_remove_same. reflexivity.
  - destruct (FsTree.nameAccepted backend part); [|reflexivity].
    destruct (Table.get dir part) as [[n c|dirName sub]|] eqn:Hget.
    + rewrite Hget. destruct rest; reflexivity.
    + rewrite table_get_set_same. apply IH.
    + rewrite Hget. reflexivity.
Qed.

Lemma modifyDir_unreached parts change :
  forall dir rootName,
    (forall name children,
        FileSystem.walk parts (FileSystem.MemoryDirectory rootName dir)
        <> Some (FileSystem.MemoryDirectory name children)) ->
    FileSystem.modifyDir parts change dir = dir.
Proof.
  induction parts as [|part rest IH]; intros dir rootName Hnot; simpl in *.
  - elim (Hnot rootName dir). reflexivity.
  - destruct (Table.get dir part) as [[n c|name sub]|] eqn:Hget; try reflexivity.
    rewrite (IH sub name Hnot). apply table_set_same_value. exact Hget.
Qed.

Lemma writeFile_effect path content w w' init name :
  FileSystem.writeFile path content w = (Normal tt, w') ->
  FileSystem.normalize path = init ++ [name] ->
  FileSystem.provider w' = FileSystem.provider w
  /\ exists root,
      FsTree.activeTree w = Some root
      /\ FsTree.activeTree w'
         = Some (FsTree.graft init
                   (fun d => Table.set d name (FileSystem.MemoryFile name content)) root).
Proof.
  intros Hwrite Hparts. unfold FileSystem.writeFile in Hwrite. unfold FsTree.activeTree.
  destruct (FileSystem.provider w) eqn:Hprovider.
  - rewrite Hparts, pop_snoc in Hwrite. simpl in Hwrite.
    unfold FileSystem.bind, FileSystem.onRootHandle in Hwrite.
    destruct (FileSystem.rootHandle w) as [root|]; [|discriminate].
    destruct (FileSystem.nativeWrite init name content root) as [r root'] eqn:Hnative.
    destruct r as [[]|e]; [|discriminate].
    injection Hwrite as <-. simpl. rewrite Hprovider. split; [reflexivity|].
    exists root. split; [reflexivity|].
    rewrite (nativeWrite_graft _ _ _ _ _ Hnative). reflexivity.
  - unfold FileSystem.memoryWriteFile in Hwrite.
    rewrite Hparts, pop_snoc in Hwrite.
    unfold FileSystem.ensureMemoryDir in Hwrite.
    rewrite (normalize_parent _ _ _ Hparts) in Hwrite.
    destruct (FileSystem.ensureDirs init _ (FileSystem.memoryRoot w)) as [root'|e] eqn:Hrun;
      [|discriminate].
    injection Hwrite as <-. simpl. rewrite Hprovider. split; [reflexivity|].
    exists (FileSystem.memoryRoot w). split; [reflexivity|].
    rewrite (ensureDirs_graft _ _ _ _ Hrun). reflexivity.
Qed.

Lemma deleteEntry_effect path w w' init name :
  FileSystem.deleteEntry path w = (Normal tt, w') ->
  FileSystem.normalize path = init ++ [name] ->
  FileSystem.provider w' = FileSystem.provider w
  /\ exists root,
      FsTree.activeTree w = Some root
      /\ FsTree.activeTree w'
         = Some (FileSystem.modifyDir init (fun d => Table.remove d name) root).
Proof.
  intros Hdelete Hparts. unfold FileSystem.deleteEntry in Hdelete. unfold FsTree.activeTree.
  destruct (FileSystem.provider w) eqn:Hprovider.
  - rewrite Hparts, pop_snoc in Hdelete. simpl in Hdelete.
    unfold FileSystem.bind, FileSystem.onRootHandle in Hdelete.
    destruct (FileSystem.rootHandle w) as [root|]; [|discriminate].
    destruct (FileSystem.nativeWalk init (FileSystem.nativeRemoveEntry name) root)
      as [r root'] eqn:Hnative.
    destruct r as [[]|e]; [|discriminate].
    injection Hdelete as <-. simpl. rewrite Hprovider. split; [reflexivity|].
    exists root. split; [reflexivity|].
    rewrite (nativeRemove_modifyDir _ _ _ _ Hnative). reflexivity.
  - rewrite Hparts, pop_snoc in Hdelete.
    unfold FileSystem.getMemoryEntry in Hdelete.
    rewrite (normalize_parent _ _ _ Hparts) in Hdelete.
    destruct (FileSystem.walk init _) as [[n c|n ch]|] eqn:Hwalk.
    + injection Hdelete as <-. rewrite Hprovider. split; [reflexivity|].
      exists (FileSystem.memoryRoot w). split; [reflexivity|].
      rewrite (modifyDir_unreached init _ _ "root"); [reflexivity|].
      intros name' children. rewrite Hwalk. discriminate.
    + injection Hdelete as <-. simpl. rewrite Hprovider. split; [reflexivity|].
      exists (FileSystem.memoryRoot w). split; reflexivity.
    + injection Hdelete as <-. rewrite Hprovider. split; [reflexivity|].
      exists (FileSystem.memoryRoot w). split; [reflexivity|].
      rewrite (modifyDir_unreached init _ _ "root"); [reflexivity|].
      intros name' children. rewrite Hwalk. discriminate.
Qed.

Lemma createDirectory_effect path w w' :
  FileSystem.createDirectory path w = (Normal tt, w') ->
  FileSystem.provider w' = FileSystem.provider w
  /\ FileSystem.notified w' = FileSystem.notified w
  /\ FileSystem.index w' = FileSystem.index w
  /\ exists root,
      FsTree.activeTree w = Some root
      /\ FsTree.activeTree w'
         = Some (FsTree.graft (FileSystem.normalize path) (fun d => d) root).
Proof.
  intros Hcreate. unfold FileSystem.createDirectory in Hcreate. unfold FsTree.activeTree.
  destruct (FileSystem.provider w) eqn:Hprovider.
  - unfold FileSystem.onRootHandle in Hcreate.
    destruct (FileSystem.rootHandle w) as [root|]; [|discriminate].
    destruct (FileSystem.nativeCreateDirs (FileSystem.normalize path) root)
      as [r root'] eqn:Hnative.
    injection Hcreate as -> <-. simpl. rewrite Hprovider.
    repeat split. exists root. split; [reflexivity|].
    rewrite (nativeCreateDirs_graft _ _ _ Hnative). reflexivity.
  - unfold FileSystem.ensureMemoryDir in Hcreate.
    destruct (FileSystem.ensureDirs _ _ (FileSystem.memoryRoot w)) as [root'|e] eqn:Hrun;
      [|discriminate].
    injection Hcreate as <-. simpl. rewrite Hprovider.
    repeat split. exists (FileSystem.memoryRoot w). split; [reflexivity|].
    rewrite (ensureDirs_graft _ _ _ _ Hrun). reflexivity.
Qed.

Lemma fileAt_tree w w' path :
  FileSystem.provider w' = FileSystem.provider w ->
  FsTree.fileAt w' path
  = match FsTree.activeTree w' with
    | Some root =>
        match FsTree.reach (FileSystem.provider w) (FileSystem.normalize path)
                (FileSystem.MemoryDirectory "" root) with
        | Some (FileSystem.MemoryFile _ content) => Some content
        | _ => None
        end
    | None => None
    end.
Proof.
  intros Hprovider. unfold FsTree.fileAt. rewrite Hprovider. reflexivity.
Qed.

Lemma fileAt_reach w path content :
  FsTree.fileAt w path = Some content ->
  exists root fileName,
    FsTree.activeTree w = Some root
    /\ FsTree.reach (FileSystem.provider w) (FileSystem.normalize path)
         (FileSystem.MemoryDirectory "" root)
       = Some (FileSystem.MemoryFile fileName content).
Proof.
  unfold FsTree.fileAt. intros H.
  destruct (FsTree.activeTree w) as [root|]; [|discriminate].
  destruct (FsTree.reach _ _ _) as [[n c|n ch]|] eqn:Hreach; try discriminate.
  injection H as ->. exists root, n. split; [reflexivity | exact Hreach].
Qed.

(** X3. [writeFile] changes no other file: a file that could be read before
    the write, at a path that is neither the written path nor below it, is
    read with the same content after it, on both backends. *)
Theorem writeFile_preserves_other_files
  (path content other otherContent : string) (w w' : FileSystem.World) :
  FileSystem.writeFile path content w = (Normal tt, w') ->
  fst (FileSystem.readFile other w) = Normal otherContent ->
  ~ (exists rest, FileSystem.normalize other = FileSystem.normalize path ++ rest) ->
  fst (FileSystem.readFile other w') = Normal otherContent.
Proof.
  intros Hwrite Hread Hapart.
  destruct (FileSystem.normalize path) as [|p ps] eqn:Hnorm.
  { elim Hapart. exists (FileSystem.normalize other). reflexivity. }
  destruct (pop_nonempty (p :: ps) ltac:(discriminate)) as (init & name & Hparts & _).
  rewrite <- Hnorm in Hparts. rewrite <- Hnorm in Hapart.
  destruct (writeFile_effect _ _ _ _ _ _ Hwrite Hparts) as (Hprovider & root & Hroot & Hroot').
  apply readFile_fileAt in Hread. apply readFile_fileAt.
  destruct (fileAt_reach _ _ _ Hread) as (root0 & fileName & Hroot0 & Hreach).
  rewrite Hroot in Hroot0. injection Hroot0 as <-.
  rewrite (fileAt_tree w w' other Hprovider), Hroot'.
  rewrite (graft_frame _ _ _ _ _ _ fileName otherContent); [reflexivity | | exact Hreach].
  intros d key q' Hq.
  apply table_get_set_other. intros ->.
  apply Hapart. exists q'. rewrite Hq, Hparts, <- app_assoc. reflexivity.
Qed.

(** X4. [deleteEntry] removes nothing else: a file at a path that is
    neither the deleted path nor below it is read with the same content
    after the delete, on both backends. *)
Theorem deleteEntry_preserves_other_files
  (path other otherContent : string) (w w' : FileSystem.World) :
  FileSystem.deleteEntry path w = (Normal tt, w') ->
  fst (FileSystem.readFile other w) = Normal otherContent ->
  ~ (exists rest, FileSystem.normalize other = FileSystem.normalize path ++ rest) ->
  fst (FileSystem.readFile other w') = Normal otherContent.
Proof.
  intros Hdelete Hread Hapart.
  destruct (FileSystem.normalize path) as [|p ps] eqn:Hnorm.
  { elim Hapart. exists (FileSystem.normalize other). reflexivity. }
  destruct (pop_nonempty (p :: ps) ltac:(discriminate)) as (init & name & Hparts & _).
  rewrite <- Hnorm in Hparts. rewrite <- Hnorm in Hapart.
  destruct (deleteEntry_effect _ _ _ _ _ Hdelete Hparts)
    as (Hprovider & root & Hroot & Hroot').
  apply readFile_fileAt in Hread. apply readFile_fileAt.
  destruct (fileAt_reach _ _ _ Hread) as (root0 & fileName & Hroot0 & Hreach).
  rewrite Hroot in Hroot0. injection Hroot0 as <-.
  rewrite (fileAt_tree w w' other Hprovider), Hroot'.
  rewrite (modifyDir_frame _ _ _ _ _ _ fileName otherContent); [reflexivity | | exact Hreach].
  intros d key q' Hq.
  apply table_get_remove_other. intros ->.
  apply Hapart. exists q'. rewrite Hq, Hparts, <- app_assoc. reflexivity.
Qed.

(** X5. [deleteEntry] is recursive: once it has returned for a path whose
    last segment is not [__proto__] on the memory backend, no file can be
    read at the deleted path or anywhere below it, on both backends; on the
    plain objects of the memory backend this holds in every state of the
    tree.  (A file written under [__proto__] is the prototype of its
    directory object, which [delete] does not reach.) *)
Theorem deleteEntry_removes_subtree :
  (forall (path below : string) (rest : list string) (w w' : FileSystem.World),
      FileSystem.deleteEntry path w = (Normal tt, w') ->
      FileSystem.normalize path <> [] ->
      (FileSystem.provider w = FileSystem.memory ->
       List.last (FileSystem.normalize path) EmptyString <> "__proto__"%string) ->
      FileSystem.normalize below = FileSystem.normalize path ++ rest ->
      forall content, fst (FileSystem.readFile below w') <> Normal content)
  /\
  (forall (root : JsMemory.Properties) (path below : string) (rest : list string),
      FileSystem.normalize path <> [] ->
      List.last (FileSystem.normalize path) EmptyString <> "__proto__"%string ->
      FileSystem.normalize below = FileSystem.normalize path ++ rest ->
      forall content,
        JsMemory.readFile below (JsMemory.deleteEntry path root) <> Normal content).
Proof.
  split; [|exact js_delete_then_read_below].
  intros path below rest w w' Hdelete Hne _ Hbelow content Hread.
  destruct (pop_nonempty _ Hne) as (init & name & Hparts & _).
  destruct (deleteEntry_effect _ _ _ _ _ Hdelete Hparts)
    as (Hprovider & root & Hroot & Hroot').
  apply readFile_fileAt in Hread.
  rewrite (fileAt_tree w w' below Hprovider), Hroot', Hbelow, Hparts, <- app_assoc in Hread.
  simpl in Hread. rewrite modifyDir_gone in Hread. discriminate.
Qed.

(** X6. [createDirectory] changes no file and tells no listener: a file
    that could be read before is read with the same content after, and the
    notifications and the index are as before, on both backends. *)
Theorem createDirectory_preserves_files
  (path other otherContent : string) (w w' : FileSystem.World) :
  FileSystem.createDirectory path w = (Normal tt, w') ->
  fst (FileSystem.readFile other w) = Normal otherContent ->
  fst (FileSystem.readFile other w') = Normal otherContent
  /\ FileSystem.notified w' = FileSystem.notified w
  /\ FileSystem.index w' = FileSystem.index w.
Proof.
  intros Hcreate Hread.
  destruct (createDirectory_effect _ _ _ Hcreate)
    as (Hprovider & Hnotified & Hindex & root & Hroot & Hroot').
  split; [|split; assumption].
  apply readFile_fileAt in Hread. apply readFile_fileAt.
  destruct (fileAt_reach _ _ _ Hread) as (root0 & fileName & Hroot0 & Hreach).
  rewrite Hroot in Hroot0. injection Hroot0 as <-.
  rewrite (fileAt_tree w w' other Hprovider), Hroot'.
  rewrite (graft_frame _ _ _ _ _ _ fileName otherContent);
    [reflexivity | reflexivity | exact Hreach].
Qed.

Lemma writeFile_preserves_other_files_witness :
  fst (FileSystem.readFile "src/App.tsx"
         (snd (FileSystem.writeFile "src/lib/new.ts" "export {}" FsTree.nestedMemory)))
  = Normal "function App() {}"%string
  /\
  fst (FileSystem.readFile "src/lib/util.ts"
         (snd (FileSystem.writeFile "src/lib/new.ts" "export {}" FsTree.nestedNative)))
  = Normal "export const one = 1"%string.
Proof.
  split.
  - apply (writeFile_preserves_other_files "src/lib/new.ts" "export {}" "src/App.tsx"
             "function App() {}" FsTree.nestedMemory).
    + vm_compute. reflexivity.
    + vm_compute. reflexivity.
    + intros [rest Hrest]. vm_compute in Hrest. discriminate.
  - apply (writeFile_preserves_other_files "src/lib/new.ts" "export {}" "src/lib/util.ts"
             "export const one = 1" FsTree.nestedNative).
    + vm_compute. reflexivity.
    + vm_compute. reflexivity.
    + intros [rest Hrest]. vm_compute in Hrest. discriminate.
Defined.

Lemma deleteEntry_preserves_other_files_witness :
  fst (FileSystem.readFile "src/App.tsx"
         (snd (FileSystem.deleteEntry "src/lib" FsTree.nestedMemory)))
  = Normal "function App() {}"%string
  /\
  fst (FileSystem.readFile "README.md"
         (snd (FileSystem.deleteEntry "src" FsTree.nestedNative)))
  = Normal "# Project"%string.
Proof.
  split.
  - apply (deleteEntry_preserves_other_files "src/lib" "src/App.tsx" "function App() {}"
             FsTree.nestedMemory).
    + vm_compute. reflexivity.
    + vm_compute. reflexivity.
    + intros [rest Hrest]. vm_compute in Hrest. discriminate.
  - apply (deleteEntry_preserves_other_files "src" "README.md" "# Project"
             FsTree.nestedNative).
    + vm_compute. reflexivity.
    + vm_compute. reflexivity.
    + intros [rest Hrest]. vm_compute in Hrest. discriminate.
Defined.

Lemma deleteEntry_removes_subtree_witness :
  (forall content,
      fst (FileSystem.readFile "src/lib/util.ts"
             (snd (FileSystem.deleteEntry "./src" FsTree.nestedMemory)))
      <> Normal content)
  /\
  (forall content,
      fst (FileSystem.readFile "src/App.tsx"
             (snd (FileSystem.deleteEntry "src/" FsTree.nestedNative)))
      <> Normal content).
Proof.
  destruct deleteEntry_removes_subtree as (Hremoved & _).
  split.
  - apply (Hremoved "./src"%string "src/lib/util.ts"%string ["lib"; "util.ts"]%string
             FsTree.nestedMemory).
    + vm_compute. reflexivity.
    + vm_compute. discriminate.
    + intros _. vm_compute. discriminate.
    + vm_compute. reflexivity.
  - apply (Hremoved "src/"%string "src/App.tsx"%string ["App.tsx"]%string
             FsTree.nestedNative).
    + vm_compute. reflexivity.
    + vm_compute. discriminate.
    + intros Hmemory. vm_compute in Hmemory. discriminate.
    + vm_compute. reflexivity.
Defined.

Lemma createDirectory_preserves_files_witness :
  fst (FileSystem.readFile "src/lib/util.ts"
         (snd (FileSystem.createDirectory "src/lib/deep/er" FsTree.nestedMemory)))
  = Normal "export const one = 1"%string
  /\
  fst (FileSystem.readFile "src/App.tsx"
         (snd (FileSystem.createDirectory "assets/img" FsTree.nestedNative)))
  = Normal "function App() {}"%string.
Proof.
  split.
  - apply (createDirectory_preserves_files "src/lib/deep/er" "src/lib/util.ts"
             "export const one = 1" FsTree.nestedMemory).
    + vm_compute. reflexivity.
    + vm_compute. reflexivity.
  - apply (createDirectory_preserves_files "assets/img" "src/App.tsx"
             "function App() {}" FsTree.nestedNative).
    + vm_compute. reflexivity.
    + vm_compute. reflexivity.
Defined.

(* --------------------------------------------------------------------- *)
(** ** VirtualFileSystem: directories, collisions, equivalent paths *)

Lemma ensureDirs_again parts :
  forall current root',
    FileSystem.ensureDirs parts (fun d => d) current = Normal root' ->
    FileSystem.ensureDirs parts (fun d => d) root' = Normal root'.
Proof.
  induction parts as [|part rest IH]; intros current root' Hrun; simpl in *.
  - reflexivity.
  - set (current' :=
           match Table.get current part with
           | Some _ => current
           | None => Table.set current part (FileSystem.MemoryDirectory part [])
           end) in *.
    destruct (Table.get current' part) as [[n c|name children]|]; try discriminate.
    destruct (FileSystem.ensureDirs rest (fun d => d) children) as [children'|e] eqn:Hrest;
      simpl in Hrun; [|discriminate].
    injection Hrun as <-.
    rewrite table_get_set_same. rewrite table_get_set_same.
    rewrite (IH _ _ Hrest). simpl. rewrite table_set_set. reflexivity.
Qed.

Lemma nativeCreateDirs_again parts :
  forall dir dir',
    FileSystem.nativeCreateDirs parts dir = (Normal tt, dir') ->
    FileSystem.nativeCreateDirs parts dir' = (Normal tt, dir').
Proof.
  induction parts as [|part rest IH]; intros dir dir' Hrun; simpl in *.
  - injection Hrun as <-. reflexivity.
  - destruct (FileSystem.validName part); [|discriminate].
    destruct (Table.get dir part) as [[n c|name sub]|]; try discriminate.
    + destruct (FileSystem.nativeCreateDirs rest sub) as [r sub'] eqn:Hrest.
      injection Hrun as -> <-.
      rewrite table_get_set_same, (IH _ _ Hrest), table_set_set. reflexivity.
    + destruct (FileSystem.nativeCreateDirs rest []) as [r sub'] eqn:Hrest.
      injection Hrun as -> <-.
      rewrite table_get_set_same, (IH _ _ Hrest), table_set_set. reflexivity.
Qed.

(** X7. [createDirectory] is idempotent: creating a directory path that a
    previous call has created returns and leaves the world as it is, on both
    backends. *)
Theorem createDirectory_idempotent (path : string) (w w' : FileSystem.World) :
  FileSystem.createDirectory path w = (Normal tt, w') ->
  FileSystem.createDirectory path w' = (Normal tt, w').
Proof.
  intros Hcreate. unfold FileSystem.createDirectory in *.
  destruct (FileSystem.provider w) eqn:Hprovider.
  - unfold FileSystem.onRootHandle in Hcreate.
    destruct (FileSystem.rootHandle w) as [root|] eqn:Hroot; [|discriminate].
    destruct (FileSystem.nativeCreateDirs (FileSystem.normalize path) root)
      as [r root'] eqn:Hnative.
    injection Hcreate as -> <-. simpl. rewrite Hprovider.
    unfold FileSystem.onRootHandle. simpl.
    rewrite (nativeCreateDirs_again _ _ _ Hnative). reflexivity.
  - unfold FileSystem.ensureMemoryDir in *.
    destruct (FileSystem.ensureDirs _ _ (FileSystem.memoryRoot w)) as [root'|e] eqn:Hrun;
      [|discriminate].
    injection Hcreate as <-. simpl. rewrite Hprovider.
    rewrite (ensureDirs_again _ _ _ Hrun). reflexivity.
Qed.

Lemma createDirectory_idempotent_witness :
  let w' := snd (FileSystem.createDirectory "a/b/c" FsTree.nestedMemory) in
  FileSystem.createDirectory "a/b/c" w' = (Normal tt, w').
Proof.
  apply (createDirectory_idempotent "a/b/c" FsTree.nestedMemory).
  vm_compute. reflexivity.
Defined.

(** The loop of [ensureMemoryDir] stops at a file in the way. *)
Lemma ensureDirs_collision segment more finish before :
  forall current rootName dirName children fileName content,
    FileSystem.walk before (FileSystem.MemoryDirectory rootName current)
    = Some (FileSystem.MemoryDirectory dirName children) ->
    Table.get children segment = Some (FileSystem.MemoryFile fileName content) ->
    FileSystem.ensureDirs (before ++ segment :: more) finish current
    = Throw (Error ("Path collision: " ++ segment ++ " is a file.")).
Proof.
  induction before as [|part rest IH];
    intros current rootName dirName children fileName content Hwalk Hget.
  - simpl in Hwalk. injection Hwalk as _ <-. simpl. rewrite Hget, Hget. reflexivity.
  - destruct (walk_directory_step _ _ _ _ _ _ Hwalk) as (subName & sub & Hsub & Hrest).
    simpl. rewrite Hsub, Hsub.
    rewrite (IH _ _ _ _ _ _ Hrest Hget). reflexivity.
Qed.

(** X8. On the memory backend, a [writeFile] or a [createDirectory] whose
    path runs through an existing file throws [Path collision: <segment> is a
    file.] and leaves the world as it is; the tool reports the message as an
    error result. *)
Theorem memory_path_collision
  (host : Host) (path content : string) (before more : list string)
  (segment dirName fileName fileContent : string)
  (children : FileSystem.Children) (w : FileSystem.World) :
  FileSystem.provider w = FileSystem.memory ->
  FileSystem.normalize path = before ++ segment :: more ->
  more <> [] ->
  FileSystem.walk before (FsSpec.memoryRootEntry w)
  = Some (FileSystem.MemoryDirectory dirName children) ->
  Table.get children segment = Some (FileSystem.MemoryFile fileName fileContent) ->
  FileSystem.writeFile path content w
  = (Throw (Error ("Path collision: " ++ segment ++ " is a file.")), w)
  /\ FileSystem.createDirectory path w
     = (Throw (Error ("Path collision: " ++ segment ++ " is a file.")), w)
  /\ (Syntax.validate host content path = None ->
      Tools.executeTool host (Tools.writeFile path content) w
      = (Tools.ErrorResult ("Path collision: " ++ segment ++ " is a file."), w)).
Proof.
  intros Hprovider Hparts Hmore Hwalk Hget.
  destruct (exists_last Hmore) as (init' & name & ->).
  assert (Hparts' : FileSystem.normalize path = (before ++ segment :: init') ++ [name]).
  { rewrite Hparts, <- app_assoc. reflexivity. }
  assert (Hwrite : FileSystem.writeFile path content w
                   = (Throw (Error ("Path collision: " ++ segment ++ " is a file.")), w)).
  { unfold FileSystem.writeFile, FileSystem.memoryWriteFile. rewrite Hprovider.
    rewrite Hparts', pop_snoc. unfold FileSystem.ensureMemoryDir.
    rewrite (normalize_parent _ _ _ Hparts').
    unfold FsSpec.memoryRootEntry in Hwalk.
    rewrite (ensureDirs_collision _ _ _ _ _ _ _ _ _ _ Hwalk Hget). reflexivity. }
  split; [exact Hwrite|]. split.
  - unfold FileSystem.createDirectory, FileSystem.ensureMemoryDir. rewrite Hprovider, Hparts.
    unfold FsSpec.memoryRootEntry in Hwalk.
    rewrite (ensureDirs_collision _ _ _ _ _ _ _ _ _ _ Hwalk Hget). reflexivity.
  - intros Hvalid. unfold Tools.executeTool, Tools.dispatch. rewrite Hvalid.
    unfold FileSystem.bind. rewrite Hwrite. reflexivity.
Qed.

Lemma memory_path_collision_witness :
  FileSystem.writeFile "README.md/notes/today.txt" "x" FsSpec.memoryWorkspace
  = (Throw (Error "Path collision: README.md is a file."), FsSpec.memoryWorkspace).
Proof.
  apply (memory_path_collision Agent.sampleHost "README.md/notes/today.txt" "x"
           [] ["notes"; "today.txt"]%string "README.md" "root" "README.md"
           FileSystem.fallbackReadme (FileSystem.memoryRoot FsSpec.memoryWorkspace)
           FsSpec.memoryWorkspace);
    try (vm_compute; reflexivity).
  discriminate.
Defined.

(* --------------------------------------------------------------------- *)
(** ** VirtualFileSystem: batch reads, equivalent paths, the empty path *)

Lemma table_get_assignText_proto results key text :
  Table.get (FileSystem.assignText results key text) "__proto__"
  = Table.get results "__proto__".
Proof.
  unfold FileSystem.assignText.
  destruct (String.eqb_spec key "__proto__") as [->|Hkey]; [reflexivity|].
  apply table_get_set_other. exact Hkey.
Qed.

Lemma readMultipleFiles_fold paths :
  forall results w,
  exists out,
    FileSystem.readMultipleFiles paths results w = (Normal out, w)
    /\ (forall p, In p paths -> p <> "__proto__"%string ->
                  Table.get out p = Some (FsTree.readOrError w p))
    /\ (forall p, ~ In p paths -> Table.get out p = Table.get results p)
    /\ Table.get out "__proto__" = Table.get results "__proto__".
Proof.
  induction paths as [|path rest IH]; intros results w.
  - exists results. split; [reflexivity|].
    split; [intros p []|]. split; reflexivity.
  - simpl.
    pose proof (readFile_same_world path w) as Hsame.
    assert (Hstep : exists v,
               FsTree.readOrError w path = v
               /\ FileSystem.readMultipleFiles (path :: rest) results w
                  = FileSystem.readMultipleFiles rest
                      (FileSystem.assignText results path v) w).
    { unfold FsTree.readOrError. simpl.
      destruct (FileSystem.readFile path w) as [[content|e] w0]; simpl in *; subst w0;
        eexists; split; reflexivity. }
    destruct Hstep as (v & Hv & Hstep). simpl in Hstep. rewrite Hstep.
    destruct (IH (FileSystem.assignText results path v) w)
      as (out & Hrun & Hin & Hout & Hproto).
    exists out. split; [exact Hrun|]. split; [|split].
    + intros p Hp Hplain.
      destruct (in_dec string_dec p rest) as [Hrest|Hrest]; [exact (Hin p Hrest Hplain)|].
      destruct Hp as [<-|Hp]; [|contradiction].
      rewrite (Hout _ Hrest). unfold FileSystem.assignText.
      apply String.eqb_neq in Hplain. rewrite Hplain.
      rewrite table_get_set_same, Hv. reflexivity.
    + intros p Hp. rewrite Hout by (intros H; apply Hp; right; exact H).
      unfold FileSystem.assignText.
      destruct (String.eqb path "__proto__"); [reflexivity|].
      apply table_get_set_other. intros ->. apply Hp. left. reflexivity.
    + rewrite Hproto. apply table_get_assignText_proto.
Qed.

(** X9. [readMultipleFiles] never throws and leaves the world as it is.  Its
    result has an entry for each requested path other than [__proto__],
    holding the content of the file, or [Error: ] followed by the message of
    the error the read of that path threw; it has no entry for a path that
    was not requested, and none for the path [__proto__], requested or not:
    the string assigned under that key is dropped. *)
Theorem readMultipleFiles_total (paths : list string) (w : FileSystem.World) :
  exists results,
    FileSystem.readMultipleFiles paths [] w = (Normal results, w)
    /\ (forall p, In p paths -> p <> "__proto__"%string ->
          Table.get results p = Some (FsTree.readOrError w p))
    /\ (forall p, ~ In p paths -> Table.get results p = None)
    /\ Table.get results "__proto__" = None.
Proof.
  destruct (readMultipleFiles_fold paths [] w) as (out & Hrun & Hin & Hout & Hproto).
  exists out. split; [exact Hrun|]. split; [exact Hin|]. split.
  - intros p Hp. rewrite (Hout p Hp). reflexivity.
  - rewrite Hproto. reflexivity.
Qed.

Lemma writeFile_reads_back path content w w' :
  FileSystem.normalize path <> [] ->
  FileSystem.writeFile path content w = (Normal tt, w') ->
  fst (FileSystem.readFile path w') = Normal content.
Proof.
  intros Hne Hwrite. unfold FileSystem.writeFile in Hwrite.
  destruct (FileSystem.provider w) eqn:Hprovider.
  - destruct (pop_nonempty _ Hne) as (init & name & Hparts & Hpop).
    rewrite Hpop in Hwrite. simpl in Hwrite.
    unfold FileSystem.bind, FileSystem.onRootHandle in Hwrite.
    destruct (FileSystem.rootHandle w) as [root|] eqn:Hroot; [|discriminate].
    destruct (FileSystem.nativeWrite init name content root) as [r root'] eqn:Hnative.
    destruct r as [[]|e]; [|discriminate].
    injection Hwrite as <-.
    unfold FileSystem.readFile. simpl. rewrite Hprovider.
    unfold FileSystem.getFileHandleNative. rewrite Hpop.
    unfold FileSystem.onRootHandle. simpl.
    pose proof (nativeWrite_read _ _ _ _ _ Hnative) as Hread.
    destruct (FileSystem.nativeWalk init (FileSystem.nativeFileText name) root')
      as [r2 root'']. exact Hread.
  - assert (Hprovider' : FileSystem.provider w' = FileSystem.memory).
    { unfold FileSystem.memoryWriteFile in Hwrite.
      destruct (FileSystem.pop (FileSystem.normalize path)) as [[fileName|] parts];
        [|injection Hwrite as <-; exact Hprovider].
      destruct (FileSystem.ensureMemoryDir _ _ _); [|discriminate].
      injection Hwrite as <-. exact Hprovider. }
    destruct (memoryWriteFile_read _ _ _ _ Hne Hwrite) as (name & Hentry).
    unfold FileSystem.readFile. rewrite Hprovider', Hentry. reflexivity.
Qed.

(** X10. Paths are read up to their normal form: two paths with the same
    segments once [.] and empty segments are dropped name the same file, and
    a file written under one of them is read back under the other. *)
Theorem paths_read_up_to_normalize (p q content : string) (w w' : FileSystem.World) :
  FileSystem.normalize p = FileSystem.normalize q ->
  (forall text, fst (FileSystem.readFile p w) = Normal text
                <-> fst (FileSystem.readFile q w) = Normal text)
  /\ (FileSystem.writeFile p content w = (Normal tt, w') ->
      FileSystem.normalize p <> [] ->
      fst (FileSystem.readFile q w') = Normal content).
Proof.
  intros Hsame. split.
  - intros text. rewrite !readFile_fileAt. unfold FsTree.fileAt. rewrite Hsame. reflexivity.
  - intros Hwrite Hne.
    pose proof (writeFile_reads_back _ _ _ _ Hne Hwrite) as Hp.
    apply readFile_fileAt in Hp. apply readFile_fileAt.
    unfold FsTree.fileAt in *. rewrite <- Hsame. exact Hp.
Qed.

Lemma paths_read_up_to_normalize_witness :
  fst (FileSystem.readFile "src/lib/util.ts"
         (snd (FileSystem.writeFile "./src//lib/util.ts/" "export const two = 2"
                 FsTree.nestedMemory)))
  = Normal "export const two = 2"%string.
Proof.
  apply (paths_read_up_to_normalize "./src//lib/util.ts/" "src/lib/util.ts"
           "export const two = 2" FsTree.nestedMemory).
  - vm_compute. reflexivity.
  - vm_compute. reflexivity.
  - vm_compute. discriminate.
Defined.

(* --------------------------------------------------------------------- *)
(** ** The code index under file operations *)

Lemma onRootHandle_fields {A : Type} (op : FileSystem.Children -> Completion A * FileSystem.Children)
  (w : FileSystem.World) :
  FileSystem.index (snd (FileSystem.onRootHandle op w)) = FileSystem.index w
  /\ FileSystem.clock (snd (FileSystem.onRootHandle op w)) = FileSystem.clock w
  /\ FileSystem.notified (snd (FileSystem.onRootHandle op w)) = FileSystem.notified w.
Proof.
  unfold FileSystem.onRootHandle.
  destruct (FileSystem.rootHandle w) as [root|]; [|repeat split].
  destruct (op root) as [r root']. repeat split.
Qed.

(** A [writeFile] that returns has called [notify] once, except on the
    memory backend for a path without segments. *)
Lemma writeFile_index path content w w' :
  FileSystem.writeFile path content w = (Normal tt, w') ->
  FileSystem.index w'
  = FileSystem.knowledgeListener (FileSystem.clock w)
      {| FileSystem.changeType := FileSystem.write; FileSystem.changePath := path;
         FileSystem.changeContent := Some content |} (FileSystem.index w)
  \/ (FileSystem.normalize path = [] /\ FileSystem.index w' = FileSystem.index w).
Proof.
  intros Hwrite. unfold FileSystem.writeFile in Hwrite.
  destruct (FileSystem.provider w) eqn:Hprovider.
  - left. destruct (FileSystem.pop (FileSystem.normalize path)) as [popped parts].
    unfold FileSystem.bind in Hwrite.
    destruct (onRootHandle_fields
                (FileSystem.nativeWrite parts (FileSystem.hostName popped) content) w)
      as (Hindex & Hclock & _).
    destruct (FileSystem.onRootHandle _ w) as [[[]|e] w1]; [|discriminate].
    injection Hwrite as <-. simpl in *. rewrite Hindex, Hclock. reflexivity.
  - unfold FileSystem.memoryWriteFile in Hwrite.
    destruct (FileSystem.normalize path) as [|part rest] eqn:Hparts.
    + right. simpl in Hwrite. injection Hwrite as <-. split; reflexivity.
    + left. rewrite <- Hparts in Hwrite.
      destruct (FileSystem.pop (FileSystem.normalize path)) as [[fileName|] parts] eqn:Hpop.
      * destruct (FileSystem.ensureMemoryDir _ _ _) as [root'|e]; [|discriminate].
        injection Hwrite as <-. reflexivity.
      * rewrite Hparts in Hpop. simpl in Hpop. discriminate.
Qed.

(** X11. A [writeFile] that returns, of non-empty content to a path with at
    least one segment that neither contains [node_modules] nor begins with a
    dot, leaves the index with an entry under exactly that path string: its
    symbols and summary are those parsed from the new content under the
    text after the last dot of the path, its snippet is the first 300
    characters with white space collapsed, and its time stamp is the clock at
    the write.  Every other index entry is as before. *)
Theorem writeFile_indexes_content (path content : string) (w w' : FileSystem.World) :
  FileSystem.writeFile path content w = (Normal tt, w') ->
  FileSystem.normalize path <> [] ->
  content <> EmptyString ->
  JsString.includes path "node_modules" = false ->
  JsString.startsWith path "." = false ->
  Table.get (FileSystem.index w') path
  = Some {| Knowledge.path := path;
            Knowledge.symbols :=
              fst (Knowledge.parseSymbols content
                     (Knowledge.last (JsString.split "." path)));
            Knowledge.summary :=
              snd (Knowledge.parseSymbols content
                     (Knowledge.last (JsString.split "." path)));
            Knowledge.contentSnippet :=
              JsString.collapseSpaces (JsString.slice0 300 content);
            Knowledge.lastModified := FileSystem.clock w |}
  /\ forall other, other <> path ->
       Table.get (FileSystem.index w') other = Table.get (FileSystem.index w) other.
Proof.
  intros Hwrite Hne Hcontent Hmodules Hdot.
  destruct (writeFile_index _ _ _ _ Hwrite) as [Hindex|[Hnil _]]; [|contradiction].
  rewrite Hindex. unfold FileSystem.knowledgeListener. simpl.
  destruct content as [|c rest]; [contradiction|]. cbn [String.length Nat.eqb].
  unfold Knowledge.indexFile. rewrite Hmodules, Hdot. cbn [orb].
  destruct (Knowledge.parseSymbols (String c rest) _) as [symbols summary]. simpl.
  split.
  - apply table_get_set_same.
  - intros other Hother. apply table_get_set_other. congruence.
Qed.

Lemma writeFile_indexes_content_witness :
  option_map Knowledge.symbols
    (Table.get
       (FileSystem.index
          (snd (FileSystem.writeFile "src/api.ts"
                  "export function fetchUser() {} const limit = 3"
                  FsTree.nestedMemory)))
       "src/api.ts")
  = Some ["Function: fetchUser"; "Var: limit"]%string.
Proof.
  set (w' := snd (FileSystem.writeFile "src/api.ts"
                    "export function fetchUser() {} const limit = 3" FsTree.nestedMemory)).
  destruct (writeFile_indexes_content "src/api.ts"
              "export function fetchUser() {} const limit = 3" FsTree.nestedMemory w')
    as [Hentry _].
  - vm_compute. reflexivity.
  - vm_compute. discriminate.
  - discriminate.
  - vm_compute. reflexivity.
  - vm_compute. reflexivity.
  - rewrite Hentry. vm_compute. reflexivity.
Defined.

(** X12. A [writeFile] that returns leaves the index exactly as it was when
    the content is empty, when the path contains [node_modules], or when the
    path string begins with a dot (so for a path written as [./src/a.ts]):
    an entry the index held for the path keeps describing the old content. *)
Theorem writeFile_leaves_index (path content : string) (w w' : FileSystem.World) :
  FileSystem.writeFile path content w = (Normal tt, w') ->
  content = EmptyString
  \/ JsString.includes path "node_modules" = true
  \/ JsString.startsWith path "." = true ->
  FileSystem.index w' = FileSystem.index w.
Proof.
  intros Hwrite Hskip.
  destruct (writeFile_index _ _ _ _ Hwrite) as [Hindex|[_ Hsame]]; [|exact Hsame].
  rewrite Hindex. unfold FileSystem.knowledgeListener. simpl.
  destruct Hskip as [->|Hskip]; [reflexivity|].
  destruct (String.length content =? 0)%nat; [reflexivity|].
  unfold Knowledge.indexFile.
  destruct Hskip as [->| ->]; [reflexivity|].
  rewrite orb_true_r. reflexivity.
Qed.

Lemma writeFile_leaves_index_witness :
  FileSystem.index
    (snd (FileSystem.writeFile "./src/App.tsx" "function Other() {}" FsTree.nestedMemory))
  = FileSystem.index FsTree.nestedMemory
  /\ FileSystem.index
       (snd (FileSystem.writeFile "src/App.tsx" "" FsTree.nestedNative))
     = FileSystem.index FsTree.nestedNative.
Proof.
  split.
  - apply (writeFile_leaves_index "./src/App.tsx" "function Other() {}" FsTree.nestedMemory).
    + vm_compute. reflexivity.
    + right. right. vm_compute. reflexivity.
  - apply (writeFile_leaves_index "src/App.tsx" "" FsTree.nestedNative).
    + vm_compute. reflexivity.
    + left. reflexivity.
Defined.

(** X13. [deleteEntry] touches the index under the exact path string it was
    given and nowhere else, whether it returns or throws: the entries of the
    files below a deleted directory, and an entry recorded under another
    spelling of the same path, stay in the index. *)
Theorem deleteEntry_index_frame (path other : string) (r : Completion unit)
  (w w' : FileSystem.World) :
  FileSystem.deleteEntry path w = (r, w') ->
  other <> path ->
  Table.get (FileSystem.index w') other = Table.get (FileSystem.index w) other.
Proof.
  intros Hdelete Hother. unfold FileSystem.deleteEntry in Hdelete.
  assert (Hremoved : forall index,
             Table.get (Knowledge.removeFile index path) other = Table.get index other).
  { intros index. apply table_get_remove_other. congruence. }
  destruct (FileSystem.provider w) eqn:Hprovider.
  - destruct (FileSystem.pop (FileSystem.normalize path)) as [popped parts].
    unfold FileSystem.bind in Hdelete.
    destruct (onRootHandle_fields
                (FileSystem.nativeWalk parts
                   (FileSystem.nativeRemoveEntry (FileSystem.hostName popped))) w)
      as (Hindex & _ & _).
    destruct (FileSystem.onRootHandle _ w) as [[[]|e] w1];
      injection Hdelete as <- <-; simpl in *; rewrite Hindex; [apply Hremoved|reflexivity].
  - destruct (FileSystem.pop (FileSystem.normalize path)) as [[name|] parts];
      [|injection Hdelete as <- <-; reflexivity].
    destruct (FileSystem.getMemoryEntry w _) as [[n c|n children]|];
      injection Hdelete as <- <-; try reflexivity.
    simpl. apply Hremoved.
Qed.

Lemma deleteEntry_index_frame_witness :
  Table.get (FileSystem.index (snd (FileSystem.deleteEntry "src" FsTree.nestedMemory)))
    "src/lib/util.ts"
  = Table.get (FileSystem.index FsTree.nestedMemory) "src/lib/util.ts"
  /\ Table.get (FileSystem.index
                  (snd (FileSystem.deleteEntry "src//App.tsx" FsTree.nestedNative)))
       "src/App.tsx"
     = Table.get (FileSystem.index FsTree.nestedNative) "src/App.tsx".
Proof.
  split.
  - apply (deleteEntry_index_frame "src" "src/lib/util.ts" (Normal tt) FsTree.nestedMemory).
    + vm_compute. reflexivity.
    + discriminate.
  - apply (deleteEntry_index_frame "src//App.tsx" "src/App.tsx" (Normal tt)
             FsTree.nestedNative).
    + vm_compute. reflexivity.
    + discriminate.
Defined.

(* --------------------------------------------------------------------- *)
(** ** CodeIndex: the ranking of [search] *)

#[local] Abbreviation byScore := (fun a b : Knowledge.Scored => Knowledge.score b <= Knowledge.score a).

Lemma insertByScore_In r sorted x :
  x = r \/ In x sorted -> In x (Knowledge.insertByScore r sorted).
Proof.
  induction sorted as [|head tail IH]; simpl.
  - intros [->|[]]. left. reflexivity.
  - destruct (Knowledge.score head <=? Knowledge.score r)%nat; simpl.
    + intros [->|H]; [left; reflexivity | right; exact H].
    + intros [->|[H|H]].
      * right. apply IH. left. reflexivity.
      * left. exact H.
      * right. apply IH. right. exact H.
Qed.

Lemma sortByScore_In results x :
  In x results -> In x (Knowledge.sortByScore results).
Proof.
  induction results as [|r rest IH]; simpl; intros H.
  - exact H.
  - apply insertByScore_In. destruct H as [H|H]; [left; congruence | right; exact (IH H)].
Qed.

Lemma insertByScore_length r sorted :
  List.length (Knowledge.insertByScore r sorted) = S (List.length sorted).
Proof.
  induction sorted as [|head tail IH]; simpl.
  - reflexivity.
  - destruct (Knowledge.score head <=? Knowledge.score r)%nat; simpl; [reflexivity|].
    rewrite IH. reflexivity.
Qed.

Lemma sortByScore_length results :
  List.length (Knowledge.sortByScore results) = List.length results.
Proof.
  induction results as [|r rest IH]; simpl.
  - reflexivity.
  - rewrite insertByScore_length, IH. reflexivity.
Qed.

Lemma insertByScore_sorted r sorted :
  StronglySorted byScore sorted ->
  StronglySorted byScore (Knowledge.insertByScore r sorted).
Proof.
  induction sorted as [|head tail IH]; simpl; intros Hsorted.
  - constructor; constructor.
  - inversion Hsorted as [|? ? Htail Hhead]; subst.
    destruct (Nat.leb_spec (Knowledge.score head) (Knowledge.score r)) as [Hle|Hlt].
    + constructor; [exact Hsorted|].
      constructor; [exact Hle|].
      rewrite Forall_forall in *. intros x Hx. specialize (Hhead x Hx). simpl in *. lia.
    + constructor; [exact (IH Htail)|].
      rewrite Forall_forall in *. intros x Hx.
      apply In_insertByScore in Hx. destruct Hx as [->|Hx]; [simpl; lia | exact (Hhead x Hx)].
Qed.

Lemma sortByScore_sorted results :
  StronglySorted byScore (Knowledge.sortByScore results).
Proof.
  induction results as [|r rest IH]; simpl.
  - constructor.
  - apply insertByScore_sorted. exact IH.
Qed.

Lemma sorted_firstn {A : Type} (R : A -> A -> Prop) n :
  forall l, StronglySorted R l -> StronglySorted R (firstn n l).
Proof.
  induction n as [|n IH]; intros [|x l] Hsorted; simpl; try constructor.
  - inversion Hsorted; subst. apply IH. assumption.
  - inversion Hsorted as [|? ? _ Hall]; subst.
    rewrite Forall_forall in *. intros y Hy. apply Hall. exact (In_firstn_In _ _ _ Hy).
Qed.

Lemma sorted_firstn_skipn {A : Type} (R : A -> A -> Prop) n :
  forall l x y,
    StronglySorted R l -> In x (firstn n l) -> In y (skipn n l) -> R x y.
Proof.
  induction n as [|n IH]; intros [|z l] x y Hsorted Hx Hy; simpl in *; try contradiction.
  inversion Hsorted as [|? ? Htail Hall]; subst.
  destruct Hx as [<-|Hx].
  - rewrite Forall_forall in Hall. apply Hall.
    rewrite <- (firstn_skipn n l). apply in_or_app. right. exact Hy.
  - exact (IH l x y Htail Hx Hy).
Qed.

Lemma scoreEntry_positive query terms entry r :
  Knowledge.scoreEntry query terms entry = Some r -> 0 < Knowledge.score r.
Proof.
  unfold Knowledge.scoreEntry.
  match goal with |- context [(0 <? ?s)%nat] => destruct (Nat.ltb_spec 0 s) as [Hpos|Hzero] end;
    [|discriminate].
  intros H. injection H as <-. simpl. exact Hpos.
Qed.

(** X14. [search] lists at most ten files, by non-increasing score; every
    listed file has a positive score, and an indexed file with a positive
    score that is not listed scores no more than each listed one. *)
Theorem search_lists_the_ten_best (index : Knowledge.Index) (query : string) :
  List.length (Knowledge.search index query) <= 10
  /\ StronglySorted (fun a b => Knowledge.score b <= Knowledge.score a)
       (Knowledge.ranked index query)
  /\ (forall r, In r (Knowledge.ranked index query) -> 0 < Knowledge.score r)
  /\ (forall entry r,
        In entry (Table.values index) ->
        Knowledge.scoreEntry query
          (JsString.splitSpaces (JsString.toLowerCase query)) entry = Some r ->
        In r (Knowledge.ranked index query)
        \/ forall listed, In listed (Knowledge.ranked index query) ->
                          Knowledge.score r <= Knowledge.score listed).
Proof.
  unfold Knowledge.search, Knowledge.ranked.
  set (terms := JsString.splitSpaces (JsString.toLowerCase query)).
  set (results := flat_map _ (Table.values index)).
  split; [|split; [|split]].
  - rewrite length_map, length_firstn. lia.
  - apply sorted_firstn, sortByScore_sorted.
  - intros r Hr. apply In_firstn_In, In_sortByScore in Hr.
    unfold results in Hr. apply in_flat_map in Hr. destruct Hr as (entry & _ & Hr).
    destruct (Knowledge.scoreEntry query terms entry) as [r0|] eqn:Hscore; [|destruct Hr].
    destruct Hr as [<-|[]]. exact (scoreEntry_positive _ _ _ _ Hscore).
  - intros entry r Hentry Hscore.
    assert (Hin : In r (Knowledge.sortByScore results)).
    { apply sortByScore_In. unfold results. apply in_flat_map.
      exists entry. split; [exact Hentry|]. rewrite Hscore. left. reflexivity. }
    rewrite <- (firstn_skipn 10 (Knowledge.sortByScore results)) in Hin.
    apply in_app_or in Hin. destruct Hin as [Hin|Hin]; [left; exact Hin|].
    right. intros listed Hlisted.
    exact (sorted_firstn_skipn byScore 10 _ listed r (sortByScore_sorted results) Hlisted Hin).
Qed.

Lemma includes_empty s : JsString.includes s EmptyString = true.
Proof. destruct s; reflexivity. Qed.

Lemma isSpace_lowerChar c :
  JsString.isSpace c = true -> JsString.lowerChar c = c.
Proof.
  unfold JsString.isSpace, JsString.lowerChar.
  set (n := nat_of_ascii c). intros Hspace.
  destruct (Nat.leb_spec 65 n) as [H65|H65]; [|reflexivity].
  destruct (Nat.leb_spec 9 n), (Nat.leb_spec n 13), (Nat.eqb_spec n 32);
    simpl in Hspace; try discriminate; lia.
Qed.

Lemma splitSpaces_nonempty s : JsString.splitSpaces s <> [].
Proof.
  induction s as [|c rest IH]; simpl.
  - discriminate.
  - destruct (JsString.isSpace c).
    + destruct rest as [|c' rest']; [discriminate|].
      destruct (JsString.isSpace c'); [exact IH | discriminate].
    + destruct (JsString.splitSpaces rest); discriminate.
Qed.

Lemma splitSpaces_space c c' rest :
  JsString.isSpace c = true ->
  JsString.splitSpaces (String c (String c' rest))
  = if JsString.isSpace c' then JsString.splitSpaces (String c' rest)
    else EmptyString :: JsString.splitSpaces (String c' rest).
Proof. intros Hspace. simpl. rewrite Hspace. reflexivity. Qed.

Lemma splitSpaces_leading c rest :
  JsString.isSpace c = true ->
  In EmptyString (JsString.splitSpaces (String c rest)).
Proof.
  revert c. induction rest as [|c' rest' IH]; intros c Hspace.
  - simpl. rewrite Hspace. left. reflexivity.
  - rewrite (splitSpaces_space _ _ _ Hspace).
    destruct (JsString.isSpace c') eqn:Hspace'.
    + exact (IH c' Hspace').
    + left. reflexivity.
Qed.

(** A query that is empty or begins with white space has the empty string
    among its terms. *)
Lemma blank_query_terms query :
  query = EmptyString
  \/ (exists c rest, query = String c rest /\ JsString.isSpace c = true) ->
  In EmptyString (JsString.splitSpaces (JsString.toLowerCase query)).
Proof.
  intros [->|(c & rest & -> & Hspace)].
  - left. reflexivity.
  - cbn [JsString.toLowerCase]. rewrite (isSpace_lowerChar _ Hspace).
    apply splitSpaces_leading. exact Hspace.
Qed.

(** X15. The empty term matches everything: for a query that is empty or
    begins with white space, every indexed file is a match, so [search] lists
    ten files, or all of them when the index holds fewer. *)
Theorem search_blank_query_matches_every_file (index : Knowledge.Index) (query : string) :
  query = EmptyString
  \/ (exists c rest, query = String c rest /\ JsString.isSpace c = true) ->
  List.length (Knowledge.search index query) = Nat.min 10 (List.length index)
  /\ forall entry, In entry (Table.values index) ->
       exists r, Knowledge.scoreEntry query
                   (JsString.splitSpaces (JsString.toLowerCase query)) entry = Some r
                 /\ Knowledge.resultPath r = Knowledge.path entry.
Proof.
  intros Hblank. pose proof (blank_query_terms _ Hblank) as Hterm.
  set (terms := JsString.splitSpaces (JsString.toLowerCase query)) in *.
  assert (Hall : forall entry,
             exists r, Knowledge.scoreEntry query terms entry = Some r
                       /\ Knowledge.resultPath r = Knowledge.path entry).
  { intros entry. unfold Knowledge.scoreEntry.
    assert (Hsnippet :
              existsb (fun t => JsString.includes
                                  (JsString.toLowerCase (Knowledge.contentSnippet entry)) t)
                terms = true).
    { apply existsb_exists. exists EmptyString. split; [exact Hterm | apply includes_empty]. }
    rewrite Hsnippet.
    match goal with |- context [(0 <? ?s)%nat] => destruct (Nat.ltb_spec 0 s) as [Hpos|Hzero] end;
      [|lia].
    eexists. split; reflexivity. }
  split; [|intros entry _; apply Hall].
  unfold Knowledge.search, Knowledge.ranked. fold terms.
  rewrite length_map, length_firstn, sortByScore_length.
  f_equal. unfold Table.values.
  induction index as [|[key entry] rest IH]; [reflexivity|].
  simpl. destruct (Hall entry) as (r & -> & _). simpl. rewrite IH. reflexivity.
Qed.

Lemma search_blank_query_matches_every_file_witness :
  List.length (Knowledge.search (FileSystem.index FsTree.nestedMemory) " zebra") = 3.
Proof.
  destruct (search_blank_query_matches_every_file
              (FileSystem.index FsTree.nestedMemory) " zebra") as [Hlength _].
  - right. exists " "%char, "zebra"%string. split; reflexivity.
  - rewrite Hlength. vm_compute. reflexivity.
Defined.

(* --------------------------------------------------------------------- *)
(** ** The tool boundary and the orchestrator *)

(** X16. Only [writeFile], [createDirectory] and [deleteFile] change the
    state of the services: every other tool call, an unknown tool included,
    leaves the file tree, the index and the notification log as they were,
    whether it succeeds or reports an error. *)
Theorem executeTool_read_only (host : Host) (call : Tools.ToolCall) (w : FileSystem.World) :
  ~ In (Tools.toolName call) ["writeFile"; "createDirectory"; "deleteFile"]%string ->
  snd (Tools.executeTool host call w) = w.
Proof.
  intros Hname. unfold Tools.executeTool.
  destruct call; cbn [Tools.toolName] in Hname; cbn [Tools.dispatch];
    try (exfalso; apply Hname; simpl; tauto); try reflexivity.
  - unfold FileSystem.bind, FileSystem.ret.
    pose proof (readFile_same_world path w) as Hsame.
    destruct (FileSystem.readFile path w) as [[content|e] w1]; exact Hsame.
  - unfold FileSystem.bind, FileSystem.ret.
    destruct (readMultipleFiles_fold paths [] w) as (out & -> & _). reflexivity.
  - destruct (generatePreviewUrl host _); reflexivity.
  - destruct (fetchContents host url); reflexivity.
Qed.

Lemma executeTool_read_only_witness :
  snd (Tools.executeTool Agent.sampleHost
         (Tools.readMultipleFiles ["src/App.tsx"; "missing.ts"]%string) FsTree.nestedNative)
  = FsTree.nestedNative.
Proof.
  apply (executeTool_read_only Agent.sampleHost
           (Tools.readMultipleFiles ["src/App.tsx"; "missing.ts"]%string) FsTree.nestedNative).
  simpl. intros [H|[H|[H|[]]]]; discriminate.
Defined.

Lemma runTools_ids host calls :
  forall run,
    map fst (fst (Agent.runTools host calls run)) = map Agent.callId calls.
Proof.
  induction calls as [|fc rest IH]; intros run; simpl.
  - reflexivity.
  - unfold Agent.runTool.
    destruct (Tools.executeTool host (Agent.requested fc) (Agent.world run)) as [result w'].
    match goal with |- context [Agent.runTools host rest ?r] =>
      specialize (IH r); destruct (Agent.runTools host rest r) as [responses run2] end.
    simpl in *. rewrite IH. reflexivity.
Qed.

Lemma runTools_app host before :
  forall after run,
    Agent.runTools host (before ++ after) run
    = let (first, run1) := Agent.runTools host before run in
      let (second, run2) := Agent.runTools host after run1 in
      (first ++ second, run2).
Proof.
  induction before as [|fc rest IH]; intros after run; simpl.
  - destruct (Agent.runTools host after run). reflexivity.
  - destruct (Agent.runTool host fc run) as [response run1].
    rewrite IH.
    destruct (Agent.runTools host rest run1) as [first run2].
    destruct (Agent.runTools host after run2) as [second run3]. reflexivity.
Qed.

(** The tool calls of one response are dispatched one after the other, each
    on the state the calls before it have left, and the responses come back
    in the order of the calls, each under the identifier of its call. *)
Lemma runTools_sequential (host : Host) (before after : list Agent.FunctionCall)
  (fc : Agent.FunctionCall) (run : Agent.Run) :
  map fst (fst (Agent.runTools host (before ++ fc :: after) run))
  = map Agent.callId (before ++ fc :: after)
  /\ nth_error (fst (Agent.runTools host (before ++ fc :: after) run)) (List.length before)
     = Some (Agent.callId fc,
             fst (Tools.executeTool host (Agent.requested fc)
                    (Agent.world (snd (Agent.runTools host before run))))).
Proof.
  split; [apply runTools_ids|].
  rewrite runTools_app.
  pose proof (runTools_ids host before run) as Hids.
  destruct (Agent.runTools host before run) as [first run1]. cbn [fst snd] in *.
  assert (Hlen : List.length first = List.length before).
  { rewrite <- (length_map fst first), Hids, length_map. reflexivity. }
  simpl. unfold Agent.runTool.
  destruct (Tools.executeTool host (Agent.requested fc) (Agent.world run1)) as [result w'].
  match goal with |- context [Agent.runTools host after ?r] =>
    destruct (Agent.runTools host after r) as [second run2] end.
  cbn [fst]. rewrite nth_error_app2 by lia.
  rewrite Hlen, Nat.sub_diag. reflexivity.
Qed.

(** X17. A file written by one tool call of a response is read back by a
    later [readFile] call of the same response. *)
Theorem runTools_write_then_read (host : Host) (path content writeId readId : string)
  (run : Agent.Run) (w' : FileSystem.World) :
  Syntax.validate host content path = None ->
  FileSystem.writeFile path content (Agent.world run) = (Normal tt, w') ->
  FileSystem.normalize path <> [] ->
  fst (Agent.runTools host
         [ {| Agent.callId := writeId; Agent.requested := Tools.writeFile path content |};
           {| Agent.callId := readId; Agent.requested := Tools.readFile path |} ] run)
  = [(writeId, Tools.Success); (readId, Tools.Text content)].
Proof.
  intros Hvalid Hwrite Hne.
  pose proof (writeFile_reads_back _ _ _ _ Hne Hwrite) as Hread.
  simpl. unfold Agent.runTool. cbn [Agent.requested Agent.callId Agent.world].
  unfold Tools.executeTool. cbn [Tools.dispatch]. rewrite Hvalid.
  unfold FileSystem.bind, FileSystem.ret. rewrite Hwrite.
  cbn [Agent.world].
  destruct (FileSystem.readFile path w') as [[text|e] w2]; simpl in Hread; [|discriminate].
  injection Hread as ->. reflexivity.
Qed.

Lemma runTools_write_then_read_witness :
  fst (Agent.runTools Agent.sampleHost
         [ {| Agent.callId := "call_1";
              Agent.requested := Tools.writeFile "src/new.ts" "export const two = 2" |};
           {| Agent.callId := "call_2"; Agent.requested := Tools.readFile "src/new.ts" |} ]
         (Agent.startOfRun FsTree.nestedMemory))
  = [("call_1"%string, Tools.Success);
     ("call_2"%string, Tools.Text "export const two = 2")].
Proof.
  apply (runTools_write_then_read Agent.sampleHost "src/new.ts" "export const two = 2"
           "call_1" "call_2" (Agent.startOfRun FsTree.nestedMemory)
           (snd (FileSystem.writeFile "src/new.ts" "export const two = 2"
                   FsTree.nestedMemory))).
  - vm_compute. reflexivity.
  - vm_compute. reflexivity.
  - vm_compute. discriminate.
Defined.

Lemma googleLoop_requests host remote remaining :
  forall response run,
    Agent.providerCalls (snd (Agent.googleLoop host remote remaining response run))
    + Agent.rounds run
    = Agent.providerCalls run
      + Agent.rounds (snd (Agent.googleLoop host remote remaining response run)).
Proof.
  induction remaining as [|remaining IH]; intros response run.
  - rewrite googleLoop_done. simpl. lia.
  - rewrite googleLoop_step.
    destruct (Agent.functionCalls response) as [|fc rest] eqn:Hcalls; [simpl; lia|].
    destruct (runTools_counters host (fc :: rest) run) as (Hcalls1 & Hrounds & _).
    set (run1 := snd (Agent.runTools host (fc :: rest) run)) in *.
    destruct (chatSendMessage_counters remote (Agent.endRound run1)) as (Hr & Hp).
    destruct (Agent.chatSendMessage remote (Agent.endRound run1)) as [[response'|e] run2];
      cbn [fst snd Agent.rounds Agent.providerCalls Agent.endRound] in Hr, Hp.
    + specialize (IH response' run2). lia.
    + cbn [snd]. lia.
Qed.

Lemma fetchCompletion_requests remote signal run :
  Agent.providerCalls (snd (Agent.fetchCompletion remote signal run))
  <= S (Agent.providerCalls run)
  /\ forall msg run1,
       Agent.fetchCompletion remote signal run = (Normal msg, run1) ->
       Agent.providerCalls run1 = S (Agent.providerCalls run)
       /\ Agent.rounds run1 = Agent.rounds run.
Proof.
  unfold Agent.fetchCompletion.
  destruct (Agent.aborted signal run).
  - split; [simpl; lia | discriminate].
  - destruct (remote _); simpl; (split; [lia|]); intros msg run1 H;
      try discriminate.
    injection H as _ <-. split; reflexivity.
Qed.

Lemma openAILoop_requests host remote signal remaining :
  forall run,
    let out := snd (Agent.openAILoop host remote signal remaining run) in
    Agent.providerCalls out + Agent.rounds run
    <= Agent.providerCalls run + Agent.rounds out + 1
    /\ Agent.providerCalls out <= Agent.providerCalls run + remaining.
Proof.
  induction remaining as [|remaining IH]; intros run.
  - simpl. lia.
  - cbv zeta. rewrite openAILoop_step.
    destruct (fetchCompletion_requests remote signal run) as (Hle & Hok).
    pose proof (fetchCompletion_rounds remote signal run) as Hsame.
    destruct (Agent.fetchCompletion remote signal run) as [[msg|e] run1];
      cbn [fst snd] in *; [|lia].
    destruct (Hok msg run1 eq_refl) as (Hp & Hr).
    destruct (Agent.functionCalls msg) as [|fc rest]; [cbn [snd]; lia|].
    destruct (runTools_counters host (fc :: rest) run1) as (Hp2 & Hr2 & _).
    set (run2 := snd (Agent.runTools host (fc :: rest) run1)) in *.
    specialize (IH (Agent.endRound run2)). cbv zeta in IH.
    cbn [Agent.rounds Agent.providerCalls Agent.endRound] in IH. lia.
Qed.

(** X18. Whatever the provider replies, a run issues at most one provider
    request more than it makes tool round-trips: at most six requests on the
    Google branch, where the count is exactly the round-trips plus one, and
    at most five on the OpenAI-compatible branch. *)
Theorem sendMessage_request_bound (host : Host) (remote : Agent.Provider)
  (provider : Agent.AIProvider) (signal : Agent.Signal) (w : FileSystem.World) :
  let run' := snd (Agent.sendMessage host remote provider signal (Agent.startOfRun w)) in
  Agent.providerCalls run' <= Agent.rounds run' + 1
  /\ Agent.providerCalls run' <= 6
  /\ (provider = Agent.google -> Agent.providerCalls run' = Agent.rounds run' + 1)
  /\ (Agent.isOpenAICompatible provider = true -> Agent.providerCalls run' <= 5).
Proof.
  cbv zeta.
  pose proof (sendMessage_rounds host remote provider signal w) as Hrounds.
  unfold Agent.maxTurns in Hrounds.
  assert (Hopen : Agent.isOpenAICompatible provider = true ->
                  Agent.sendMessage host remote provider signal (Agent.startOfRun w)
                  = Agent.openAILoop host remote signal 5 (Agent.startOfRun w)).
  { destruct provider; cbn; intros H; try discriminate; reflexivity. }
  destruct (Agent.isOpenAICompatible provider) eqn:Hcompatible.
  - rewrite (Hopen eq_refl) in *.
    destruct (openAILoop_requests host remote signal 5 (Agent.startOfRun w)) as (H1 & H2).
    cbn [Agent.rounds Agent.providerCalls Agent.startOfRun] in H1, H2.
    split; [lia|]. split; [lia|]. split; [|intros _; lia].
    intros ->. discriminate.
  - destruct provider; try discriminate.
    + (* google *)
      unfold Agent.sendMessage in *.
      destruct (chatSendMessage_counters remote (Agent.startOfRun w)) as (Hr & Hp).
      destruct (Agent.chatSendMessage remote (Agent.startOfRun w)) as [[response|e] run1];
        cbn [fst snd Agent.rounds Agent.providerCalls Agent.startOfRun] in *.
      * pose proof (googleLoop_requests host remote Agent.maxTurns response run1).
        split; [lia|]. split; [lia|]. split; [intros _; lia | discriminate].
      * split; [lia|]. split; [lia|]. split; [intros _; lia | discriminate].
    + (* anthropic *)
      simpl. split; [lia|]. split; [lia|]. split; discriminate.
Qed.

Lemma googleLoop_returns host remote remaining :
  (forall n, exists response, remote n = Agent.Answered response) ->
  forall response run,
    exists text, fst (Agent.googleLoop host remote remaining response run) = Normal text.
Proof.
  intros Hanswers. induction remaining as [|remaining IH]; intros response run.
  - rewrite googleLoop_done. eexists. reflexivity.
  - rewrite googleLoop_step.
    destruct (Agent.functionCalls response) as [|fc rest]; [eexists; reflexivity|].
    unfold Agent.chatSendMessage.
    match goal with |- context [remote ?n] => destruct (Hanswers n) as (response' & ->) end.
    apply IH.
Qed.

Lemma openAILoop_returns host remote remaining :
  (forall n, exists response, remote n = Agent.Answered response) ->
  forall run,
    exists text, fst (Agent.openAILoop host remote None remaining run) = Normal text.
Proof.
  intros Hanswers. induction remaining as [|remaining IH]; intros run.
  - eexists. reflexivity.
  - rewrite openAILoop_step. unfold Agent.fetchCompletion. cbn [Agent.aborted].
    destruct (Hanswers (Agent.providerCalls run)) as (msg & ->).
    destruct (Agent.functionCalls msg) as [|fc rest]; [eexists; reflexivity|].
    apply IH.
Qed.

(** X19. No tool outcome ends a run: when the provider answers every request
    with a response, and the signal does not fire (the Google branch never
    reads it), [sendMessage] returns a text, whatever the requested tools do
    or report. *)
Theorem sendMessage_returns_when_provider_answers (host : Host) (remote : Agent.Provider)
  (provider : Agent.AIProvider) (signal : Agent.Signal) (w : FileSystem.World) :
  (forall n, exists response, remote n = Agent.Answered response) ->
  provider = Agent.google \/ signal = None ->
  exists text,
    fst (Agent.sendMessage host remote provider signal (Agent.startOfRun w)) = Normal text.
Proof.
  intros Hanswers Hsignal. unfold Agent.sendMessage.
  destruct provider; cbn [Agent.isOpenAICompatible];
    try (destruct Hsignal as [Hg| ->]; [discriminate|];
         apply openAILoop_returns; exact Hanswers).
  - unfold Agent.chatSendMessage.
    destruct (Hanswers (Agent.providerCalls (Agent.startOfRun w))) as (response & ->).
    apply googleLoop_returns. exact Hanswers.
  - eexists. reflexivity.
Qed.

Lemma sendMessage_returns_when_provider_answers_witness :
  exists text,
    fst (Agent.sendMessage Agent.sampleHost Agent.oneToolThenAnswer Agent.groq None
           (Agent.startOfRun FsTree.nestedMemory)) = Normal text.
Proof.
  apply (sendMessage_returns_when_provider_answers Agent.sampleHost Agent.oneToolThenAnswer
           Agent.groq None FsTree.nestedMemory).
  - intros [|n]; eexists; reflexivity.
  - right. reflexivity.
Defined.

(* --------------------------------------------------------------------- *)
(** ** ResponseRecovery: what a candidate is parsed from *)

Section RecoveryShape.
Import JsonRecovery.
Variable Value : Type.
Variable JSON_parse : list ascii -> Completion Value.

(** While the stack is non-empty, the collected slice begins with the opener
    that started it, and the bottom of the stack is the closer of that
    opener. *)
Lemma slicesFrom_bracketed rest :
  forall pre stk inS esc slice s,
    (stk <> [] ->
     exists before o body,
       pre = before ++ rev slice /\ rev slice = o :: body
       /\ isOpener o = true /\ List.last stk dquote = closerFor o) ->
    In s (slicesFrom rest stk inS esc slice) ->
    exists before after o body,
      pre ++ rest = before ++ s ++ after
      /\ s = o :: body ++ [closerFor o] /\ isOpener o = true.
Proof.
  induction rest as [|c rest IH]; intros pre stk inS esc slice s Hinv Hin.
  - destruct Hin.
  - assert (Htext : pre ++ c :: rest = (pre ++ [c]) ++ rest)
      by (rewrite <- app_assoc; reflexivity).
    assert (Hgrow : forall stk',
               stk <> [] -> List.last stk' dquote = List.last stk dquote ->
               stk' <> [] ->
               exists before o body,
                 pre ++ [c] = before ++ rev (c :: slice)
                 /\ rev (c :: slice) = o :: body
                 /\ isOpener o = true /\ List.last stk' dquote = closerFor o).
    { intros stk' Hne Hlast _. destruct (Hinv Hne) as (before & o & body & Hpre & Hrev & Ho & Hl).
      exists before, o, (body ++ [c]). simpl. rewrite Hrev.
      split; [rewrite Hpre, Hrev, <- app_assoc; reflexivity|].
      split; [reflexivity|]. split; [exact Ho|]. rewrite Hlast. exact Hl. }
    rewrite Htext. simpl in Hin.
    destruct inS.
    { destruct (Ascii.eqb c backslash && negb esc);
        [|destruct (Ascii.eqb c dquote && negb esc)];
        (eapply IH; [|exact Hin]); intros Hne; exact (Hgrow stk Hne eq_refl Hne). }
    destruct (Ascii.eqb c dquote).
    { (eapply IH; [|exact Hin]); intros Hne; exact (Hgrow stk Hne eq_refl Hne). }
    destruct (isOpener c) eqn:Hopener.
    { destruct stk as [|top below].
      - (eapply IH; [|exact Hin]). intros _.
        exists pre, c, []. repeat split; [exact Hopener].
      - (eapply IH; [|exact Hin]). intros Hne.
        apply (Hgrow (closerFor c :: top :: below)); [discriminate | reflexivity | exact Hne]. }
    destruct (isCloser c).
    2:{ (eapply IH; [|exact Hin]); intros Hne; exact (Hgrow stk Hne eq_refl Hne). }
    destruct stk as [|top [|next below]].
    + (eapply IH; [|exact Hin]). intros Hne. congruence.
    + destruct (Ascii.eqb c top) eqn:Htop.
      * destruct Hin as [<-|Hin].
        -- destruct (Hinv ltac:(discriminate)) as (before & o & body & Hpre & Hrev & Ho & Hl).
           apply Ascii.eqb_eq in Htop. simpl in Hl.
           exists before, rest, o, body. simpl. rewrite Hrev.
           split; [rewrite Hpre, Hrev, <- !app_assoc; reflexivity|].
           split; [|exact Ho]. simpl. congruence.
        -- (eapply IH; [|exact Hin]). intros Hne. congruence.
      * (eapply IH; [|exact Hin]); intros Hne; exact (Hgrow [top] Hne eq_refl Hne).
    + destruct (Ascii.eqb c top).
      * (eapply IH; [|exact Hin]). intros Hne.
        apply (Hgrow (next :: below)); [discriminate | reflexivity | exact Hne].
      * (eapply IH; [|exact Hin]); intros Hne;
          exact (Hgrow (top :: next :: below) Hne eq_refl Hne).
Qed.

(** X20. Every candidate returned by [extractJsonCandidates] was parsed from
    a contiguous part of the text that begins with an opening bracket and
    ends with the matching closing one, either as it stands or with its line
    breaks escaped: text outside brackets is never handed to [JSON.parse]. *)
Theorem extractJsonCandidates_parses_bracketed_slices
  (text : list ascii) (values : list Value) (v : Value) :
  extractJsonCandidates JSON_parse text = Normal values ->
  In v values ->
  exists before slice after opener body,
    text = before ++ slice ++ after
    /\ slice = opener :: body ++ [closerFor opener]
    /\ isOpener opener = true
    /\ (JSON_parse slice = Normal v \/ JSON_parse (replaceNewlines slice) = Normal v).
Proof.
  intros Hrun Hin. rewrite extractJsonCandidates_slices in Hrun.
  injection Hrun as <-. apply in_flat_map in Hin. destruct Hin as (slice & Hslice & Hv).
  unfold topLevelSlices in Hslice.
  destruct (slicesFrom_bracketed text [] [] false false [] slice) as
    (before & after & o & body & Htext & Hshape & Ho); [congruence | exact Hslice |].
  exists before, slice, after, o, body. simpl in Htext.
  split; [exact Htext|]. split; [exact Hshape|]. split; [exact Ho|].
  unfold attempt in Hv.
  destruct (JSON_parse slice) as [v0|e].
  - destruct Hv as [<-|[]]. left. reflexivity.
  - destruct (JSON_parse (replaceNewlines slice)) as [v0|e']; [|destruct Hv].
    destruct Hv as [<-|[]]. right. reflexivity.
Qed.

Lemma slicesFrom_in_string tail :
  forallb (fun c => negb (Ascii.eqb c dquote)) tail = true ->
  forall stk esc slice, slicesFrom tail stk true esc slice = [].
Proof.
  induction tail as [|c tail IH]; simpl; intros Hfree stk esc slice.
  - reflexivity.
  - apply andb_true_iff in Hfree. destruct Hfree as [Hc Hfree].
    apply negb_true_iff in Hc. rewrite Hc. simpl.
    destruct (Ascii.eqb c backslash && negb esc); apply IH; exact Hfree.
Qed.

Lemma slicesFrom_prose prose :
  forallb (fun c => negb (Ascii.eqb c dquote) && negb (isOpener c)) prose = true ->
  forall rest esc slice,
    slicesFrom (prose ++ rest) [] false esc slice = slicesFrom rest [] false esc slice.
Proof.
  induction prose as [|c prose IH]; simpl; intros Hfree rest esc slice.
  - reflexivity.
  - apply andb_true_iff in Hfree. destruct Hfree as [Hc Hfree].
    apply andb_true_iff in Hc. destruct Hc as [Hquote Hopener].
    apply negb_true_iff in Hquote, Hopener. rewrite Hquote, Hopener.
    destruct (isCloser c); rewrite (IH Hfree);
      apply slicesFrom_slice_irrelevant.
Qed.

(** X21. A double quote outside every bracket opens a string literal for the
    scanner too: after prose without brackets, an unpaired double quote hides
    everything that follows it, and no candidate is returned whatever
    fragments the rest of the text holds. *)
Theorem extractJsonCandidates_unpaired_quote (prose tail : list ascii) :
  forallb (fun c => negb (Ascii.eqb c dquote) && negb (isOpener c)) prose = true ->
  forallb (fun c => negb (Ascii.eqb c dquote)) tail = true ->
  extractJsonCandidates JSON_parse (prose ++ dquote :: tail) = Normal [].
Proof.
  intros Hprose Htail. rewrite extractJsonCandidates_slices. unfold topLevelSlices.
  rewrite (slicesFrom_prose prose Hprose). simpl.
  rewrite (slicesFrom_in_string tail Htail). reflexivity.
Qed.

End RecoveryShape.

Lemma extractJsonCandidates_parses_bracketed_slices_witness :
  exists before slice after opener body,
    chars "plan: {'a':1} done" = before ++ slice ++ after
    /\ slice = opener :: body ++ [JsonRecovery.closerFor opener]
    /\ JsonRecovery.isOpener opener = true
    /\ (JsonModel.JSON_parse slice
        = Normal (JsonModel.JObject [("a"%string, JsonModel.JNumber 1 0)])
        \/ JsonModel.JSON_parse (JsonRecovery.replaceNewlines slice)
           = Normal (JsonModel.JObject [("a"%string, JsonModel.JNumber 1 0)])).
Proof.
  apply (extractJsonCandidates_parses_bracketed_slices _ JsonModel.JSON_parse
           (chars "plan: {'a':1} done")
           [JsonModel.JObject [("a"%string, JsonModel.JNumber 1 0)]]).
  - vm_compute. reflexivity.
  - left. reflexivity.
Defined.

Lemma extractJsonCandidates_unpaired_quote_witness :
  JsonRecovery.extractJsonCandidates JsonModel.JSON_parse
    (chars "a 5" ++ dquote :: chars " screen, then [1,2]")
  = Normal [].
Proof.
  apply (extractJsonCandidates_unpaired_quote _ JsonModel.JSON_parse
           (chars "a 5") (chars " screen, then [1,2]")).
  - vm_compute. reflexivity.
  - vm_compute. reflexivity.
Defined.

(* --------------------------------------------------------------------- *)
(** ** Tree traversal: the listing of a directory *)

Lemma insertNode_In lc n sorted x :
  In x (FileSystem.insertNode lc n sorted) <-> x = n \/ In x sorted.
Proof.
  induction sorted as [|head tail IH]; simpl.
  - split; [intros [H|[]]; left; congruence | intros [->|[]]; left; reflexivity].
  - destruct (FileSystem.nodeCompare lc n head <=? 0)%Z; simpl.
    + split; [intros [H|H]; [left; congruence | right; exact H]
             | intros [->|H]; [left; reflexivity | right; exact H]].
    + rewrite IH. split.
      * intros [H|[H|H]]; [right; left; exact H | left; exact H | right; right; exact H].
      * intros [H|[H|H]]; [right; left; exact H | left; exact H | right; right; exact H].
Qed.

Lemma sortNodes_In lc nodes x :
  In x (FileSystem.sortNodes lc nodes) <-> In x nodes.
Proof.
  induction nodes as [|n rest IH]; simpl.
  - reflexivity.
  - rewrite insertNode_In, IH. split; intros [H|H]; auto; left; congruence.
Qed.

Lemma insertNode_length lc n sorted :
  List.length (FileSystem.insertNode lc n sorted) = S (List.length sorted).
Proof.
  induction sorted as [|head tail IH]; simpl.
  - reflexivity.
  - destruct (FileSystem.nodeCompare lc n head <=? 0)%Z; simpl; [reflexivity|].
    rewrite IH. reflexivity.
Qed.

Lemma sortNodes_length lc nodes :
  List.length (FileSystem.sortNodes lc nodes) = List.length nodes.
Proof.
  induction nodes as [|n rest IH]; simpl.
  - reflexivity.
  - rewrite insertNode_length, IH. reflexivity.
Qed.

(** Whatever the collation, an insertion keeps the directories ahead of the
    files. *)
Lemma insertNode_directories_first lc n dirs :
  forall files,
    Forall (fun d => FileSystem.nodeKind d = FileSystem.directory) dirs ->
    Forall (fun f => FileSystem.nodeKind f = FileSystem.file) files ->
    exists dirs' files',
      FileSystem.insertNode lc n (dirs ++ files) = dirs' ++ files'
      /\ Forall (fun d => FileSystem.nodeKind d = FileSystem.directory) dirs'
      /\ Forall (fun f => FileSystem.nodeKind f = FileSystem.file) files'.
Proof.
  induction dirs as [|d ds IH]; intros files Hdirs Hfiles.
  - destruct (FileSystem.nodeKind n) eqn:Hkind.
    + exists [], (FileSystem.insertNode lc n files).
      split; [reflexivity|]. split; [constructor|].
      rewrite Forall_forall in *. intros x Hx. apply insertNode_In in Hx.
      destruct Hx as [->|Hx]; [exact Hkind | exact (Hfiles x Hx)].
    + exists [n], files. split; [|split; [repeat constructor; exact Hkind | exact Hfiles]].
      destruct files as [|f fs]; [reflexivity|].
      inversion Hfiles as [|? ? Hf _]; subst.
      simpl. unfold FileSystem.nodeCompare. rewrite Hkind, Hf. reflexivity.
  - inversion Hdirs as [|? ? Hd Hds]; subst.
    simpl. destruct (FileSystem.nodeCompare lc n d <=? 0)%Z eqn:Hcompare.
    + destruct (FileSystem.nodeKind n) eqn:Hkind.
      * unfold FileSystem.nodeCompare in Hcompare. rewrite Hkind, Hd in Hcompare.
        simpl in Hcompare. discriminate.
      * exists (n :: d :: ds), files.
        split; [reflexivity|]. split; [|exact Hfiles].
        constructor; [exact Hkind | exact Hdirs].
    + destruct (IH files Hds Hfiles) as (dirs' & files' & Heq & Hdirs' & Hfiles').
      exists (d :: dirs'), files'. rewrite Heq.
      split; [reflexivity|]. split; [|exact Hfiles'].
      constructor; [exact Hd | exact Hdirs'].
Qed.

Lemma sortNodes_directories_first lc nodes :
  exists dirs files,
    FileSystem.sortNodes lc nodes = dirs ++ files
    /\ Forall (fun d => FileSystem.nodeKind d = FileSystem.directory) dirs
    /\ Forall (fun f => FileSystem.nodeKind f = FileSystem.file) files.
Proof.
  induction nodes as [|n rest IH]; simpl.
  - exists [], []. repeat split; constructor.
  - destruct IH as (dirs & files & -> & Hdirs & Hfiles).
    apply insertNode_directories_first; assumption.
Qed.

(** X22. The listing of a directory has one node for each of its entries,
    dot files and heavy directories included, with the directories ahead of
    the files whatever the collation of the host; a heavy directory
    ([node_modules], [.git], [dist], [build], [.next]) is listed with no
    children, whatever it holds. *)
Theorem readDirectoryRecursive_lists_every_entry
  (lc : string -> string -> Z) (backend : FileSystem.Backend)
  (name : string) (children : FileSystem.Children) (path : string) :
  let listing :=
    FileSystem.readDirectoryRecursive lc backend
      (FileSystem.MemoryDirectory name children) path in
  List.length listing = List.length children
  /\ (exists dirs files,
         listing = dirs ++ files
         /\ Forall (fun d => FileSystem.nodeKind d = FileSystem.directory) dirs
         /\ Forall (fun f => FileSystem.nodeKind f = FileSystem.file) files)
  /\ (forall key fileName content,
         In (key, FileSystem.MemoryFile fileName content) children ->
         In (FileSystem.Node
               (FileSystem.listedName backend key (FileSystem.MemoryFile fileName content))
               FileSystem.file (FileSystem.childPath path key) None)
            listing)
  /\ (forall key dirName sub,
         In (key, FileSystem.MemoryDirectory dirName sub) children ->
         existsb (String.eqb
                    (FileSystem.listedName backend key
                       (FileSystem.MemoryDirectory dirName sub)))
           FileSystem.heavyDirectories = true ->
         In (FileSystem.Node
               (FileSystem.listedName backend key (FileSystem.MemoryDirectory dirName sub))
               FileSystem.directory (FileSystem.childPath path key) (Some []))
            listing).
Proof.
  cbv zeta. cbn [FileSystem.readDirectoryRecursive].
  split; [rewrite sortNodes_length, length_map; reflexivity|].
  split; [apply sortNodes_directories_first|].
  split.
  - intros key fileName content Hin. apply sortNodes_In.
    apply in_map_iff. exists (key, FileSystem.MemoryFile fileName content).
    split; [reflexivity | exact Hin].
  - intros key dirName sub Hin Hheavy. apply sortNodes_In.
    apply in_map_iff. exists (key, FileSystem.MemoryDirectory dirName sub).
    split; [|exact Hin]. cbv beta iota. rewrite Hheavy. reflexivity.
Qed.

(* --------------------------------------------------------------------- *)
(** ** VirtualFileSystem: failures and degenerate paths *)


(** *** The tables and the plain objects *)














Lemma nativeWalk_stops {A : Type} (finish : FileSystem.Children -> Completion A * FileSystem.Children)
  parts :
  forall dir rootName,
    (forall name children,
        FsTree.reach FileSystem.native parts (FileSystem.MemoryDirectory rootName dir)
        <> Some (FileSystem.MemoryDirectory name children)) ->
    exists e, FileSystem.nativeWalk parts finish dir = (Throw e, dir).
Proof.
  induction parts as [|part rest IH]; intros dir rootName Hmissing; simpl in *.
  - elim (Hmissing rootName dir). reflexivity.
  - destruct (FileSystem.validName part); [|eexists; reflexivity].
    destruct (Table.get dir part) as [[fileName content|name sub]|] eqn:Hget;
      try (eexists; reflexivity).
    destruct (IH sub name Hmissing) as (e & ->).
    exists e. rewrite (table_set_same_value _ _ _ _ Hget). reflexivity.
Qed.

(** X24. A [deleteEntry] whose parent directory does not exist differs by
    backend: on the memory backend it returns as if it had deleted, without
    a notification and with the world as it was; on the native backend it
    throws, also with the world as it was. *)
Theorem deleteEntry_missing_parent
  (path name : string) (init : list string) (root : FileSystem.Children)
  (w : FileSystem.World) :
  FileSystem.normalize path = init ++ [name] ->
  FsTree.activeTree w = Some root ->
  (forall dirName children,
      FsTree.reach (FileSystem.provider w) init (FileSystem.MemoryDirectory "root" root)
      <> Some (FileSystem.MemoryDirectory dirName children)) ->
  match FileSystem.provider w with
  | FileSystem.memory => FileSystem.deleteEntry path w = (Normal tt, w)
  | FileSystem.native => exists e, FileSystem.deleteEntry path w = (Throw e, w)
  end.
Proof.
  intros Hparts Htree Hmissing. unfold FileSystem.deleteEntry, FsTree.activeTree in *.
  destruct (FileSystem.provider w) eqn:Hprovider.
  - rewrite Hparts, pop_snoc. unfold FileSystem.bind, FileSystem.onRootHandle.
    rewrite Htree.
    destruct (nativeWalk_stops
                (FileSystem.nativeRemoveEntry (FileSystem.hostName (Some name)))
                init root "root" Hmissing) as (e & ->).
    exists e. rewrite (withRootHandle_same _ _ Htree). reflexivity.
  - injection Htree as <-.
    rewrite Hparts, pop_snoc. unfold FileSystem.getMemoryEntry.
    rewrite (normalize_parent _ _ _ Hparts), <- reach_memory_walk.
    destruct (FsTree.reach FileSystem.memory init _) as [[fileName content|dirName children]|]
      eqn:Hreach; try reflexivity.
    elim (Hmissing dirName children). reflexivity.
Qed.

Lemma deleteEntry_missing_parent_witness :
  FileSystem.deleteEntry "docs/old/notes.md" FsTree.nestedMemory
  = (Normal tt, FsTree.nestedMemory)
  /\ exists e,
       FileSystem.deleteEntry "docs/old/notes.md" FsSpec.nativeWorkspace
       = (Throw e, FsSpec.nativeWorkspace).
Proof.
  split.
  - apply (deleteEntry_missing_parent "docs/old/notes.md" "notes.md" ["docs"; "old"]%string
             (FileSystem.memoryRoot FsTree.nestedMemory) FsTree.nestedMemory).
    + vm_compute. reflexivity.
    + vm_compute. reflexivity.
    + intros dirName children. vm_compute. discriminate.
  - apply (deleteEntry_missing_parent "docs/old/notes.md" "notes.md" ["docs"; "old"]%string
             [("README.md"%string, FileSystem.MemoryFile "README.md" "# Project")]
             FsSpec.nativeWorkspace).
    + vm_compute. reflexivity.
    + vm_compute. reflexivity.
    + intros dirName children. vm_compute. discriminate.
Defined.

(** X25. A path without segments (the empty path, [/], [./]) is not a place
    to write: on the memory backend [writeFile] returns without writing or
    notifying, and the read of the same path throws; on the native backend
    the missing name reaches the host as [undefined], the content is written
    to the file of that name in the root directory, and the read of the path
    throws [Invalid path]. *)
Theorem writeFile_without_segments (path content : string) (w : FileSystem.World) :
  FileSystem.normalize path = [] ->
  match FileSystem.provider w with
  | FileSystem.memory =>
      FileSystem.writeFile path content w = (Normal tt, w)
      /\ fst (FileSystem.readFile path w) = Throw (Error ("File not found: " ++ path))
  | FileSystem.native =>
      forall root,
        FileSystem.rootHandle w = Some root ->
        (forall name children,
            Table.get root "undefined" <> Some (FileSystem.MemoryDirectory name children)) ->
        fst (FileSystem.writeFile path content w) = Normal tt
        /\ fst (FileSystem.readFile "undefined" (snd (FileSystem.writeFile path content w)))
           = Normal content
        /\ fst (FileSystem.readFile path (snd (FileSystem.writeFile path content w)))
           = Throw (Error "Invalid path")
  end.
Proof.
  intros Hparts.
  destruct (FileSystem.provider w) eqn:Hprovider.
  - intros root Hroot Hfree.
    assert (Hwrite :
              FileSystem.writeFile path content w
              = (Normal tt,
                 FileSystem.notify
                   {| FileSystem.changeType := FileSystem.write;
                      FileSystem.changePath := path;
                      FileSystem.changeContent := Some content |}
                   (FileSystem.withRootHandle w
                      (Some (Table.set root "undefined"
                               (FileSystem.MemoryFile "undefined" content)))))).
    { unfold FileSystem.writeFile. rewrite Hprovider, Hparts. cbn [FileSystem.pop].
      unfold FileSystem.bind, FileSystem.onRootHandle. rewrite Hroot.
      cbn [FileSystem.nativeWrite FileSystem.hostName].
      change (FileSystem.validName "undefined") with true. cbv iota.
      destruct (Table.get root "undefined") as [[n c|n ch]|] eqn:Hget; try reflexivity.
      elim (Hfree n ch). reflexivity. }
    rewrite Hwrite. cbn [fst snd].
    split; [reflexivity|]. split.
    + unfold FileSystem.readFile. cbn [FileSystem.notify FileSystem.provider
                                       FileSystem.withRootHandle].
      rewrite Hprovider. unfold FileSystem.getFileHandleNative.
      change (FileSystem.normalize "undefined") with ["undefined"%string].
      cbn [FileSystem.pop List.last removelast].
      unfold FileSystem.onRootHandle.
      cbn [FileSystem.notify FileSystem.rootHandle FileSystem.withRootHandle
           FileSystem.nativeWalk].
      unfold FileSystem.nativeFileText.
      change (FileSystem.validName "undefined") with true. cbv iota.
      rewrite table_get_set_same. reflexivity.
    + unfold FileSystem.readFile. cbn [FileSystem.notify FileSystem.provider
                                       FileSystem.withRootHandle].
      rewrite Hprovider. unfold FileSystem.getFileHandleNative. rewrite Hparts.
      reflexivity.
  - split.
    + unfold FileSystem.writeFile, FileSystem.memoryWriteFile. rewrite Hprovider, Hparts.
      reflexivity.
    + unfold FileSystem.readFile, FileSystem.getMemoryEntry. rewrite Hprovider, Hparts.
      reflexivity.
Qed.

Lemma writeFile_without_segments_witness :
  FileSystem.writeFile "./" "lost" FsTree.nestedMemory = (Normal tt, FsTree.nestedMemory)
  /\ fst (FileSystem.readFile "./" FsTree.nestedMemory)
     = Throw (Error "File not found: ./").
Proof.
  apply (writeFile_without_segments "./" "lost" FsTree.nestedMemory).
  vm_compute. reflexivity.
Defined.

Lemma ensureDirs_existing parts finish :
  forall current rootName dirName children,
    FileSystem.walk parts (FileSystem.MemoryDirectory rootName current)
    = Some (FileSystem.MemoryDirectory dirName children) ->
    exists root', FileSystem.ensureDirs parts finish current = Normal root'.
Proof.
  induction parts as [|part rest IH]; intros current rootName dirName children Hwalk.
  - eexists. reflexivity.
  - destruct (walk_directory_step _ _ _ _ _ _ Hwalk) as (subName & sub & Hget & Hrest).
    simpl. rewrite Hget, Hget.
    destruct (IH sub subName dirName children Hrest) as (sub' & ->).
    simpl. eexists. reflexivity.
Qed.

Lemma writeFile_leaf path content w w' below more text :
  FileSystem.writeFile path content w = (Normal tt, w') ->
  FileSystem.normalize path <> [] ->
  more <> [] ->
  FileSystem.normalize below = FileSystem.normalize path ++ more ->
  fst (FileSystem.readFile below w') <> Normal text.
Proof.
  intros Hwrite Hne Hmore Hbelow Hread.
  pose proof (writeFile_reads_back _ _ _ _ Hne Hwrite) as Hback.
  apply readFile_fileAt in Hback. apply readFile_fileAt in Hread.
  destruct (fileAt_reach _ _ _ Hback) as (root & fileName & Htree & Hreach).
  unfold FsTree.fileAt in Hread. rewrite Htree, Hbelow, reach_app, Hreach in Hread.
  destruct more as [|part more']; [congruence|]. simpl in Hread. discriminate.
Qed.

Lemma nativeWrite_onto_directory init name content :
  forall dir rootName dirName children,
    FsTree.reach FileSystem.native (init ++ [name]) (FileSystem.MemoryDirectory rootName dir)
    = Some (FileSystem.MemoryDirectory dirName children) ->
    FileSystem.nativeWrite init name content dir = (Throw FileSystem.typeMismatch, dir).
Proof.
  induction init as [|part rest IH]; intros dir rootName dirName children Hreach;
    simpl in *.
  - destruct (FileSystem.validName name); [|discriminate].
    destruct (Table.get dir name) as [[n c|n ch]|]; try discriminate. reflexivity.
  - destruct (FileSystem.validName part); [|discriminate].
    destruct (Table.get dir part) as [[n c|n sub]|] eqn:Hget; try discriminate.
    + destruct rest; simpl in Hreach; discriminate.
    + rewrite (IH sub n dirName children Hreach).
      rewrite (table_set_same_value _ _ _ _ Hget). reflexivity.
Qed.

(** X26. [writeFile] at the path of an existing directory differs by
    backend.  The memory backend does not refuse it: the write returns, the
    directory and all it held are replaced by the file, and nothing is read
    below the path any more.  The native backend throws a
    [TypeMismatchError] and leaves the tree as it was. *)
Theorem writeFile_onto_directory
  (path content dirName : string) (root children : FileSystem.Children)
  (w : FileSystem.World) :
  FileSystem.normalize path <> [] ->
  FsTree.activeTree w = Some root ->
  FsTree.reach (FileSystem.provider w) (FileSystem.normalize path)
    (FileSystem.MemoryDirectory "root" root)
  = Some (FileSystem.MemoryDirectory dirName children) ->
  match FileSystem.provider w with
  | FileSystem.memory =>
      exists w',
        FileSystem.writeFile path content w = (Normal tt, w')
        /\ fst (FileSystem.readFile path w') = Normal content
        /\ forall below more text,
             more <> [] ->
             FileSystem.normalize below = FileSystem.normalize path ++ more ->
             fst (FileSystem.readFile below w') <> Normal text
  | FileSystem.native =>
      FileSystem.writeFile path content w = (Throw FileSystem.typeMismatch, w)
  end.
Proof.
  intros Hne Htree Hreach. unfold FsTree.activeTree in Htree.
  destruct (pop_nonempty _ Hne) as (init & name & Hparts & Hpop).
  destruct (FileSystem.provider w) eqn:Hprovider.
  - unfold FileSystem.writeFile. rewrite Hprovider, Hpop.
    unfold FileSystem.bind, FileSystem.onRootHandle. rewrite Htree.
    cbn [FileSystem.hostName]. rewrite Hparts in Hreach.
    rewrite (nativeWrite_onto_directory _ _ content _ _ _ _ Hreach).
    rewrite (withRootHandle_same _ _ Htree). reflexivity.
  - injection Htree as <-.
    assert (Hwrite : exists w', FileSystem.writeFile path content w = (Normal tt, w')).
    { unfold FileSystem.writeFile, FileSystem.memoryWriteFile. rewrite Hprovider, Hpop.
      unfold FileSystem.ensureMemoryDir. rewrite (normalize_parent _ _ _ Hparts).
      rewrite Hparts, reach_memory_walk, walk_app in Hreach.
      destruct (FileSystem.walk init _) as [[n c|parentName siblings]|] eqn:Hparent;
        try discriminate.
      destruct (ensureDirs_existing init
                  (fun d => Table.set d name (FileSystem.MemoryFile name content))
                  _ _ _ _ Hparent) as (root' & ->).
      eexists. reflexivity. }
    destruct Hwrite as (w' & Hwrite). exists w'.
    split; [exact Hwrite|]. split.
    + exact (writeFile_reads_back _ _ _ _ Hne Hwrite).
    + intros below more text Hmore Hbelow.
      exact (writeFile_leaf _ _ _ _ _ _ _ Hwrite Hne Hmore Hbelow).
Qed.

Lemma writeFile_onto_directory_witness :
  (exists w',
      FileSystem.writeFile "src" "flat" FsTree.nestedMemory = (Normal tt, w')
      /\ fst (FileSystem.readFile "src" w') = Normal "flat"%string
      /\ forall below more text,
           more <> [] ->
           FileSystem.normalize below = FileSystem.normalize "src" ++ more ->
           fst (FileSystem.readFile below w') <> Normal text)
  /\ FileSystem.writeFile "src/lib" "flat" FsTree.nestedNative
     = (Throw FileSystem.typeMismatch, FsTree.nestedNative).
Proof.
  split.
  - apply (writeFile_onto_directory "src" "flat" "src"
             (FileSystem.memoryRoot FsTree.nestedMemory)
             [("App.tsx"%string, FileSystem.MemoryFile "App.tsx" "function App() {}");
              ("lib"%string,
               FileSystem.MemoryDirectory "lib"
                 [("util.ts"%string,
                   FileSystem.MemoryFile "util.ts" "export const one = 1")])]
             FsTree.nestedMemory).
    + vm_compute. discriminate.
    + vm_compute. reflexivity.
    + vm_compute. reflexivity.
  - apply (writeFile_onto_directory "src/lib" "flat" "lib"
             [("README.md"%string, FileSystem.MemoryFile "README.md" "# Project");
              ("src"%string,
               FileSystem.MemoryDirectory "src"
                 [("App.tsx"%string, FileSystem.MemoryFile "App.tsx" "function App() {}");
                  ("lib"%string,
                   FileSystem.MemoryDirectory "lib"
                     [("util.ts"%string,
                       FileSystem.MemoryFile "util.ts" "export const one = 1")])])]
             [("util.ts"%string, FileSystem.MemoryFile "util.ts" "export const one = 1")]
             FsTree.nestedNative).
    + vm_compute. discriminate.
    + vm_compute. reflexivity.
    + vm_compute. reflexivity.
Defined.

(* --------------------------------------------------------------------- *)
(** ** The index across tool calls *)

Section IndexInvariant.
Variable P : Knowledge.Index -> Prop.
Hypothesis P_listener :
  forall now n index, P index -> P (FileSystem.knowledgeListener now n index).

Lemma invariant_writeFile path content w :
  P (FileSystem.index w) -> P (FileSystem.index (snd (FileSystem.writeFile path content w))).
Proof.
  intros Hinv. unfold FileSystem.writeFile.
  destruct (FileSystem.provider w).
  - destruct (FileSystem.pop (FileSystem.normalize path)) as [popped init].
    unfold FileSystem.bind.
    destruct (onRootHandle_fields
                (FileSystem.nativeWrite init (FileSystem.hostName popped) content) w)
      as (Hindex & _ & _).
    destruct (FileSystem.onRootHandle _ w) as [[[]|e] w1]; simpl in *; rewrite Hindex.
    + apply P_listener. exact Hinv.
    + exact Hinv.
  - unfold FileSystem.memoryWriteFile.
    destruct (FileSystem.pop (FileSystem.normalize path)) as [[fileName|] init];
      [|exact Hinv].
    destruct (FileSystem.ensureMemoryDir _ _ _); [|exact Hinv].
    simpl. apply P_listener. exact Hinv.
Qed.

Lemma invariant_deleteEntry path w :
  P (FileSystem.index w) -> P (FileSystem.index (snd (FileSystem.deleteEntry path w))).
Proof.
  intros Hinv. unfold FileSystem.deleteEntry.
  destruct (FileSystem.provider w).
  - destruct (FileSystem.pop (FileSystem.normalize path)) as [popped init].
    unfold FileSystem.bind.
    destruct (onRootHandle_fields
                (FileSystem.nativeWalk init
                   (FileSystem.nativeRemoveEntry (FileSystem.hostName popped))) w)
      as (Hindex & _ & _).
    destruct (FileSystem.onRootHandle _ w) as [[[]|e] w1]; simpl in *; rewrite Hindex.
    + apply P_listener. exact Hinv.
    + exact Hinv.
  - destruct (FileSystem.pop (FileSystem.normalize path)) as [[name|] init];
      [|exact Hinv].
    destruct (FileSystem.getMemoryEntry w _) as [[n c|n ch]|]; try exact Hinv.
    simpl. apply P_listener. exact Hinv.
Qed.

Lemma invariant_executeTool host call w :
  P (FileSystem.index w) -> P (FileSystem.index (snd (Tools.executeTool host call w))).
Proof.
  intros Hinv. unfold Tools.executeTool.
  destruct call as [path|path|paths|path content|path|path|query|query|command
                   |entryPoint|url|name]; simpl.
  - exact Hinv.
  - unfold FileSystem.bind. pose proof (readFile_index path w) as Hindex.
    destruct (FileSystem.readFile path w) as [[content|e] w1]; simpl in *;
      rewrite Hindex; exact Hinv.
  - unfold FileSystem.bind. pose proof (readMultipleFiles_index paths [] w) as Hindex.
    destruct (FileSystem.readMultipleFiles paths [] w) as [[results|e] w1]; simpl in *;
      rewrite Hindex; exact Hinv.
  - assert (Hwrite :
        P (FileSystem.index
             (snd (match FileSystem.bind (FileSystem.writeFile path content)
                           (fun _ => FileSystem.ret Tools.Success) w with
                   | (Normal result, w') => (result, w')
                   | (Throw e, w') => (Tools.ErrorResult (errorMessage e), w')
                   end)))).
    { unfold FileSystem.bind.
      pose proof (invariant_writeFile path content w Hinv) as Hw.
      destruct (FileSystem.writeFile path content w) as [[[]|e] w1]; exact Hw. }
    destruct (Syntax.validate host content path) as [message|]; [|exact Hwrite].
    destruct (String.length message =? 0)%nat; [exact Hwrite | exact Hinv].
  - unfold FileSystem.bind. pose proof (createDirectory_index path w) as Hindex.
    destruct (FileSystem.createDirectory path w) as [[[]|e] w1]; simpl in *;
      rewrite Hindex; exact Hinv.
  - unfold FileSystem.bind.
    pose proof (invariant_deleteEntry path w Hinv) as Hw.
    destruct (FileSystem.deleteEntry path w) as [[[]|e] w1]; exact Hw.
  - exact Hinv.
  - exact Hinv.
  - exact Hinv.
  - destruct (generatePreviewUrl host _); exact Hinv.
  - destruct (fetchContents host url); exact Hinv.
  - exact Hinv.
Qed.

Lemma invariant_afterCalls host calls :
  forall w, P (FileSystem.index w) ->
            P (FileSystem.index (IndexSpec.afterCalls host calls w)).
Proof.
  unfold IndexSpec.afterCalls.
  induction calls as [|call rest IH]; intros w Hinv; simpl.
  - exact Hinv.
  - apply IH. apply invariant_executeTool. exact Hinv.
Qed.

End IndexInvariant.

Lemma In_keys_set {V : Type} (table : list (string * V)) key value x :
  In x (Table.keys (Table.set table key value)) -> x = key \/ In x (Table.keys table).
Proof.
  induction table as [|[k v] rest IH]; simpl.
  - intros [H|[]]. left. congruence.
  - destruct (String.eqb k key); simpl.
    + intros H. right. exact H.
    + intros [H|H]; [right; left; exact H|].
      destruct (IH H) as [Hx|Hx]; [left; exact Hx | right; right; exact Hx].
Qed.

Lemma NoDup_keys_set {V : Type} (table : list (string * V)) key value :
  NoDup (Table.keys table) -> NoDup (Table.keys (Table.set table key value)).
Proof.
  induction table as [|[k v] rest IH]; simpl; intros Hnodup.
  - constructor; [intros [] | constructor].
  - inversion Hnodup as [|? ? Hfresh Hrest]; subst.
    destruct (String.eqb k key) eqn:Hk; simpl.
    + constructor; assumption.
    + constructor; [|exact (IH Hrest)].
      intros Hin. apply In_keys_set in Hin. destruct Hin as [->|Hin]; [|contradiction].
      rewrite String.eqb_refl in Hk. discriminate.
Qed.

Lemma In_keys_remove {V : Type} (table : list (string * V)) key x :
  In x (Table.keys (Table.remove table key)) -> In x (Table.keys table).
Proof.
  induction table as [|[k v] rest IH]; simpl.
  - intros [].
  - destruct (String.eqb k key); simpl.
    + intros H. right. exact (IH H).
    + intros [H|H]; [left; exact H | right; exact (IH H)].
Qed.

Lemma NoDup_keys_remove {V : Type} (table : list (string * V)) key :
  NoDup (Table.keys table) -> NoDup (Table.keys (Table.remove table key)).
Proof.
  induction table as [|[k v] rest IH]; simpl; intros Hnodup.
  - constructor.
  - inversion Hnodup as [|? ? Hfresh Hrest]; subst.
    destruct (String.eqb k key); simpl; [exact (IH Hrest)|].
    constructor; [|exact (IH Hrest)].
    intros Hin. apply Hfresh. exact (In_keys_remove _ _ _ Hin).
Qed.

Lemma onePerPath_listener now n index :
  IndexSpec.onePerPath index ->
  IndexSpec.onePerPath (FileSystem.knowledgeListener now n index).
Proof.
  intros [Hkeyed Hnodup]. unfold FileSystem.knowledgeListener.
  destruct (FileSystem.changeType n).
  - destruct (FileSystem.changeContent n) as [content|]; [|split; assumption].
    destruct (String.length content =? 0)%nat; [split; assumption|].
    split; [apply wellKeyed_indexFile; exact Hkeyed|].
    unfold Knowledge.indexFile.
    destruct (JsString.includes _ "node_modules" || JsString.startsWith _ ".");
      [exact Hnodup|].
    destruct (Knowledge.parseSymbols content _) as [symbols summary].
    apply NoDup_keys_set. exact Hnodup.
  - split; [apply table_Forall_remove; exact Hkeyed|].
    apply NoDup_keys_remove. exact Hnodup.
Qed.

Lemma insertByScore_Permutation r sorted :
  Permutation (Knowledge.insertByScore r sorted) (r :: sorted).
Proof.
  induction sorted as [|head tail IH]; simpl.
  - apply Permutation_refl.
  - destruct (Knowledge.score head <=? Knowledge.score r)%nat.
    + apply Permutation_refl.
    + apply Permutation_trans with (head :: r :: tail).
      * apply perm_skip. exact IH.
      * apply perm_swap.
Qed.

Lemma sortByScore_Permutation results :
  Permutation (Knowledge.sortByScore results) results.
Proof.
  induction results as [|r rest IH]; simpl.
  - apply Permutation_refl.
  - apply Permutation_trans with (r :: Knowledge.sortByScore rest).
    + apply insertByScore_Permutation.
    + apply perm_skip. exact IH.
Qed.

Lemma scoreEntry_path query terms entry r :
  Knowledge.scoreEntry query terms entry = Some r ->
  Knowledge.resultPath r = Knowledge.path entry.
Proof.
  unfold Knowledge.scoreEntry.
  match goal with |- context [(0 <? ?s)%nat] => destruct (0 <? s)%nat end; [|discriminate].
  intros H. injection H as <-. reflexivity.
Qed.

Lemma scored_once query terms index :
  IndexSpec.onePerPath index ->
  let results :=
    flat_map (fun entry =>
                match Knowledge.scoreEntry query terms entry with
                | Some r => [r]
                | None => []
                end) (Table.values index) in
  NoDup (map Knowledge.resultPath results)
  /\ forall r, In r results -> In (Knowledge.resultPath r) (Table.keys index).
Proof.
  intros [Hkeyed Hnodup]. cbv zeta.
  induction index as [|[key entry] rest IH]; simpl.
  - split; [constructor | intros r []].
  - apply Forall_cons_iff in Hkeyed. destruct Hkeyed as [Hkey Hrest]. simpl in Hkey.
    apply NoDup_cons_iff in Hnodup. destruct Hnodup as [Hfresh Hrest'].
    destruct (IH Hrest Hrest') as (IHnodup & IHin).
    destruct (Knowledge.scoreEntry query terms entry) as [r0|] eqn:Hscore; simpl.
    + pose proof (scoreEntry_path _ _ _ _ Hscore) as Hpath.
      split.
      * constructor; [|exact IHnodup].
        intros Hin. apply in_map_iff in Hin. destruct Hin as (r & Hsame & Hr).
        apply Hfresh. rewrite <- Hkey, <- Hpath, <- Hsame. exact (IHin r Hr).
      * intros r [<-|Hr]; [left; congruence | right; exact (IHin r Hr)].
    + split; [exact IHnodup|]. intros r Hr. right. exact (IHin r Hr).
Qed.

(** X27. Search lists no file twice.  An index that holds each path once
    under its own key keeps doing so through every sequence of tool calls,
    whatever they do and whether they succeed, and over such an index the
    results of [search] have pairwise different paths. *)
Theorem search_lists_each_file_once
  (host : Host) (calls : list Tools.ToolCall) (query : string) (w : FileSystem.World) :
  IndexSpec.onePerPath (FileSystem.index w) ->
  IndexSpec.onePerPath (FileSystem.index (IndexSpec.afterCalls host calls w))
  /\ NoDup (map Knowledge.resultPath
              (Knowledge.ranked (FileSystem.index (IndexSpec.afterCalls host calls w)) query)).
Proof.
  intros Hinv.
  assert (Hafter : IndexSpec.onePerPath (FileSystem.index (IndexSpec.afterCalls host calls w))).
  { apply (invariant_afterCalls IndexSpec.onePerPath onePerPath_listener). exact Hinv. }
  split; [exact Hafter|].
  unfold Knowledge.ranked.
  destruct (scored_once query (JsString.splitSpaces (JsString.toLowerCase query)) _ Hafter)
    as (Hnodup & _).
  set (results := flat_map _ _) in *.
  rewrite <- firstn_map.
  assert (Hsorted : NoDup (map Knowledge.resultPath (Knowledge.sortByScore results))).
  { apply (Permutation_NoDup (l := map Knowledge.resultPath results)); [|exact Hnodup].
    apply Permutation_map, Permutation_sym, sortByScore_Permutation. }
  rewrite <- (firstn_skipn 10 (map Knowledge.resultPath (Knowledge.sortByScore results)))
    in Hsorted.
  exact (NoDup_app_remove_r _ _ Hsorted).
Qed.

Lemma search_lists_each_file_once_witness :
  NoDup (map Knowledge.resultPath
           (Knowledge.ranked
              (FileSystem.index
                 (IndexSpec.afterCalls Agent.sampleHost
                    [Tools.writeFile "src/App.tsx" "function Shell() {}";
                     Tools.deleteFile "src/lib";
                     Tools.writeFile "src/lib/util.ts" "export const two = 2"]
                    FsTree.nestedMemory))
              "src")).
Proof.
  apply (search_lists_each_file_once Agent.sampleHost
           [Tools.writeFile "src/App.tsx" "function Shell() {}";
            Tools.deleteFile "src/lib";
            Tools.writeFile "src/lib/util.ts" "export const two = 2"]
           "src" FsTree.nestedMemory).
  split.
  - vm_compute. repeat constructor.
  - vm_compute. repeat constructor; simpl; intuition discriminate.
Defined.

(* --------------------------------------------------------------------- *)
(** ** [createDirectory]: the directory is there *)

Lemma nativeCreateDirs_reach parts :
  forall dir dir' rootName,
    FileSystem.nativeCreateDirs parts dir = (Normal tt, dir') ->
    exists name children,
      FsTree.reach FileSystem.native parts (FileSystem.MemoryDirectory rootName dir')
      = Some (FileSystem.MemoryDirectory name children).
Proof.
  induction parts as [|part rest IH]; intros dir dir' rootName Hrun; simpl in *.
  - injection Hrun as <-. eexists. eexists. reflexivity.
  - destruct (FileSystem.validName part) eqn:Hvalid; [|discriminate].
    destruct (Table.get dir part) as [[n c|name sub]|]; try discriminate.
    + destruct (FileSystem.nativeCreateDirs rest sub) as [r sub'] eqn:Hrest.
      injection Hrun as -> <-. rewrite table_get_set_same.
      exact (IH _ _ name Hrest).
    + destruct (FileSystem.nativeCreateDirs rest []) as [r sub'] eqn:Hrest.
      injection Hrun as -> <-. rewrite table_get_set_same.
      exact (IH _ _ part Hrest).
Qed.

Lemma reach_directory_root_name backend parts n1 n2 children name sub :
  FsTree.reach backend parts (FileSystem.MemoryDirectory n1 children)
  = Some (FileSystem.MemoryDirectory name sub) ->
  exists name', FsTree.reach backend parts (FileSystem.MemoryDirectory n2 children)
                = Some (FileSystem.MemoryDirectory name' sub).
Proof.
  destruct parts as [|part rest]; simpl.
  - intros H. injection H as _ <-. eexists. reflexivity.
  - intros H. exists name. exact H.
Qed.

(** X28. After a [createDirectory] that has returned, its path is a
    directory of the active tree, on both backends, and reading the path as a
    file fails. *)
Theorem createDirectory_creates (path : string) (w w' : FileSystem.World) :
  FileSystem.createDirectory path w = (Normal tt, w') ->
  exists root',
    FsTree.activeTree w' = Some root'
    /\ (exists name children,
          FsTree.reach (FileSystem.provider w') (FileSystem.normalize path)
            (FileSystem.MemoryDirectory "root" root')
          = Some (FileSystem.MemoryDirectory name children))
    /\ forall text, fst (FileSystem.readFile path w') <> Normal text.
Proof.
  intros Hcreate.
  assert (Hdir : exists root',
             FsTree.activeTree w' = Some root'
             /\ exists name children,
                 FsTree.reach (FileSystem.provider w') (FileSystem.normalize path)
                   (FileSystem.MemoryDirectory "root" root')
                 = Some (FileSystem.MemoryDirectory name children)).
  { unfold FileSystem.createDirectory in Hcreate. unfold FsTree.activeTree.
    destruct (FileSystem.provider w) eqn:Hprovider.
    - unfold FileSystem.onRootHandle in Hcreate.
      destruct (FileSystem.rootHandle w) as [root|]; [|discriminate].
      destruct (FileSystem.nativeCreateDirs (FileSystem.normalize path) root)
        as [r root'] eqn:Hnative.
      injection Hcreate as -> <-. simpl. rewrite Hprovider.
      exists root'. split; [reflexivity|].
      exact (nativeCreateDirs_reach _ _ _ "root" Hnative).
    - unfold FileSystem.ensureMemoryDir in Hcreate.
      destruct (FileSystem.ensureDirs _ _ (FileSystem.memoryRoot w)) as [root'|e] eqn:Hrun;
        [|discriminate].
      injection Hcreate as <-. simpl. rewrite Hprovider.
      exists root'. split; [reflexivity|].
      destruct (ensureDirs_walk _ _ _ _ "root" Hrun) as (dirName & children & Hwalk).
      rewrite reach_memory_walk. eexists. eexists. exact Hwalk. }
  destruct Hdir as (root' & Htree & name & children & Hreach).
  exists root'. split; [exact Htree|]. split; [exists name, children; exact Hreach|].
  intros text Hread. apply readFile_fileAt in Hread.
  unfold FsTree.fileAt in Hread. rewrite Htree in Hread.
  destruct (reach_directory_root_name _ _ _ "" _ _ _ Hreach) as (name' & Hreach').
  rewrite Hreach' in Hread. discriminate.
Qed.

Lemma createDirectory_creates_witness :
  exists root',
    FsTree.activeTree (snd (FileSystem.createDirectory "assets/img" FsTree.nestedNative))
    = Some root'
    /\ (exists name children,
          FsTree.reach
            (FileSystem.provider
               (snd (FileSystem.createDirectory "assets/img" FsTree.nestedNative)))
            (FileSystem.normalize "assets/img")
            (FileSystem.MemoryDirectory "root" root')
          = Some (FileSystem.MemoryDirectory name children))
    /\ forall text,
         fst (FileSystem.readFile "assets/img"
                (snd (FileSystem.createDirectory "assets/img" FsTree.nestedNative)))
         <> Normal text.
Proof.
  apply (createDirectory_creates "assets/img" FsTree.nestedNative).
  vm_compute. reflexivity.
Defined.

(* --------------------------------------------------------------------- *)
(** ** The orchestrator: what a run leaves behind *)

Lemma executeTool_same_world host call w :
  ~ In (Tools.toolName call) AgentSpec.mutatingTools ->
  snd (Tools.executeTool host call w) = w.
Proof.
  intros Hname. unfold Tools.executeTool, AgentSpec.mutatingTools in *.
  destruct call; cbn [Tools.toolName] in Hname; cbn [Tools.dispatch];
    try (exfalso; apply Hname; simpl; tauto); try reflexivity.
  - unfold FileSystem.bind, FileSystem.ret.
    pose proof (readFile_same_world path w) as Hsame.
    destruct (FileSystem.readFile path w) as [[content|e] w1]; exact Hsame.
  - unfold FileSystem.bind, FileSystem.ret.
    destruct (readMultipleFiles_fold paths [] w) as (out & -> & _). reflexivity.
  - destruct (generatePreviewUrl host _); reflexivity.
  - destruct (fetchContents host url); reflexivity.
Qed.

Lemma runTools_snd_cons host fc rest run :
  snd (Agent.runTools host (fc :: rest) run)
  = snd (Agent.runTools host rest (snd (Agent.runTool host fc run))).
Proof.
  cbn [Agent.runTools]. destruct (Agent.runTool host fc run) as [response run1].
  cbn [snd]. destruct (Agent.runTools host rest run1) as [responses run2]. reflexivity.
Qed.

Lemma runTool_fields host fc run :
  let result := fst (Tools.executeTool host (Agent.requested fc) (Agent.world run)) in
  Agent.world (snd (Agent.runTool host fc run))
  = snd (Tools.executeTool host (Agent.requested fc) (Agent.world run))
  /\ Agent.events (snd (Agent.runTool host fc run))
     = Agent.events run
       ++ Agent.ToolStart (Agent.requested fc)
          :: (if onToolEnd host then [Agent.ToolEnd (Agent.requested fc) result] else [])
  /\ Agent.toolsStarted (snd (Agent.runTool host fc run)) = S (Agent.toolsStarted run).
Proof.
  unfold Agent.runTool.
  destruct (Tools.executeTool host (Agent.requested fc) (Agent.world run)) as [result w'].
  repeat split.
Qed.

Lemma runTools_same_world host calls :
  forall run,
    (forall fc, In fc calls ->
                ~ In (Tools.toolName (Agent.requested fc)) AgentSpec.mutatingTools) ->
    Agent.world (snd (Agent.runTools host calls run)) = Agent.world run.
Proof.
  induction calls as [|fc rest IH]; intros run Hreads.
  - reflexivity.
  - rewrite runTools_snd_cons, IH by (intros fc' Hin; apply Hreads; right; exact Hin).
    destruct (runTool_fields host fc run) as (Hworld & _). rewrite Hworld.
    apply executeTool_same_world. apply Hreads. left. reflexivity.
Qed.

Lemma chatSendMessage_world remote run :
  Agent.world (snd (Agent.chatSendMessage remote run)) = Agent.world run.
Proof. unfold Agent.chatSendMessage. destruct (remote _); reflexivity. Qed.

Lemma fetchCompletion_world remote signal run :
  Agent.world (snd (Agent.fetchCompletion remote signal run)) = Agent.world run.
Proof.
  unfold Agent.fetchCompletion. destruct (Agent.aborted signal run); [reflexivity|].
  destruct (remote _); reflexivity.
Qed.

Lemma chatSendMessage_reply remote run response run1 :
  Agent.chatSendMessage remote run = (Normal response, run1) ->
  remote (Agent.providerCalls run) = Agent.Answered response.
Proof.
  unfold Agent.chatSendMessage. destruct (remote _); intros H; try discriminate.
  injection H as <- _. reflexivity.
Qed.

Lemma fetchCompletion_reply remote signal run response run1 :
  Agent.fetchCompletion remote signal run = (Normal response, run1) ->
  remote (Agent.providerCalls run) = Agent.Answered response.
Proof.
  unfold Agent.fetchCompletion. destruct (Agent.aborted signal run); [discriminate|].
  destruct (remote _); intros H; try discriminate.
  injection H as <- _. reflexivity.
Qed.

Lemma googleLoop_same_world host remote remaining :
  AgentSpec.requestsOnlyReads remote ->
  forall response run,
    (forall fc, In fc (Agent.functionCalls response) ->
                ~ In (Tools.toolName (Agent.requested fc)) AgentSpec.mutatingTools) ->
    Agent.world (snd (Agent.googleLoop host remote remaining response run))
    = Agent.world run.
Proof.
  intros Hreads. induction remaining as [|remaining IH]; intros response run Hresponse.
  - rewrite googleLoop_done. reflexivity.
  - rewrite googleLoop_step.
    destruct (Agent.functionCalls response) as [|fc rest] eqn:Hcalls; [reflexivity|].
    pose proof (runTools_same_world host (fc :: rest) run Hresponse) as Htools.
    set (run1 := snd (Agent.runTools host (fc :: rest) run)) in *.
    pose proof (chatSendMessage_world remote (Agent.endRound run1)) as Hchat.
    destruct (Agent.chatSendMessage remote (Agent.endRound run1)) as [[response'|e] run2]
      eqn:Hsend; cbn [fst snd] in *.
    + rewrite IH.
      * rewrite Hchat. exact Htools.
      * intros fc' Hin.
        exact (Hreads _ _ fc' (chatSendMessage_reply _ _ _ _ Hsend) Hin).
    + rewrite Hchat. exact Htools.
Qed.

Lemma openAILoop_same_world host remote signal remaining :
  AgentSpec.requestsOnlyReads remote ->
  forall run,
    Agent.world (snd (Agent.openAILoop host remote signal remaining run))
    = Agent.world run.
Proof.
  intros Hreads. induction remaining as [|remaining IH]; intros run.
  - reflexivity.
  - rewrite openAILoop_step.
    pose proof (fetchCompletion_world remote signal run) as Hfetch.
    destruct (Agent.fetchCompletion remote signal run) as [[msg|e] run1] eqn:Hsend;
      cbn [fst snd] in *; [|exact Hfetch].
    destruct (Agent.functionCalls msg) as [|fc rest] eqn:Hcalls; [exact Hfetch|].
    rewrite IH. cbn [Agent.world Agent.endRound].
    rewrite runTools_same_world; [exact Hfetch|].
    intros fc' Hin. apply (Hreads _ _ fc' (fetchCompletion_reply _ _ _ _ _ Hsend)).
    rewrite Hcalls. exact Hin.
Qed.

(** X29. A run changes the state of the services through its tool calls
    only: when every call the provider asks for is of a tool other than
    [writeFile], [createDirectory] and [deleteFile], the file tree, the index
    and the notification log are after the run what they were before it,
    however the run ends. *)
Theorem sendMessage_reads_leave_world
  (host : Host) (remote : Agent.Provider) (provider : Agent.AIProvider)
  (signal : Agent.Signal) (run : Agent.Run) :
  AgentSpec.requestsOnlyReads remote ->
  Agent.world (snd (Agent.sendMessage host remote provider signal run)) = Agent.world run.
Proof.
  intros Hreads. unfold Agent.sendMessage.
  destruct provider; cbn [Agent.isOpenAICompatible];
    try (apply openAILoop_same_world; exact Hreads); try reflexivity.
  pose proof (chatSendMessage_world remote run) as Hchat.
  destruct (Agent.chatSendMessage remote run) as [[response|e] run1] eqn:Hsend;
    cbn [fst snd] in *; [|exact Hchat].
  rewrite googleLoop_same_world; [exact Hchat | exact Hreads |].
  intros fc Hin. exact (Hreads _ _ fc (chatSendMessage_reply _ _ _ _ Hsend) Hin).
Qed.

Lemma sendMessage_reads_leave_world_witness :
  Agent.world
    (snd (Agent.sendMessage Agent.sampleHost Agent.oneToolThenAnswer Agent.google None
            (Agent.startOfRun FsTree.nestedMemory)))
  = FsTree.nestedMemory.
Proof.
  apply (sendMessage_reads_leave_world Agent.sampleHost Agent.oneToolThenAnswer Agent.google
           None (Agent.startOfRun FsTree.nestedMemory)).
  intros [|n] response fc Hreply Hin; simpl in Hreply; injection Hreply as <-;
    simpl in Hin; [|contradiction].
  destruct Hin as [<-|[]]. simpl. intros [H|[H|[H|[]]]]; discriminate.
Defined.

Lemma Paired_app first second :
  AgentSpec.Paired first -> AgentSpec.Paired second -> AgentSpec.Paired (first ++ second).
Proof.
  intros Hfirst Hsecond. induction Hfirst; simpl.
  - exact Hsecond.
  - constructor. exact IHHfirst.
  - constructor. exact IHHfirst.
Qed.

Lemma toolStarts_app first second :
  AgentSpec.toolStarts (first ++ second)
  = AgentSpec.toolStarts first + AgentSpec.toolStarts second.
Proof.
  induction first as [|[n|call|call result] rest IH]; simpl; rewrite ?IH; reflexivity.
Qed.

Lemma toolEnds_app first second :
  AgentSpec.toolEnds (first ++ second)
  = AgentSpec.toolEnds first + AgentSpec.toolEnds second.
Proof.
  induction first as [|[n|call|call result] rest IH]; simpl; rewrite ?IH; reflexivity.
Qed.

(** The log of a run counts the dispatches begun; it is paired when the
    caller passes [onToolEnd], and holds no tool end when it does not. *)
#[local] Abbreviation logged := (fun (host : Host) (run : Agent.Run) =>
  AgentSpec.toolStarts (Agent.events run) = Agent.toolsStarted run
  /\ (onToolEnd host = true -> AgentSpec.Paired (Agent.events run))
  /\ (onToolEnd host = false -> AgentSpec.toolEnds (Agent.events run) = 0)).

Lemma logged_runTools host calls :
  forall run, logged host run -> logged host (snd (Agent.runTools host calls run)).
Proof.
  induction calls as [|fc rest IH]; intros run Hlogged.
  - exact Hlogged.
  - rewrite runTools_snd_cons. apply IH.
    destruct (runTool_fields host fc run) as (_ & Hevents & Hstarted).
    destruct Hlogged as (Hcount & Hpaired & Hends).
    rewrite Hevents, Hstarted, toolStarts_app, toolEnds_app, Hcount.
    destruct (onToolEnd host); (split; [simpl; lia|]); split; intros Hflag;
      try discriminate.
    + apply Paired_app; [exact (Hpaired eq_refl) | repeat constructor].
    + rewrite (Hends eq_refl). reflexivity.
Qed.

Lemma logged_issueRequest host run :
  logged host run -> logged host (Agent.issueRequest run).
Proof.
  intros (Hcount & Hpaired & Hends). simpl.
  rewrite toolStarts_app, toolEnds_app, Hcount. split; [simpl; lia|]. split; intros Hflag.
  - apply Paired_app; [exact (Hpaired Hflag) | repeat constructor].
  - rewrite (Hends Hflag). reflexivity.
Qed.

Lemma logged_chatSendMessage host remote run :
  logged host run -> logged host (snd (Agent.chatSendMessage remote run)).
Proof.
  intros Hlogged. unfold Agent.chatSendMessage.
  destruct (remote _); apply logged_issueRequest; exact Hlogged.
Qed.

Lemma logged_fetchCompletion host remote signal run :
  logged host run -> logged host (snd (Agent.fetchCompletion remote signal run)).
Proof.
  intros Hlogged. unfold Agent.fetchCompletion.
  destruct (Agent.aborted signal run); [exact Hlogged|].
  destruct (remote _); apply logged_issueRequest; exact Hlogged.
Qed.

Lemma logged_googleLoop host remote remaining :
  forall response run,
    logged host run ->
    logged host (snd (Agent.googleLoop host remote remaining response run)).
Proof.
  induction remaining as [|remaining IH]; intros response run Hlogged.
  - rewrite googleLoop_done. exact Hlogged.
  - rewrite googleLoop_step.
    destruct (Agent.functionCalls response) as [|fc rest]; [exact Hlogged|].
    pose proof (logged_runTools host (fc :: rest) run Hlogged) as Htools.
    set (run1 := snd (Agent.runTools host (fc :: rest) run)) in *.
    pose proof (logged_chatSendMessage host remote (Agent.endRound run1) Htools) as Hchat.
    destruct (Agent.chatSendMessage remote (Agent.endRound run1)) as [[response'|e] run2];
      cbn [fst snd] in *; [apply IH|]; exact Hchat.
Qed.

Lemma logged_openAILoop host remote signal remaining :
  forall run,
    logged host run ->
    logged host (snd (Agent.openAILoop host remote signal remaining run)).
Proof.
  induction remaining as [|remaining IH]; intros run Hlogged.
  - exact Hlogged.
  - rewrite openAILoop_step.
    pose proof (logged_fetchCompletion host remote signal run Hlogged) as Hfetch.
    destruct (Agent.fetchCompletion remote signal run) as [[msg|e] run1];
      cbn [fst snd] in *; [|exact Hfetch].
    destruct (Agent.functionCalls msg) as [|fc rest]; [exact Hfetch|].
    apply IH. exact (logged_runTools host (fc :: rest) run1 Hfetch).
Qed.

(** X30. The log of a run follows the callbacks the caller gave.  It holds
    one tool start for each dispatch begun.  When the caller passes
    [onToolEnd], every tool start is followed at once by the end of the same
    call, however the run ends; when the callback is left out, as
    [sendCreativeMessage] does, the log holds no tool end at all. *)
Theorem sendMessage_pairs_tool_events
  (host : Host) (remote : Agent.Provider) (provider : Agent.AIProvider)
  (signal : Agent.Signal) (w : FileSystem.World) :
  let run' := snd (Agent.sendMessage host remote provider signal (Agent.startOfRun w)) in
  AgentSpec.toolStarts (Agent.events run') = Agent.toolsStarted run'
  /\ (onToolEnd host = true -> AgentSpec.Paired (Agent.events run'))
  /\ (onToolEnd host = false -> AgentSpec.toolEnds (Agent.events run') = 0).
Proof.
  cbv zeta.
  assert (Hstart : logged host (Agent.startOfRun w)).
  { split; [reflexivity|]. split; intros _; [constructor | reflexivity]. }
  unfold Agent.sendMessage.
  destruct provider; cbn [Agent.isOpenAICompatible];
    try (apply logged_openAILoop; exact Hstart); try exact Hstart.
  pose proof (logged_chatSendMessage host remote (Agent.startOfRun w) Hstart) as Hchat.
  destruct (Agent.chatSendMessage remote (Agent.startOfRun w)) as [[response|e] run1];
    cbn [fst snd] in *; [apply logged_googleLoop|]; exact Hchat.
Qed.
